(** * The Hazel front end: lexer and parser

    A shallow embedding of [hazel/compiler/lexer/lexer.c] and of the parts of
    [adorad/compiler/parser.c] that the specification talks about, followed
    by the properties established about them.

    C state is passed explicitly: a function that mutates [Lexer* lexer]
    becomes a function from [Lexer] to [Lexer]; a function that can stop the
    program (an assertion, [panic], a dereference of [null]) or that may loop
    for ever returns a [res].  Loops and recursive descent are driven by a
    [fuel] argument; [Err OutOfFuel] is the only outcome that depends on it. *)

From Stdlib Require Import ZArith List String Strings.Byte Bool Lia.
From Stdlib Require Import Sorting.Sorted.
Import ListNotations.
Open Scope Z_scope.

Set Implicit Arguments.

(** ** Token kinds

    The enumeration lives in a header that is not part of the sources at
    hand; the constructors below are the kinds that [lexer.c] and [parser.c]
    name. *)

Inductive TokenKind : Set :=
  | TOK_ILLEGAL | TOK_EOF
  | STRING | IDENTIFIER | INTEGER | CHAR | FLOAT_LIT
  | SEMICOLON | COMMA | BACKSLASH
  | LSQUAREBRACK | RSQUAREBRACK | LBRACE | RBRACE | LPAREN | RPAREN
  | EQUALS | EQUALS_EQUALS | EQUALS_ARROW
  | PLUS | PLUS_PLUS | PLUS_EQUALS
  | MINUS | MINUS_MINUS | MINUS_EQUALS | RARROW
  | MULT | MULT_MULT | MULT_EQUALS
  | SLASH | SLASH_EQUALS
  | HASH_SIGN
  | EXCLAMATION_EQUALS
  | MOD | MOD_MOD | MOD_EQUALS
  | AND | AND_AND | AND_NOT | AND_EQUALS
  | OR | OR_OR | OR_EQUALS
  | XOR | XOR_EQUALS
  | LESS_THAN | LESS_THAN_OR_EQUAL_TO | LARROW | LBITSHIFT | LBITSHIFT_EQUALS
  | GREATER_THAN | GREATER_THAN_OR_EQUAL_TO | RBITSHIFT | RBITSHIFT_EQUALS
  | TILDA | TILDA_EQUALS
  | DOT | DDOT | ELLIPSIS
  | COLON | COLON_COLON
  | QUESTION | MACRO
  (* keywords, named by the parser only *)
  | FUNC | EXPORT | MUTABLE | CONST | DEFER | IF | ELSE | INLINE
  | BREAK | CONTINUE | RETURN | MATCH | TOK_TRUE | UNREACHABLE.

Scheme Equality for TokenKind.

(** ** Outcomes *)

(** [ErrorKind] is the first argument of [panic]. *)
Inductive ErrorKind : Set :=
  | ErrorParseError | ErrorUnexpectedToken | ErrorUnexpectedNull.

(** The text of a token: either the canonical lexeme [token_toString(kind)]
    (that table is not part of the sources, so it is kept symbolic), or
    bytes copied out of the source buffer. *)
Inductive TokenValue : Set :=
  | Canonical (kind : TokenKind)
  | Text (bytes : list byte).

Inductive error : Set :=
  | CheckFailed                       (* a CSTL_CHECK_* / CORETEN_CHECK / unreachable() *)
  | Panic (kind : ErrorKind) (format : string) (args : list TokenValue)
  | NullDeref                         (* [p->field] with [p == null] *)
  | OutOfBounds                       (* a read past the token vector, or before the buffer *)
  | InvalidFree                       (* [free(p)] with [p] pointing into the token vector *)
  | InvalidPointer                    (* an enumerator used where a node pointer is expected *)
  | MissingReturn                     (* the end of a function that must return a value *)
  | OutOfFuel.                        (* the computation has not returned yet *)

Inductive res (A : Type) : Type :=
  | Ok (a : A)
  | Err (e : error).

Arguments Err {A} e.

Definition bind {A B : Type} (m : res A) (k : A -> res B) : res B :=
  match m with
  | Ok a => k a
  | Err e => Err e
  end.

Notation "x <- m ;; k" := (bind m (fun x => k))
  (at level 61, m at next level, right associativity).
Notation "' pat <- m ;; k" := (bind m (fun x => match x with pat => k end))
  (at level 61, pat pattern, m at next level, right associativity).

(** [CSTL_CHECK_*]: go on when the condition holds, stop the program otherwise. *)
Definition check (b : bool) : res unit :=
  if b then Ok tt else Err CheckFailed.

(** A read of [buffer[i]] is defined only from index 0 on. *)
Definition inside_buffer (i : Z) : res unit :=
  if i <? 0 then Err OutOfBounds else Ok tt.

(** ** Tokens and the lexer state *)

Record Token : Set := mkToken {
  tok_kind : TokenKind;
  tok_offset : Z;
  tok_colno : Z;
  tok_lineno : Z;
  tok_value : TokenValue
}.

(** What the lexer writes to [stderr] for a character it does not know:
    the character, [lexer->lineno] and [lexer->colno]. *)
Record Diagnostic : Set := mkDiagnostic {
  diag_char : byte;
  diag_lineno : Z;
  diag_colno : Z
}.

(** [struct Lexer].  [tokenList] stands for the array together with
    [num_tokens]; [fname] is the constant empty string and is left out;
    [errors] is the text written to [stderr].  Offsets are unbounded
    integers: a buffer is far shorter than 2^32 bytes. *)
Record Lexer : Set := mkLexer {
  buffer : list byte;
  buffer_capacity : Z;
  offset : Z;
  tokenList : list Token;
  lineno : Z;
  colno : Z;
  errors : list Diagnostic
}.

Definition nullchar : byte := x00.

(** [buffer[i]].  The C string is the list up to its first NUL byte, and a
    read at or after the end of the list yields NUL (the terminator).  Reads
    further out are not defined by C; they are given the value NUL here.
    The one read before the buffer that lexer.c can make, in the slice of
    [lexer_lex_identifier], is not given a value: it is stopped there by
    [inside_buffer]. *)
Definition buf_at (b : list byte) (i : Z) : byte :=
  if i <? 0 then nullchar else nth (Z.to_nat i) b nullchar.

Fixpoint strlen (b : list byte) : Z :=
  match b with
  | [] => 0
  | c :: rest => if Byte.eqb c nullchar then 0 else 1 + strlen rest
  end.

Definition lexer_init (buf : list byte) : Lexer :=
  {| buffer := buf;
     buffer_capacity := strlen buf;
     offset := 0;
     tokenList := [];
     lineno := 1;
     colno := 1;
     errors := [] |}.

(** [lexer_tokenlist_append], with room in the array: [tokenList] stands
    for the array and [num_tokens], and the token is stored at the end.
    The branch that the source takes when [num_tokens] has reached
    [tokenList_cap] (a [realloc] to the constant size
    [2 * TOKENLIST_ALLOC_SIZE], a [CSTL_CHECK_NULL] on its result, and
    [tokenList_cap += TOKENLIST_ALLOC_SIZE]) is left out: the constant and
    the macro are defined in headers that are not part of the sources.
    What is stated about token lists is therefore about runs that stay
    within the room of the array. *)
Definition lexer_tokenlist_append (l : Lexer) (t : Token) : Lexer :=
  {| buffer := buffer l; buffer_capacity := buffer_capacity l;
     offset := offset l; tokenList := tokenList l ++ [t];
     lineno := lineno l; colno := colno l; errors := errors l |}.

(** *** The position macros of lexer.h

    Modelled from the spec: the header that defines [LEXER_INCREMENT_OFFSET],
    [LEXER_INCREMENT_COLNO], [LEXER_INCREMENT_LINENO], [LEXER_RESET_COLNO]
    and [LEXER_CURR_CHAR] is not part of the sources.  The spec keeps a byte
    offset and 1-based line and column numbers, and on a newline it says
    "increment line, reset column"; the macros are read accordingly. *)

Definition set_position (l : Lexer) (off line col : Z) : Lexer :=
  {| buffer := buffer l; buffer_capacity := buffer_capacity l;
     offset := off; tokenList := tokenList l;
     lineno := line; colno := col; errors := errors l |}.

Definition LEXER_INCREMENT_COLNO (l : Lexer) : Lexer :=
  set_position l (offset l) (lineno l) (colno l + 1).

Definition LEXER_INCREMENT_OFFSET (l : Lexer) : Lexer :=
  set_position l (offset l + 1) (lineno l) (colno l + 1).

Definition LEXER_INCREMENT_LINENO (l : Lexer) : Lexer :=
  set_position l (offset l) (lineno l + 1) (colno l).

Definition LEXER_RESET_COLNO (l : Lexer) : Lexer :=
  set_position l (offset l) (lineno l) 1.

Definition LEXER_CURR_CHAR (l : Lexer) : byte :=
  buf_at (buffer l) (offset l).

(** *** Character classes and slices of string.h

    Modelled from the spec: [isLetter], [isDigit] and [substr] are declared
    in a header that is not part of the sources.  The spec's identifiers are
    made of "ASCII alphanumeric or `_`" characters, and a token's value is
    the "textual slice of the source". *)

Definition isLetter (c : byte) : bool :=
  match c with
  | "a" | "b" | "c" | "d" | "e" | "f" | "g" | "h" | "i" | "j" | "k" | "l" | "m"
  | "n" | "o" | "p" | "q" | "r" | "s" | "t" | "u" | "v" | "w" | "x" | "y" | "z"
  | "A" | "B" | "C" | "D" | "E" | "F" | "G" | "H" | "I" | "J" | "K" | "L" | "M"
  | "N" | "O" | "P" | "Q" | "R" | "S" | "T" | "U" | "V" | "W" | "X" | "Y" | "Z"
  | "_" => true
  | _ => false
  end%byte.

Definition isDigit (c : byte) : bool :=
  match c with
  | "0" | "1" | "2" | "3" | "4" | "5" | "6" | "7" | "8" | "9" => true
  | _ => false
  end%byte.

(** [substr(dest, src, m, n)]: the [n] bytes [src[m]], ..., [src[m+n-1]]. *)
Definition substr (src : list byte) (m n : Z) : list byte :=
  map (fun i => buf_at src (m + Z.of_nat i)) (seq 0 (Z.to_nat n)).

(** *** Moving through the buffer *)

Definition lexer_advance (l : Lexer) : byte * Lexer :=
  if offset l >=? buffer_capacity l then (nullchar, l)
  else
    let l1 := LEXER_INCREMENT_COLNO l in
    (buf_at (buffer l1) (offset l1),
     set_position l1 (offset l1 + 1) (lineno l1) (colno l1)).

Definition lexer_advancen (l : Lexer) (n : Z) : byte * Lexer :=
  if offset l + n >=? buffer_capacity l then (nullchar, l)
  else
    let l1 := set_position l (offset l + n) (lineno l) (colno l + n) in
    (buf_at (buffer l1) (offset l1), l1).

Definition lexer_peek (l : Lexer) : byte :=
  buf_at (buffer l) (offset l).

(** *** Making tokens: the position recorded is the lexer's current one.

    [lexer_maketoken] also prints a warning when asked for a [STRING]
    token; nothing asks it to. *)

Definition lexer_maketoken (l : Lexer) (kind : TokenKind) : Lexer :=
  lexer_tokenlist_append l
    {| tok_kind := kind; tok_offset := offset l; tok_colno := colno l;
       tok_lineno := lineno l; tok_value := Canonical kind |}.

Definition lexer_makestrtoken (l : Lexer) (str_value : list byte) : Lexer :=
  lexer_tokenlist_append l
    {| tok_kind := STRING; tok_offset := offset l; tok_colno := colno l;
       tok_lineno := lineno l; tok_value := Text str_value |}.

Definition lexer_makeidenttoken (l : Lexer) (ident_value : list byte) : Lexer :=
  lexer_tokenlist_append l
    {| tok_kind := IDENTIFIER; tok_offset := offset l; tok_colno := colno l;
       tok_lineno := lineno l; tok_value := Text ident_value |}.

(** ** The scanners of lexer.c *)

(** [lexer_lex_sl_comment]: [while(ch && ch != '\n') ch = lexer_advance(lexer);] *)
Fixpoint lexer_lex_sl_comment_loop (fuel : nat) (ch : byte) (l : Lexer) : res Lexer :=
  match fuel with
  | O => Err OutOfFuel
  | S f =>
      if negb (Byte.eqb ch nullchar) && negb (Byte.eqb ch "010"%byte) then
        let (ch', l') := lexer_advance l in
        lexer_lex_sl_comment_loop f ch' l'
      else Ok l
  end.

Definition lexer_lex_sl_comment (fuel : nat) (l : Lexer) : res Lexer :=
  let (ch, l1) := lexer_advance l in
  lexer_lex_sl_comment_loop fuel ch l1.

(** The inner loop of [lexer_lex_ml_comment]:
    [while(ch && ch != '*') ch = lexer_advance(lexer);] *)
Fixpoint lexer_lex_ml_comment_skip (fuel : nat) (ch : byte) (l : Lexer)
  : res (byte * Lexer) :=
  match fuel with
  | O => Err OutOfFuel
  | S f =>
      if negb (Byte.eqb ch nullchar) && negb (Byte.eqb ch "*"%byte) then
        let (ch', l') := lexer_advance l in
        lexer_lex_ml_comment_skip f ch' l'
      else Ok (ch, l)
  end.

(** The outer loop: [while(ch && !(ch == '/' && asterisk_found)) { ... }] *)
Fixpoint lexer_lex_ml_comment_loop (fuel : nat) (ch : byte) (asterisk_found : bool)
    (l : Lexer) : res Lexer :=
  match fuel with
  | O => Err OutOfFuel
  | S f =>
      if negb (Byte.eqb ch nullchar)
         && negb (Byte.eqb ch "/"%byte && asterisk_found) then
        '(ch1, l1) <- lexer_lex_ml_comment_skip f ch l ;;
        let asterisk_found' := Byte.eqb ch1 "*"%byte in
        let (ch2, l2) := lexer_advance l1 in
        lexer_lex_ml_comment_loop f ch2 asterisk_found' l2
      else Ok l
  end.

Definition lexer_lex_ml_comment (fuel : nat) (l : Lexer) : res Lexer :=
  let (ch, l1) := lexer_advance l in
  l2 <- lexer_lex_ml_comment_loop fuel ch false l1 ;;
  Ok (snd (lexer_advance l2)).

(** [lexer_lex_esc_char] has an empty body. *)
Definition lexer_lex_esc_char (l : Lexer) : Lexer := l.

(** The loop of [lexer_lex_string], where Q is the double quote and B the
    backslash:
    [while(ch != Q) { if(ch == B) lexer_lex_esc_char(lexer);
                      else ch = lexer_advance(lexer); }] *)
Fixpoint lexer_lex_string_loop (fuel : nat) (ch : byte) (l : Lexer)
  : res (byte * Lexer) :=
  match fuel with
  | O => Err OutOfFuel
  | S f =>
      if negb (Byte.eqb ch "034"%byte) then
        if Byte.eqb ch "\"%byte then
          lexer_lex_string_loop f ch (lexer_lex_esc_char l)
        else
          let (ch', l') := lexer_advance l in
          lexer_lex_string_loop f ch' l'
      else Ok (ch, l)
  end.

Definition lexer_lex_string (fuel : nat) (l : Lexer) : res Lexer :=
  _ <- check (negb (Byte.eqb (LEXER_CURR_CHAR l) "034"%byte)) ;;
  let (ch, l1) := lexer_advance l in
  let prev_offset := offset l1 - 1 in
  '(ch', l2) <- lexer_lex_string_loop fuel ch l1 ;;
  _ <- check (Byte.eqb ch' "034"%byte) ;;
  let offset_diff := offset l2 - prev_offset in
  _ <- check (negb (offset_diff =? 0)) ;;
  Ok (lexer_makestrtoken l2 (substr (buffer l2) prev_offset (offset_diff - 1))).

(** The loop of [lexer_lex_identifier]:
    [while(isLetter(ch) || isDigit(ch)) ch = lexer_advance(lexer);] *)
Fixpoint lexer_lex_identifier_loop (fuel : nat) (ch : byte) (l : Lexer) : res Lexer :=
  match fuel with
  | O => Err OutOfFuel
  | S f =>
      if isLetter ch || isDigit ch then
        let (ch', l') := lexer_advance l in
        lexer_lex_identifier_loop f ch' l'
      else Ok l
  end.

(** [lexer_lex_identifier].  The slice that [substr] copies starts at
    [prev_offset - 1]; when that index is negative the source reads the
    byte before the buffer, which C does not define, and the run is taken
    to stop there. *)
Definition lexer_lex_identifier (fuel : nat) (l : Lexer) : res Lexer :=
  let (ch, l1) := lexer_advance l in
  let prev_offset := offset l1 - 1 in
  l2 <- lexer_lex_identifier_loop fuel ch l1 ;;
  let offset_diff := offset l2 - prev_offset in
  _ <- check (negb (offset_diff =? 0)) ;;
  _ <- inside_buffer (prev_offset - 1) ;;
  Ok (lexer_makeidenttoken l2 (substr (buffer l2) (prev_offset - 1) offset_diff)).

(** The loop of [lexer_lex_digit]: [while(isDigit(ch)) ch = lexer_advance(lexer);] *)
Fixpoint lexer_lex_digit_loop (fuel : nat) (ch : byte) (l : Lexer) : res Lexer :=
  match fuel with
  | O => Err OutOfFuel
  | S f =>
      if isDigit ch then
        let (ch', l') := lexer_advance l in
        lexer_lex_digit_loop f ch' l'
      else Ok l
  end.

Definition lexer_lex_digit (fuel : nat) (l : Lexer) : res Lexer :=
  let ch := LEXER_CURR_CHAR l in
  l1 <- lexer_lex_digit_loop fuel ch l ;;
  Ok (lexer_maketoken l1 INTEGER).

(** The [default:] case of the main switch: the message goes to [stderr]
    and the switch is left with [break]. *)
Definition lexer_report_invalid (l : Lexer) (curr : byte) : Lexer :=
  {| buffer := buffer l; buffer_capacity := buffer_capacity l;
     offset := offset l; tokenList := tokenList l;
     lineno := lineno l; colno := colno l;
     errors := errors l ++ [ {| diag_char := curr; diag_lineno := lineno l;
                                diag_colno := colno l |} ] |}.

(** How a pass leaves the switch: by [goto lex_eof], or by [break] with
    [tokenkind] set ([None] is the value [-1]: nothing to append). *)
Inductive flow : Set :=
  | GotoLexEof
  | SwitchBreak (tokenkind : option TokenKind).

(** [switch(curr) { ... }] of [lexer_lex].  [tokenkind] is [TOK_ILLEGAL] on
    entry, so a case that does not assign it leaves with [TOK_ILLEGAL]. *)
Definition lexer_lex_switch (fuel : nat) (curr next : byte) (l : Lexer)
  : res (Lexer * flow) :=
  match curr with
  | x00 => Ok (l, GotoLexEof)
  | " " | "013" | "009" => Ok (l, SwitchBreak None)
  | "010" => Ok (LEXER_RESET_COLNO (LEXER_INCREMENT_LINENO l), SwitchBreak None)
  | "a" | "b" | "c" | "d" | "e" | "f" | "g" | "h" | "i" | "j" | "k" | "l" | "m"
  | "n" | "o" | "p" | "q" | "r" | "s" | "t" | "u" | "v" | "w" | "x" | "y" | "z"
  | "A" | "B" | "C" | "D" | "E" | "F" | "G" | "H" | "I" | "J" | "K" | "L" | "M"
  | "N" | "O" | "P" | "Q" | "R" | "S" | "T" | "U" | "V" | "W" | "X" | "Y" | "Z"
  | "_" =>
      l' <- lexer_lex_identifier fuel l ;; Ok (l', SwitchBreak None)
  | "1" | "2" | "3" | "4" | "5" | "6" | "7" | "8" | "9" =>
      l' <- lexer_lex_digit fuel l ;; Ok (l', SwitchBreak None)
  | "034" =>
      if Byte.eqb next "034" then
        Ok (lexer_makestrtoken (LEXER_INCREMENT_OFFSET l) ["034"; "034"],
            SwitchBreak (Some TOK_ILLEGAL))
      else
        l' <- lexer_lex_string fuel l ;; Ok (l', SwitchBreak None)
  | ";" => Ok (l, SwitchBreak (Some SEMICOLON))
  | "," => Ok (l, SwitchBreak (Some COMMA))
  | "\" => Ok (l, SwitchBreak (Some BACKSLASH))
  | "[" => Ok (l, SwitchBreak (Some LSQUAREBRACK))
  | "]" => Ok (l, SwitchBreak (Some RSQUAREBRACK))
  | "{" => Ok (l, SwitchBreak (Some LBRACE))
  | "}" => Ok (l, SwitchBreak (Some RBRACE))
  | "(" => Ok (l, SwitchBreak (Some LPAREN))
  | ")" => Ok (l, SwitchBreak (Some RPAREN))
  | "=" =>
      if Byte.eqb next "=" then Ok (LEXER_INCREMENT_OFFSET l, SwitchBreak (Some EQUALS_EQUALS))
      else if Byte.eqb next ">" then Ok (LEXER_INCREMENT_OFFSET l, SwitchBreak (Some EQUALS_ARROW))
      else Ok (l, SwitchBreak (Some EQUALS))
  | "+" =>
      if Byte.eqb next "+" then Ok (LEXER_INCREMENT_OFFSET l, SwitchBreak (Some PLUS_PLUS))
      else if Byte.eqb next "=" then Ok (LEXER_INCREMENT_OFFSET l, SwitchBreak (Some PLUS_EQUALS))
      else Ok (l, SwitchBreak (Some PLUS))
  | "-" =>
      if Byte.eqb next "-" then Ok (LEXER_INCREMENT_OFFSET l, SwitchBreak (Some MINUS_MINUS))
      else if Byte.eqb next "=" then Ok (LEXER_INCREMENT_OFFSET l, SwitchBreak (Some MINUS_EQUALS))
      else if Byte.eqb next ">" then Ok (LEXER_INCREMENT_OFFSET l, SwitchBreak (Some RARROW))
      else Ok (l, SwitchBreak (Some MINUS))
  | "*" =>
      if Byte.eqb next "*" then Ok (LEXER_INCREMENT_OFFSET l, SwitchBreak (Some MULT_MULT))
      else if Byte.eqb next "=" then Ok (LEXER_INCREMENT_OFFSET l, SwitchBreak (Some MULT_EQUALS))
      else Ok (l, SwitchBreak (Some MULT))
  | "/" =>
      if Byte.eqb next "/" then
        l' <- lexer_lex_sl_comment fuel l ;; Ok (l', SwitchBreak None)
      else if Byte.eqb next "*" then
        l' <- lexer_lex_ml_comment fuel l ;; Ok (l', SwitchBreak None)
      else if Byte.eqb next "=" then Ok (LEXER_INCREMENT_OFFSET l, SwitchBreak (Some SLASH_EQUALS))
      else Ok (l, SwitchBreak (Some SLASH))
  | "#" => Ok (LEXER_INCREMENT_OFFSET l, SwitchBreak (Some HASH_SIGN))
  | "!" =>
      if Byte.eqb next "=" then Ok (LEXER_INCREMENT_OFFSET l, SwitchBreak (Some EXCLAMATION_EQUALS))
      else Ok (l, SwitchBreak (Some MINUS_MINUS))
  | "%" =>
      if Byte.eqb next "%" then Ok (LEXER_INCREMENT_OFFSET l, SwitchBreak (Some MOD_MOD))
      else if Byte.eqb next "=" then Ok (LEXER_INCREMENT_OFFSET l, SwitchBreak (Some MOD_EQUALS))
      else Ok (l, SwitchBreak (Some MOD))
  | "&" =>
      if Byte.eqb next "&" then Ok (LEXER_INCREMENT_OFFSET l, SwitchBreak (Some AND_AND))
      else if Byte.eqb next "^" then Ok (LEXER_INCREMENT_OFFSET l, SwitchBreak (Some AND_NOT))
      else if Byte.eqb next "=" then Ok (LEXER_INCREMENT_OFFSET l, SwitchBreak (Some AND_EQUALS))
      else Ok (l, SwitchBreak (Some AND))
  | "|" =>
      if Byte.eqb next "|" then Ok (LEXER_INCREMENT_OFFSET l, SwitchBreak (Some OR_OR))
      else if Byte.eqb next "=" then Ok (LEXER_INCREMENT_OFFSET l, SwitchBreak (Some OR_EQUALS))
      else Ok (l, SwitchBreak (Some OR))
  | "^" =>
      if Byte.eqb next "=" then Ok (LEXER_INCREMENT_OFFSET l, SwitchBreak (Some XOR_EQUALS))
      else Ok (l, SwitchBreak (Some XOR))
  | "<" =>
      if Byte.eqb next "=" then Ok (LEXER_INCREMENT_OFFSET l, SwitchBreak (Some LESS_THAN_OR_EQUAL_TO))
      else if Byte.eqb next "-" then Ok (LEXER_INCREMENT_OFFSET l, SwitchBreak (Some LARROW))
      else if Byte.eqb next "<" then
        let l1 := LEXER_INCREMENT_OFFSET l in
        let c := lexer_peek l1 in
        if Byte.eqb c "=" then Ok (LEXER_INCREMENT_OFFSET l1, SwitchBreak (Some LBITSHIFT_EQUALS))
        else Ok (l1, SwitchBreak (Some LBITSHIFT))
      else Ok (l, SwitchBreak (Some LESS_THAN))
  | ">" =>
      if Byte.eqb next "=" then Ok (LEXER_INCREMENT_OFFSET l, SwitchBreak (Some GREATER_THAN_OR_EQUAL_TO))
      else if Byte.eqb next ">" then
        let l1 := LEXER_INCREMENT_OFFSET l in
        let c := lexer_peek l1 in
        if Byte.eqb c "=" then Ok (LEXER_INCREMENT_OFFSET l1, SwitchBreak (Some RBITSHIFT_EQUALS))
        else Ok (l1, SwitchBreak (Some RBITSHIFT))
      else Ok (l, SwitchBreak (Some GREATER_THAN))
  | "~" =>
      if Byte.eqb next "=" then Ok (LEXER_INCREMENT_OFFSET l, SwitchBreak (Some TILDA_EQUALS))
      else Ok (l, SwitchBreak (Some TILDA))
  | "." =>
      if Byte.eqb next "." then
        let l1 := LEXER_INCREMENT_OFFSET l in
        let c := lexer_peek l1 in
        if Byte.eqb c "." then Ok (LEXER_INCREMENT_OFFSET l1, SwitchBreak (Some ELLIPSIS))
        else Ok (l1, SwitchBreak (Some DDOT))
      else Ok (l, SwitchBreak (Some DOT))
  | ":" =>
      if Byte.eqb next ":" then Ok (LEXER_INCREMENT_OFFSET l, SwitchBreak (Some COLON_COLON))
      else Ok (l, SwitchBreak (Some COLON))
  | "?" => Ok (l, SwitchBreak (Some QUESTION))
  | "@" => Ok (l, SwitchBreak (Some MACRO))
  | _ => Ok (lexer_report_invalid l curr, SwitchBreak (Some TOK_ILLEGAL))
  end%byte.

(** One pass through the body of [while(true)]: read [curr] and [next], run
    the switch, and append the token unless [tokenkind == -1].  The boolean
    tells whether the loop was left by [goto lex_eof]. *)
Definition lexer_lex_step (fuel : nat) (l : Lexer) : res (Lexer * bool) :=
  let (curr, l1) := lexer_advance l in
  let next := lexer_peek l1 in
  '(l2, fl) <- lexer_lex_switch fuel curr next l1 ;;
  match fl with
  | GotoLexEof => Ok (l2, true)
  | SwitchBreak None => Ok (l2, false)
  | SwitchBreak (Some tokenkind) => Ok (lexer_maketoken l2 tokenkind, false)
  end.

Fixpoint lexer_lex_loop (fuel : nat) (l : Lexer) : res Lexer :=
  match fuel with
  | O => Err OutOfFuel
  | S f =>
      '(l', at_eof) <- lexer_lex_step f l ;;
      if at_eof then Ok l' else lexer_lex_loop f l'
  end.

(** [lexer_lex]: skip a leading byte-order mark, run the loop, and append
    [TOK_EOF] at the label [lex_eof]. *)
Definition lexer_lex (fuel : nat) (l : Lexer) : res Lexer :=
  let l0 :=
    if Byte.eqb (buf_at (buffer l) 0) xef
       && Byte.eqb (buf_at (buffer l) 1) xbb
       && Byte.eqb (buf_at (buffer l) 2) xbf
    then snd (lexer_advancen l 3)
    else l in
  l' <- lexer_lex_loop fuel l0 ;;
  Ok (lexer_maketoken l' TOK_EOF).

(** The lexer as its caller sees it: [lexer_init] then [lexer_lex]; the
    token list is read off the returned lexer. *)
Definition lex (fuel : nat) (buf : list byte) : res (list Token) :=
  l <- lexer_lex fuel (lexer_init buf) ;;
  Ok (tokenList l).

Definition kinds (ts : list Token) : list TokenKind := map tok_kind ts.

(** The kinds of the tokens [lex] returned, when it returned. *)
Definition kinds_of_lex (r : res (list Token)) : option (list TokenKind) :=
  match r with
  | Ok ts => Some (kinds ts)
  | Err _ => None
  end.

(** The case labels of the macro [ALPHA] of lexer.c. *)
Definition ALPHA (c : byte) : bool :=
  match c with
  | "a" | "b" | "c" | "d" | "e" | "f" | "g" | "h" | "i" | "j" | "k" | "l" | "m"
  | "n" | "o" | "p" | "q" | "r" | "s" | "t" | "u" | "v" | "w" | "x" | "y" | "z"
  | "A" | "B" | "C" | "D" | "E" | "F" | "G" | "H" | "I" | "J" | "K" | "L" | "M"
  | "N" | "O" | "P" | "Q" | "R" | "S" | "T" | "U" | "V" | "W" | "X" | "Y" | "Z"
    => true
  | _ => false
  end%byte.

(** The characters that have a [case] label of their own in the switch of
    [lexer_lex]; every other character reaches [default:]. *)
Definition has_case_label (c : byte) : bool :=
  ALPHA c ||
  match c with
  | x00 | " " | "013" | "009" | "010" | "_"
  | "1" | "2" | "3" | "4" | "5" | "6" | "7" | "8" | "9"
  | "034" | ";" | "," | "\" | "[" | "]" | "{" | "}" | "(" | ")"
  | "=" | "+" | "-" | "*" | "/" | "#" | "!" | "%" | "&" | "|" | "^"
  | "<" | ">" | "~" | "." | ":" | "?" | "@" => true
  | _ => false
  end%byte.

(** The number of bytes between the lexer's offset and the end of the text. *)
Definition remaining (l : Lexer) : nat :=
  Z.to_nat (buffer_capacity l - offset l).


(** The tokens of the one-character text [;], as [lex] returns them. *)
Definition tokens_semicolon : list Token :=
  [ mkToken SEMICOLON 1 2 1 (Canonical SEMICOLON);
    mkToken TOK_EOF 1 2 1 (Canonical TOK_EOF) ].

(** ** The parser state (parser.c)

    [toklist] is the token vector and [curr_tok] the index the C pointer
    [parser->curr_tok] stands at.  The pointer is only ever used to read the
    token it points to; a read past the end of the vector is reported as
    [OutOfBounds]. *)

Record Parser : Set := mkParser {
  toklist : list Token;
  curr_tok : nat
}.

Definition parser_init (toks : list Token) : Parser :=
  {| toklist := toks; curr_tok := 0 |}.

Definition parser_peek_token (p : Parser) : res Token :=
  match nth_error (toklist p) (curr_tok p) with
  | Some t => Ok t
  | None => Err OutOfBounds
  end.

Definition parser_chomp (p : Parser) : res (Token * Parser) :=
  tok <- parser_peek_token p ;;
  Ok (tok, {| toklist := toklist p; curr_tok := S (curr_tok p) |}).

(** A [Token*] that may be [null] is an [option Token]. *)
Definition parser_chomp_if (p : Parser) (tokenkind : TokenKind)
  : res (option Token * Parser) :=
  tok <- parser_peek_token p ;;
  if TokenKind_beq (tok_kind tok) tokenkind then
    '(t, p') <- parser_chomp p ;; Ok (Some t, p')
  else Ok (None, p).

(** [panic(kind, format, ...)]: the diagnostic sink; it does not return. *)
Definition panic {A : Type} (kind : ErrorKind) (format : string)
    (args : list TokenValue) : res A :=
  Err (Panic kind format args).

Definition ast_error {A : Type} (format : string) (args : list TokenValue) : res A :=
  panic ErrorParseError format args.

Definition parser_expect_token (p : Parser) (tokenkind : TokenKind)
  : res (Token * Parser) :=
  tok <- parser_peek_token p ;;
  if TokenKind_beq (tok_kind tok) tokenkind then parser_chomp p
  else panic ErrorUnexpectedToken "Expected `%s`; got `%s`"
         [Canonical tokenkind; Canonical (tok_kind tok)].

(** ** Syntax trees

    [AstNode] is a tagged union in C; each constructor below but the last
    is one tag together with a payload, with the fields that parser.c
    names.  A child pointer that may be [null] is an [option].
    [AstOther kind] is a node as [ast_create_node(kind)] leaves it: the kind
    is set and the payload pointers [data.stmt] and [data.expr] are null.
    Nothing in parser.c allocates a payload, so a node with a payload can
    only come from a parsing function that is not in parser.c. *)

Inductive AstNodeKind : Set :=
  | AstNodeKindVarDecl | AstNodeKindDefer | AstNodeKindIfExpr | AstNodeKindBlock
  | AstNodeKindLoopCExpr | AstNodeKindLoopWhileExpr | AstNodeKindLoopInExpr
  | AstNodeKindBinaryOpExpr | AstNodeKindBreak | AstNodeKindContinue
  | AstNodeKindReturn | AstNodeKindMatchExpr | AstNodeKindFuncPrototype
  | AstNodeKindIdentifier | AstNodeKindIntLiteral | AstNodeKindFloatLiteral
  | AstNodeKindCharLiteral | AstNodeKindStringLiteral | AstNodeKindBoolLiteral
  | AstNodeKindUnreachable.

Scheme Equality for AstNodeKind.

(** The [bin_kind] column of [precedence_table]. *)
Inductive BinaryOpKind : Set :=
  | BinaryOpKindMult | BinaryOpKindMod | BinaryOpKindDiv
  | BinaryOpKindAdd | BinaryOpKindSubtract
  | BinaryOpKindAssignmentPlus | BinaryOpKindAssignmentMinus
  | BinaryOpKindBitshitLeft | BinaryOpKindBitshitRight
  | BinaryOpKindCmpEqual | BinaryOpKindCmpNotEqual
  | BinaryOpKindCmpGreaterThan | BinaryOpKindCmpLessThan
  | BinaryOpKindCmpGreaterThanorEqualTo | BinaryOpKindCmpLessThanorEqualTo
  | BinaryOpKindBoolAnd | BinaryOpKindBoolOr.

Inductive AstNodeBranchStatement : Set :=
  | AstNodeBranchStatementBreak | AstNodeBranchStatementContinue.

#[warnings="-register-all"]
Inductive AstNode : Type :=
  | AstVarDecl (name : TokenValue) (is_export is_mutable is_const : bool)
               (expr : option AstNode)
  | AstDefer (expr : option AstNode)
  | AstIfExpr (condition then_block : option AstNode) (has_else : bool)
              (else_node : option AstNode)
  | AstBlock (name : option TokenValue) (statements : list AstNode)
  | AstLoop (kind : AstNodeKind) (label : option TokenValue) (is_inline : bool)
  | AstBinaryOpExpr (op : BinaryOpKind) (lhs rhs : option AstNode)
  | AstBranch (type : AstNodeBranchStatement) (name : option TokenValue)
              (expr : option AstNode)
  | AstReturn (expr : option AstNode)
  | AstOther (kind : AstNodeKind).

(** [node->kind]. *)
Definition ast_kind (n : AstNode) : AstNodeKind :=
  match n with
  | AstVarDecl _ _ _ _ _ => AstNodeKindVarDecl
  | AstDefer _ => AstNodeKindDefer
  | AstIfExpr _ _ _ _ => AstNodeKindIfExpr
  | AstBlock _ _ => AstNodeKindBlock
  | AstLoop k _ _ => k
  | AstBinaryOpExpr _ _ _ => AstNodeKindBinaryOpExpr
  | AstBranch AstNodeBranchStatementBreak _ _ => AstNodeKindBreak
  | AstBranch AstNodeBranchStatementContinue _ _ => AstNodeKindContinue
  | AstReturn _ => AstNodeKindReturn
  | AstOther k => k
  end.

(** [ast_create_node(kind)]: [calloc] and [node->kind = kind]. *)
Definition ast_create_node (kind : AstNodeKind) : AstNode := AstOther kind.

(** [node->data.stmt->...] and [node->data.expr->...]: the payload of a
    node, reached for a read or a write.  The node that [ast_create_node]
    returns has none, and the access goes through a null pointer.  In an
    assignment [node->...->field = e] the value of [e] is taken first and
    the store through the payload comes after it; C leaves the order open,
    and where both fail both are null dereferences. *)
Definition payload (n : AstNode) : res unit :=
  match n with
  | AstOther _ => Err NullDeref
  | _ => Ok tt
  end.

(** [free(tok)] for a token pointer that may be [null].  A pointer that is
    not null was returned by [parser_chomp]: it points into the token
    vector, not to a block that [malloc] returned for the token, so C does
    not define the call; the run is taken to stop there.  [free(null)] does
    nothing.  (The calls of [free] on a node pointer in parser.c are all
    made with [null] and are left out.) *)
Definition free_token (t : option Token) : res unit :=
  match t with
  | None => Ok tt
  | Some _ => Err InvalidFree
  end.

Definition is_some {A : Type} (o : option A) : bool :=
  match o with Some _ => true | None => false end.

(** [token->value] for a token pointer that may be [null]. *)
Definition deref_value (t : option Token) : res TokenValue :=
  match t with
  | Some tok => Ok (tok_value tok)
  | None => Err NullDeref
  end.

(** The result of a parsing function: the node, or [null], and the parser
    after the call. *)
Definition parsed : Type := res (option AstNode * Parser).

(** [BreakLabel := COLON IDENTIFIER].  The colon is freed before the
    identifier is read. *)
Definition ast_parse_break_label (p : Parser) : res (option Token * Parser) :=
  '(colon, p) <- parser_chomp_if p COLON ;;
  match colon with
  | None => Ok (None, p)
  | Some _ =>
      _ <- free_token colon ;;
      '(ident, p) <- parser_expect_token p IDENTIFIER ;;
      Ok (Some ident, p)
  end.

(** [BlockLabel := IDENTIFIER COLON].  An identifier that no colon follows
    stays consumed, is freed, and [null] is returned; the colon is freed
    before the identifier is returned. *)
Definition ast_parse_block_label (p : Parser) : res (option Token * Parser) :=
  '(ident, p) <- parser_chomp_if p IDENTIFIER ;;
  match ident with
  | None => Ok (None, p)
  | Some id =>
      '(colon, p) <- parser_chomp_if p COLON ;;
      match colon with
      | None =>
          _ <- free_token ident ;;
          Ok (None, p)
      | Some _ =>
          _ <- free_token colon ;;
          Ok (Some id, p)
      end
  end.

(** The operator parsers of parser.c: the node comes from
    [ast_create_node], and [op] is written through its payload. *)
Definition ast_parse_boolean_and_op (p : Parser) : parsed :=
  '(op_token, p) <- parser_chomp_if p AND ;;
  match op_token with
  | None => Ok (None, p)
  | Some _ =>
      let out := ast_create_node AstNodeKindBinaryOpExpr in
      _ <- payload out ;;
      Ok (Some (AstBinaryOpExpr BinaryOpKindBoolAnd None None), p)
  end.

Definition ast_parse_boolean_or_op (p : Parser) : parsed :=
  '(op_token, p) <- parser_chomp_if p OR ;;
  match op_token with
  | None => Ok (None, p)
  | Some _ =>
      let out := ast_create_node AstNodeKindBinaryOpExpr in
      _ <- payload out ;;
      Ok (Some (AstBinaryOpExpr BinaryOpKindBoolOr None None), p)
  end.

Inductive BinaryOpChain : Set :=
  | BinaryOpChainOnce
  | BinaryOpChainInfinity.

(** The [do { ... } while(chain == BinaryOpChainInfinity)] of
    [ast_parse_binary_op_expr]; [out] is the expression read so far.  The
    operands are written through the payload of the operator node, after
    the test of its kind ([unreachable()] otherwise). *)
Fixpoint ast_parse_binary_op_loop (fuel : nat) (chain : BinaryOpChain)
    (op_parser child_parser : Parser -> parsed) (out : AstNode) (p : Parser)
  : parsed :=
  match fuel with
  | O => Err OutOfFuel
  | S f =>
      '(op, p) <- op_parser p ;;
      match op with
      | None => Ok (Some out, p)
      | Some op_node =>
          let lhs := out in
          '(rhs, p) <- child_parser p ;;
          _ <- check (AstNodeKind_beq (ast_kind op_node) AstNodeKindBinaryOpExpr) ;;
          _ <- payload op_node ;;
          match op_node with
          | AstBinaryOpExpr o _ _ =>
              let out := AstBinaryOpExpr o (Some lhs) rhs in
              match chain with
              | BinaryOpChainInfinity =>
                  ast_parse_binary_op_loop f chain op_parser child_parser out p
              | BinaryOpChainOnce => Ok (Some out, p)
              end
          | _ => Err CheckFailed
          end
      end
  end.

Definition ast_parse_binary_op_expr (fuel : nat) (chain : BinaryOpChain)
    (op_parser child_parser : Parser -> parsed) (p : Parser) : parsed :=
  '(out, p) <- child_parser p ;;
  match out with
  | None => Ok (None, p)
  | Some out => ast_parse_binary_op_loop fuel chain op_parser child_parser out p
  end.

(** A parser that matches nothing and consumes nothing: what an alternative
    of the grammar does when its first token is not the current one.  It
    stands in for the functions that are not in parser.c wherever a theorem
    is tried on a concrete token list. *)
Definition no_match (p : Parser) : parsed := Ok (None, p).

(** A token of the given kind carrying its canonical text, for token lists
    written by hand. *)
Definition token_of (kind : TokenKind) : Token :=
  {| tok_kind := kind; tok_offset := 0; tok_colno := 1; tok_lineno := 1;
     tok_value := Canonical kind |}.

Definition ident_token (name : string) : Token :=
  {| tok_kind := IDENTIFIER; tok_offset := 0; tok_colno := 1; tok_lineno := 1;
     tok_value := Text (list_byte_of_string name) |}.

(** The tokens of the expression 1 + 2 * 3, as [lex] returns them. *)
Definition tokens_1_plus_2_times_3 : list Token :=
  [ mkToken INTEGER 1 2 1 (Canonical INTEGER);
    mkToken PLUS 3 4 1 (Canonical PLUS);
    mkToken INTEGER 5 6 1 (Canonical INTEGER);
    mkToken MULT 7 8 1 (Canonical MULT);
    mkToken INTEGER 9 10 1 (Canonical INTEGER);
    mkToken TOK_EOF 9 10 1 (Canonical TOK_EOF) ].

(** The tokens of the declaration [mutable const Int32 x;] with its
    keywords recognised, as section 6.1 of the spec lists them. *)
Definition tokens_mutable_const : list Token :=
  [ token_of MUTABLE; token_of CONST; ident_token "Int32"; ident_token "x";
    token_of SEMICOLON; token_of TOK_EOF ].

(** The tokens of an empty block, as [lex] returns them. *)
Definition tokens_empty_block : list Token :=
  [ mkToken LBRACE 1 2 1 (Canonical LBRACE);
    mkToken RBRACE 3 4 1 (Canonical RBRACE);
    mkToken TOK_EOF 3 4 1 (Canonical TOK_EOF) ].

(** A [continue] keyword followed by a semicolon. *)
Definition tokens_continue : list Token :=
  [ token_of CONTINUE; token_of SEMICOLON; token_of TOK_EOF ].

Section Grammar.

(** The parsing functions that parser.c calls and does not define
    ([ast_parse_expr], the operator parsers of the five lower tiers, the
    three loop parsers), or defines through such a function and nothing else
    ([ast_parse_type_expr] through [ast_parse_prefix_op_expr],
    [ast_parse_if_expr] through [ast_parse_if_expr_helper],
    [ast_parse_match_expr] through [ast_parse_list], and
    [ast_parse_assignment_expr], whose one call leaves out three of the four
    arguments).  What is proved below holds whatever they do. *)
Variable ast_parse_expr : Parser -> parsed.
Variable ast_parse_type_expr : Parser -> parsed.
Variable ast_parse_if_expr : Parser -> parsed.
Variable ast_parse_match_expr : Parser -> parsed.
Variable ast_parse_assignment_expr : Parser -> parsed.
Variable ast_parse_loop_c_statement : Parser -> parsed.
Variable ast_parse_loop_while_statement : Parser -> parsed.
Variable ast_parse_loop_in_statement : Parser -> parsed.
Variable ast_parse_comparison_op : Parser -> parsed.
Variable ast_parse_bitwise_op : Parser -> parsed.
Variable ast_parse_bitshift_op : Parser -> parsed.
Variable ast_parse_addition_op : Parser -> parsed.
Variable ast_parse_multiplication_op : Parser -> parsed.

(** *** The tiers of binary expressions

    Each tier hands its operator parser and the parser of the next tier to
    [ast_parse_binary_op_expr]; the next tier is the one parser.c names. *)
Fixpoint ast_parse_bitwise_expr (fuel : nat) (p : Parser) {struct fuel} : parsed :=
  match fuel with
  | O => Err OutOfFuel
  | S f =>
      ast_parse_binary_op_expr f BinaryOpChainInfinity
        ast_parse_bitwise_op (ast_parse_bitshift_expr f) p
  end
with ast_parse_bitshift_expr (fuel : nat) (p : Parser) {struct fuel} : parsed :=
  match fuel with
  | O => Err OutOfFuel
  | S f =>
      ast_parse_binary_op_expr f BinaryOpChainInfinity
        ast_parse_bitshift_op (ast_parse_addition_expr f) p
  end
with ast_parse_addition_expr (fuel : nat) (p : Parser) {struct fuel} : parsed :=
  match fuel with
  | O => Err OutOfFuel
  | S f =>
      ast_parse_binary_op_expr f BinaryOpChainInfinity
        ast_parse_addition_op (ast_parse_multiplication_expr f) p
  end
with ast_parse_multiplication_expr (fuel : nat) (p : Parser) {struct fuel} : parsed :=
  match fuel with
  | O => Err OutOfFuel
  | S f =>
      ast_parse_binary_op_expr f BinaryOpChainInfinity
        ast_parse_multiplication_op (ast_parse_bitwise_expr f) p
  end.

Definition ast_parse_comparison_expr (fuel : nat) (p : Parser) : parsed :=
  ast_parse_binary_op_expr fuel BinaryOpChainOnce
    ast_parse_comparison_op (ast_parse_bitwise_expr fuel) p.

Definition ast_parse_bool_or_expr (fuel : nat) (p : Parser) : parsed :=
  ast_parse_binary_op_expr fuel BinaryOpChainInfinity
    ast_parse_boolean_or_op (ast_parse_comparison_expr fuel) p.

Definition ast_parse_bool_and_expr (fuel : nat) (p : Parser) : parsed :=
  ast_parse_binary_op_expr fuel BinaryOpChainInfinity
    ast_parse_boolean_and_op (ast_parse_bool_or_expr fuel) p.

(** *** Declarations and statements *)

(** [VarDecl].  The type expression is parsed and dropped.  The node
    comes from [ast_create_node], and the first write, of [name], goes
    through its payload.  (When no [=] follows the name the local [expr]
    is not initialised; it stands as [None] here and is not used before
    that write.) *)
Definition ast_parse_var_decl (p : Parser) : parsed :=
  '(export_kwd, p) <- parser_chomp_if p EXPORT ;;
  '(mutable_kwd, p) <- parser_chomp_if p MUTABLE ;;
  '(const_kwd, p) <- parser_chomp_if p CONST ;;
  if is_some mutable_kwd && is_some const_kwd then
    ast_error "Cannot decorate a variable as both `mutable` and `const`" []
  else
    '(type_expr, p) <- ast_parse_type_expr p ;;
    '(identifier, p) <- parser_expect_token p IDENTIFIER ;;
    '(equals, p) <- parser_chomp_if p EQUALS ;;
    '(expr, p) <- match equals with
                  | Some _ => ast_parse_expr p
                  | None => Ok (None, p)
                  end ;;
    '(_, p) <- parser_expect_token p SEMICOLON ;;
    let out := ast_create_node AstNodeKindVarDecl in
    _ <- payload out ;;
    Ok (Some (AstVarDecl (tok_value identifier) (is_some export_kwd)
                (is_some mutable_kwd) (is_some const_kwd) expr), p).

(** [ast_clone_node(node)]. *)
Definition ast_clone_node (node : option AstNode) : res AstNode :=
  match node with
  | None => panic ErrorUnexpectedNull "Trying to clone a null AstNode?" []
  | Some n => Ok (ast_create_node (ast_kind n))
  end.

(** An enumerator of [AstNodeKind] passed where a node pointer is
    expected, as in [ast_clone_node(AstNodeKindIfExpr)]: its value is no
    address of a node. *)
Definition node_at_enumerator (kind : AstNodeKind) : res (option AstNode) :=
  Err InvalidPointer.

(** [ast_parse_if_prefix].  The two parentheses are freed after the
    condition is read; the node is asked of [ast_clone_node], which is
    given the enumerator [AstNodeKindIfExpr]. *)
Definition ast_parse_if_prefix (p : Parser) : parsed :=
  '(if_kwd, p) <- parser_chomp_if p IF ;;
  match if_kwd with
  | None => Ok (None, p)
  | Some _ =>
      '(lparen, p) <- parser_expect_token p LPAREN ;;
      '(condition, p) <- ast_parse_expr p ;;
      '(rparen, p) <- parser_expect_token p RPAREN ;;
      _ <- free_token (Some lparen) ;;
      _ <- free_token (Some rparen) ;;
      node <- node_at_enumerator AstNodeKindIfExpr ;;
      out <- ast_clone_node node ;;
      _ <- payload out ;;
      Ok (Some (AstIfExpr condition None false None), p)
  end.

(** [node->...->is_inline = b] after [CORETEN_CHECK(node->kind == kind)]. *)
Definition set_is_inline (kind : AstNodeKind) (b : bool) (n : AstNode) : res AstNode :=
  if AstNodeKind_beq (ast_kind n) kind then
    _ <- payload n ;;
    match n with
    | AstLoop k label _ => Ok (AstLoop k label b)
    | other => Ok other
    end
  else Err CheckFailed.

(** [ast_parse_loop_statement].  The [inline] token is freed on each path
    that returns a loop.  When no loop follows and there is no [inline]
    token, the source reaches the end of the function without a [return]
    and its caller uses the value, which C does not define. *)
Definition ast_parse_loop_statement (p : Parser) : parsed :=
  '(inline_token, p) <- parser_chomp_if p INLINE ;;
  '(loop_c_statement, p) <- ast_parse_loop_c_statement p ;;
  match loop_c_statement with
  | Some n =>
      n' <- set_is_inline AstNodeKindLoopCExpr (is_some inline_token) n ;;
      _ <- free_token inline_token ;;
      Ok (Some n', p)
  | None =>
  '(loop_while_statement, p) <- ast_parse_loop_while_statement p ;;
  match loop_while_statement with
  | Some n =>
      n' <- set_is_inline AstNodeKindLoopWhileExpr (is_some inline_token) n ;;
      _ <- free_token inline_token ;;
      Ok (Some n', p)
  | None =>
  '(loop_in_statement, p) <- ast_parse_loop_in_statement p ;;
  match loop_in_statement with
  | Some n =>
      n' <- set_is_inline AstNodeKindLoopWhileExpr (is_some inline_token) n ;;
      _ <- free_token inline_token ;;
      Ok (Some n', p)
  | None =>
      match inline_token with
      | Some _ =>
          tok <- parser_peek_token p ;;
          panic ErrorUnexpectedToken "invalid token: `%s`" [tok_value tok]
      | None => Err MissingReturn
      end
  end end end.

(** [block->...->name = value] and [loop->...->label = value]. *)
Definition set_block_name (value : TokenValue) (n : AstNode) : AstNode :=
  match n with
  | AstBlock _ statements => AstBlock (Some value) statements
  | other => other
  end.

Definition set_loop_label (value : TokenValue) (n : AstNode) : AstNode :=
  match n with
  | AstLoop k _ is_inline => AstLoop k (Some value) is_inline
  | other => other
  end.

Fixpoint ast_parse_statement (fuel : nat) (p : Parser) {struct fuel} : parsed :=
  match fuel with
  | O => Err OutOfFuel
  | S f =>
      '(var_decl, p) <- ast_parse_var_decl p ;;
      match var_decl with
      | Some n =>
          _ <- check (AstNodeKind_beq (ast_kind n) AstNodeKindVarDecl) ;;
          Ok (Some n, p)
      | None =>
      '(defer_stmt, p) <- parser_chomp_if p DEFER ;;
      match defer_stmt with
      | Some _ =>
          '(statement, p) <- ast_parse_block_expr_statement f p ;;
          let out := ast_create_node AstNodeKindDefer in
          _ <- payload out ;;
          Ok (Some (AstDefer statement), p)
      | None =>
      '(if_statement, p) <- ast_parse_if_statement f p ;;
      match if_statement with
      | Some n => Ok (Some n, p)
      | None =>
      '(labeled_statement, p) <- ast_parse_labeled_statements f p ;;
      match labeled_statement with
      | Some n => Ok (Some n, p)
      | None =>
      '(match_expr, p) <- ast_parse_match_expr p ;;
      match match_expr with
      | Some n => Ok (Some n, p)
      | None =>
      '(assignment_expr, p) <- ast_parse_assignment_expr p ;;
      match assignment_expr with
      | Some n => Ok (Some n, p)
      | None => Ok (None, p)
      end end end end end end
  end
with ast_parse_if_statement (fuel : nat) (p : Parser) {struct fuel} : parsed :=
  match fuel with
  | O => Err OutOfFuel
  | S f =>
      '(out, p) <- ast_parse_if_prefix p ;;
      match out with
      | None => Ok (None, p)
      | Some out =>
          '(body, p) <- ast_parse_block_expr f p ;;
          '(body, p) <- match body with
                        | Some _ => Ok (body, p)
                        | None => ast_parse_assignment_expr p
                        end ;;
          match body with
          | None =>
              '(token, p) <- parser_chomp p ;;
              ast_error "expected `if` body; found `%s`" [Canonical (tok_kind token)]
          | Some _ =>
              '(else_kwd, p) <- parser_chomp_if p ELSE ;;
              '(else_body, p) <- match else_kwd with
                                 | Some _ => ast_parse_statement f p
                                 | None => Ok (None, p)
                                 end ;;
              _ <- free_token else_kwd ;;
              _ <- payload out ;;
              match out with
              | AstIfExpr condition _ _ _ =>
                  Ok (Some (AstIfExpr condition body (is_some else_body) else_body), p)
              | other => Ok (Some other, p)
              end
          end
      end
  end
with ast_parse_labeled_statements (fuel : nat) (p : Parser) {struct fuel} : parsed :=
  match fuel with
  | O => Err OutOfFuel
  | S f =>
      '(label, p) <- ast_parse_block_label p ;;
      '(block, p) <- ast_parse_block f p ;;
      match block with
      | Some b =>
          _ <- check (AstNodeKind_beq (ast_kind b) AstNodeKindBlock) ;;
          value <- deref_value label ;;
          _ <- payload b ;;
          Ok (Some (set_block_name value b), p)
      | None =>
      '(loop, p) <- ast_parse_loop_statement p ;;
      match loop with
      | Some lp =>
          value <- deref_value label ;;
          _ <- payload lp ;;
          Ok (Some (set_loop_label value lp), p)
      | None =>
          match label with
          | Some _ =>
              tok <- parser_peek_token p ;;
              panic ErrorUnexpectedToken "invalid token: `%s`" [tok_value tok]
          | None => Ok (None, p)
          end
      end end
  end
with ast_parse_block_expr_statement (fuel : nat) (p : Parser) {struct fuel} : parsed :=
  match fuel with
  | O => Err OutOfFuel
  | S f =>
      '(block, p) <- ast_parse_block_expr f p ;;
      match block with
      | Some b => Ok (Some b, p)
      | None =>
          '(assignment_expr, p) <- ast_parse_assignment_expr p ;;
          match assignment_expr with
          | Some n =>
              '(semi, p) <- parser_expect_token p SEMICOLON ;;
              _ <- free_token (Some semi) ;;
              Ok (Some n, p)
          | None => Ok (None, p)
          end
      end
  end
with ast_parse_block_expr (fuel : nat) (p : Parser) {struct fuel} : parsed :=
  match fuel with
  | O => Err OutOfFuel
  | S f =>
      '(block_label, p) <- ast_parse_block_label p ;;
      match block_label with
      | Some label =>
          '(out, p) <- ast_parse_block f p ;;
          match out with
          | None => Err NullDeref
          | Some b =>
              _ <- check (AstNodeKind_beq (ast_kind b) AstNodeKindBlock) ;;
              _ <- payload b ;;
              Ok (Some (set_block_name (tok_value label) b), p)
          end
      | None => ast_parse_block f p
      end
  end
with ast_parse_block (fuel : nat) (p : Parser) {struct fuel} : parsed :=
  match fuel with
  | O => Err OutOfFuel
  | S f =>
      '(lbrace, p) <- parser_chomp_if p LBRACE ;;
      match lbrace with
      | None => Ok (None, p)
      | Some _ =>
          '(statements, p) <- ast_parse_block_statements f p [] ;;
          '(rbrace, p) <- parser_expect_token p RBRACE ;;
          _ <- free_token lbrace ;;
          _ <- free_token (Some rbrace) ;;
          let out := ast_create_node AstNodeKindBlock in
          _ <- payload out ;;
          Ok (Some (AstBlock None statements), p)
      end
  end
with ast_parse_block_statements (fuel : nat) (p : Parser)
    (statements : list AstNode) {struct fuel} : res (list AstNode * Parser) :=
  (* while((statement = ast_parse_statement(parser)) != null)
         vec_push(statements, statement); *)
  match fuel with
  | O => Err OutOfFuel
  | S f =>
      '(statement, p) <- ast_parse_statement f p ;;
      match statement with
      | Some s => ast_parse_block_statements f p (statements ++ [s])
      | None => Ok (statements, p)
      end
  end.

(** [PrimaryExpr].  The [break] and [return] tokens are freed as soon as
    they are chomped; every node comes from [ast_create_node] and is
    written through its payload.  In the [continue] case nothing is
    returned: control falls through to the [return] alternative. *)
Definition ast_parse_primary_expr (fuel : nat) (p : Parser) : parsed :=
  '(if_expr, p) <- ast_parse_if_expr p ;;
  match if_expr with
  | Some n => Ok (Some n, p)
  | None =>
  '(break_token, p) <- parser_chomp_if p BREAK ;;
  match break_token with
  | Some _ =>
      _ <- free_token break_token ;;
      '(label, p) <- ast_parse_break_label p ;;
      '(expr, p) <- ast_parse_expr p ;;
      let out := ast_create_node AstNodeKindBreak in
      name <- deref_value label ;;
      _ <- payload out ;;
      Ok (Some (AstBranch AstNodeBranchStatementBreak (Some name) expr), p)
  | None =>
  '(continue_token, p) <- parser_chomp_if p CONTINUE ;;
  '(_, p) <- match continue_token with
             | Some _ =>
                 '(label, p) <- ast_parse_break_label p ;;
                 let out := ast_create_node AstNodeKindContinue in
                 (* name = label == null ? label->value : null *)
                 name <- match label with
                         | None => v <- deref_value label ;; Ok (Some v)
                         | Some _ => Ok None
                         end ;;
                 _ <- payload out ;;
                 Ok (Some (AstBranch AstNodeBranchStatementContinue name None), p)
             | None => Ok (None, p)
             end ;;
  '(return_token, p) <- parser_chomp_if p RETURN ;;
  match return_token with
  | Some _ =>
      _ <- free_token return_token ;;
      '(expr, p) <- ast_parse_expr p ;;
      let out := ast_create_node AstNodeKindReturn in
      _ <- payload out ;;
      Ok (Some (AstReturn expr), p)
  | None =>
      '(block, p) <- ast_parse_block fuel p ;;
      match block with
      | Some b => Ok (Some b, p)
      | None => Ok (None, p)
      end
  end end end.

End Grammar.

(** ** Vocabulary of the statements below *)

(** [l'] is [l] moved forward: same text, same tokens. *)
Definition moved (l l' : Lexer) : Prop :=
  buffer l' = buffer l /\ buffer_capacity l' = buffer_capacity l /\
  tokenList l' = tokenList l /\
  offset l <= offset l'.

(** [t] records the position at which the lexer [l] stands. *)
Definition at_position (l : Lexer) (t : Token) : Prop :=
  tok_offset t = offset l /\ tok_lineno t = lineno l /\ tok_colno t = colno l.

(** [appended l l' ts]: [l'] is [l] moved forward with the tokens [ts]
    appended, each of them recording the position of [l'] and none of them
    of kind [TOK_EOF]. *)
Definition appended (l l' : Lexer) (ts : list Token) : Prop :=
  buffer l' = buffer l /\ buffer_capacity l' = buffer_capacity l /\
  offset l <= offset l' /\
  tokenList l' = tokenList l ++ ts /\
  Forall (fun t => at_position l' t /\ tok_kind t <> TOK_EOF) ts.


(** The parser one token further. *)
Definition parser_next (p : Parser) : Parser :=
  {| toklist := toklist p; curr_tok := S (curr_tok p) |}.

(** The three bytes of the UTF-8 byte-order mark. *)
Definition BOM : list byte := [xef; xbb; xbf].

(** The test that [lexer_lex] makes on the first three bytes. *)
Definition starts_with_bom (buf : list byte) : bool :=
  Byte.eqb (buf_at buf 0) xef && Byte.eqb (buf_at buf 1) xbb
  && Byte.eqb (buf_at buf 2) xbf.

(** By how much a column on the given line grows when the mark is put in
    front of the text: the mark sits on line 1, and [LEXER_RESET_COLNO]
    forgets it at the first newline. *)
Definition col_shift (line : Z) : Z := if line =? 1 then 3 else 0.

(** [t'] is the token [t] of the text without the mark, as it comes out of
    the text with the mark. *)
Definition shifted (t t' : Token) : Prop :=
  tok_kind t' = tok_kind t /\
  tok_value t' = tok_value t /\
  tok_lineno t' = tok_lineno t /\
  tok_offset t' = tok_offset t + 3 /\
  tok_colno t' = tok_colno t + col_shift (tok_lineno t).

(** Two outcomes agree: both are results, related by [RA], or both are the
    same error. *)
Definition res_rel {A : Type} (RA : A -> A -> Prop) (r r' : res A) : Prop :=
  match r, r' with
  | Ok a, Ok a' => RA a a'
  | Err e, Err e' => e = e'
  | _, _ => False
  end.

(** [l'] reads the text of [l] with the mark in front, three bytes
    further on. *)
Definition bom_rel (l l' : Lexer) : Prop :=
  buffer l' = BOM ++ buffer l /\
  buffer_capacity l' = buffer_capacity l + 3 /\
  offset l' = offset l + 3 /\
  lineno l' = lineno l /\
  colno l' = colno l + col_shift (lineno l) /\
  Forall2 shifted (tokenList l) (tokenList l') /\
  0 <= offset l /\ 1 <= lineno l /\ 2 <= buffer_capacity l.

Definition bom_rel_char (a a' : byte * Lexer) : Prop :=
  fst a = fst a' /\ bom_rel (snd a) (snd a').

Definition bom_rel_flow (a a' : Lexer * flow) : Prop :=
  bom_rel (fst a) (fst a') /\ snd a = snd a'.

Definition bom_rel_step (a a' : Lexer * bool) : Prop :=
  bom_rel (fst a) (fst a') /\ snd a = snd a'.


(** ** The functions of lexer.c that [lexer_lex] does not call *)

(** [lexer_peekn]: the character [n] places ahead, NUL when that place is
    at or after the end of the text.  [n] is unsigned in C. *)
Definition lexer_peekn (l : Lexer) (n : Z) : byte :=
  if offset l + n >=? buffer_capacity l then nullchar
  else buf_at (buffer l) (offset l + n).

(** [lexer_prev]: the character before the current one; the argument [n]
    is not used by the body. *)
Definition lexer_prev (l : Lexer) (n : Z) : byte :=
  if offset l =? 0 then nullchar else buf_at (buffer l) (offset l - 1).

(** [lexer_lex_char]: no case of [lexer_lex] calls it. *)
Definition lexer_lex_char (l : Lexer) : Lexer :=
  let (ch, l1) := lexer_advance l in
  if negb (Byte.eqb ch nullchar) then
    let l2 := LEXER_INCREMENT_OFFSET l1 in
    if Byte.eqb ch "010"%byte then LEXER_RESET_COLNO (LEXER_INCREMENT_LINENO l2)
    else l2
  else l1.

(** ** Vocabulary *)

(** The kinds that only the parser names: the keywords, and the character
    and floating-point literals. *)
Definition parser_only_kind (k : TokenKind) : bool :=
  match k with
  | FUNC | EXPORT | MUTABLE | CONST | DEFER | IF | ELSE | INLINE
  | BREAK | CONTINUE | RETURN | MATCH | TOK_TRUE | UNREACHABLE
  | CHAR | FLOAT_LIT => true
  | _ => false
  end.

(** [l'] is [l] further on in the same text and on the same line, with the
    same tokens and messages. *)
Definition advanced (l l' : Lexer) : Prop :=
  buffer l' = buffer l /\ buffer_capacity l' = buffer_capacity l /\
  tokenList l' = tokenList l /\ errors l' = errors l /\
  lineno l' = lineno l /\ offset l <= offset l'.

(** The four characters that the main switch skips. *)
Definition is_blank (c : byte) : bool :=
  match c with
  | " " | "013" | "009" | "010" => true
  | _ => false
  end%byte.

(** Tokens in the order of the text: offsets and lines never go back. *)
Definition not_before (a b : Token) : Prop :=
  tok_offset a <= tok_offset b /\ tok_lineno a <= tok_lineno b.

(** [grown l l' ts]: [l'] is [l] further on, on the same line, with the
    tokens [ts] appended, none of a kind that only the parser names. *)
Definition grown (l l' : Lexer) (ts : list Token) : Prop :=
  lineno l' = lineno l /\ offset l <= offset l' /\
  tokenList l' = tokenList l ++ ts /\
  Forall (fun t => parser_only_kind (tok_kind t) = false) ts.

(** What the loop keeps: the tokens made so far are in order, and none of
    them lies after the place the lexer stands at. *)
Definition in_order (l : Lexer) : Prop :=
  StronglySorted not_before (tokenList l) /\
  Forall (fun t => tok_offset t <= offset l /\ tok_lineno t <= lineno l)
         (tokenList l).


(** The number of newline characters in a text. *)
Definition newlines (b : list byte) : Z :=
  Z.of_nat (List.length (filter (fun c => Byte.eqb c "010"%byte) b)).

(** [n] calls of [lexer_advance], one after the other. *)
Definition lexer_advance_times (n : nat) (l : Lexer) : Lexer :=
  Nat.iter n (fun l => snd (lexer_advance l)) l.

(** ** Vocabulary for syntax trees *)

(** The tree of a first operand and of the operators and right operands
    that follow it, in the order in which they are read: each operator takes
    all that was read before it as its left operand. *)
Definition left_nested (first : AstNode)
    (ops : list (BinaryOpKind * option AstNode)) : AstNode :=
  fold_left (fun lhs op => AstBinaryOpExpr (fst op) (Some lhs) (snd op)) ops first.

(** The operators and the right operands read from [p] on, in order, until
    the operator parser declines. *)
Fixpoint read_operations (fuel : nat) (op_parser child_parser : Parser -> parsed)
    (p : Parser) : res (list (BinaryOpKind * option AstNode) * Parser) :=
  match fuel with
  | O => Err OutOfFuel
  | S f =>
      '(op, p) <- op_parser p ;;
      match op with
      | None => Ok ([], p)
      | Some (AstBinaryOpExpr o _ _) =>
          '(rhs, p) <- child_parser p ;;
          '(ops, p) <- read_operations f op_parser child_parser p ;;
          Ok ((o, rhs) :: ops, p)
      | Some _ => Err CheckFailed
      end
  end.

(** Stand-ins for parsers that are not in parser.c, for token lists written
    by hand: an operand parser that takes one [INTEGER] token, an operator
    parser that takes one [PLUS] token and returns an operator node with its
    payload, a parser of C-style loops that takes nothing and returns a loop
    node, and a parser of [if] expressions that takes nothing and returns a
    node. *)
Definition integer_operand (p : Parser) : parsed :=
  '(tok, p) <- parser_chomp_if p INTEGER ;;
  match tok with
  | Some _ => Ok (Some (AstOther AstNodeKindIntLiteral), p)
  | None => Ok (None, p)
  end.

Definition plus_operator (p : Parser) : parsed :=
  '(tok, p) <- parser_chomp_if p PLUS ;;
  match tok with
  | Some _ => Ok (Some (AstBinaryOpExpr BinaryOpKindAdd None None), p)
  | None => Ok (None, p)
  end.

Definition some_c_loop (p : Parser) : parsed :=
  Ok (Some (AstLoop AstNodeKindLoopCExpr None false), p).

Definition some_if_expr (p : Parser) : parsed :=
  Ok (Some (AstIfExpr None None false None), p).

(** Token lists written by hand. *)
Definition tokens_1_plus_2_plus_3 : list Token :=
  [ token_of INTEGER; token_of PLUS; token_of INTEGER; token_of PLUS;
    token_of INTEGER; token_of TOK_EOF ].

Definition tokens_1_plus : list Token :=
  [ token_of INTEGER; token_of PLUS; token_of TOK_EOF ].


(** ** What tokens and messages are made of *)

(** The kinds whose tokens carry a piece of the text. *)
Definition carries_text (k : TokenKind) : bool :=
  match k with
  | IDENTIFIER | STRING => true
  | _ => false
  end.

(** The value of [t] fits its kind: a piece of text for an identifier or a
    string, and for any other kind nothing but the kind itself. *)
Definition value_fits (t : Token) : bool :=
  match tok_value t with
  | Text _ => carries_text (tok_kind t)
  | Canonical k => TokenKind_beq k (tok_kind t) && negb (carries_text k)
  end.

(** The tokens made so far have fitting values, and the messages written
    so far are about characters without a case label. *)
Definition well_made (l : Lexer) : Prop :=
  Forall (fun t => value_fits t = true) (tokenList l) /\
  Forall (fun d => has_case_label (diag_char d) = false) (errors l).

(** How many characters the number scanner consumes after the first digit,
    given the digits [xs] that follow it: none when there is no further
    digit, and otherwise the digits and the character after them. *)
Definition digits_consumed (xs : list byte) : Z :=
  match xs with
  | [] => 0
  | _ :: _ => Z.of_nat (List.length xs) + 1
  end.
(** ** Facts about the lexer *)

Section LexerFacts.

Lemma moved_refl (l : Lexer) : moved l l.
Proof. unfold moved; repeat split; lia. Qed.

Lemma moved_trans (l1 l2 l3 : Lexer) : moved l1 l2 -> moved l2 l3 -> moved l1 l3.
Proof.
  unfold moved; intros (A1 & A2 & A3 & A5) (B1 & B2 & B3 & B5).
  repeat split; try congruence; lia.
Qed.

Lemma bind_Ok {A B : Type} (m : res A) (k : A -> res B) (b : B) :
  bind m k = Ok b -> exists a, m = Ok a /\ k a = Ok b.
Proof. destruct m as [a|e]; simpl; intros H; [eauto | discriminate]. Qed.

Lemma check_Ok (b : bool) (u : unit) : check b = Ok u -> b = true.
Proof. destruct b; simpl; [reflexivity | discriminate]. Qed.

Lemma lexer_advance_moved (l : Lexer) :
  moved l (snd (lexer_advance l)).
Proof.
  unfold lexer_advance. destruct (offset l >=? buffer_capacity l); simpl.
  - apply moved_refl.
  - unfold moved; simpl; repeat split; lia.
Qed.

(** [lexer_advance] returns a character other than NUL only by consuming it. *)
Lemma lexer_advance_consumes (l : Lexer) :
  fst (lexer_advance l) <> nullchar ->
  offset (snd (lexer_advance l)) = offset l + 1.
Proof.
  unfold lexer_advance. destruct (offset l >=? buffer_capacity l); simpl.
  - intros H; exfalso; apply H; reflexivity.
  - reflexivity.
Qed.

Lemma lexer_advance_remaining (l : Lexer) :
  offset l < buffer_capacity l ->
  S (remaining (snd (lexer_advance l))) = remaining l.
Proof.
  intros H. unfold lexer_advance.
  destruct (offset l >=? buffer_capacity l) eqn:E; [lia|].
  unfold remaining; simpl. lia.
Qed.

Lemma lexer_advance_at_end (l : Lexer) :
  buffer_capacity l <= offset l -> lexer_advance l = (nullchar, l).
Proof.
  intros H. unfold lexer_advance.
  destruct (offset l >=? buffer_capacity l) eqn:E; [reflexivity | lia].
Qed.

Lemma LEXER_INCREMENT_OFFSET_moved (l : Lexer) : moved l (LEXER_INCREMENT_OFFSET l).
Proof. unfold moved; simpl; repeat split; lia. Qed.

(** *** The loops only move the lexer *)

Lemma lexer_lex_sl_comment_loop_moved (fuel : nat) :
  forall ch l l', lexer_lex_sl_comment_loop fuel ch l = Ok l' -> moved l l'.
Proof.
  induction fuel as [|f IH]; simpl; intros ch l l' H; [discriminate|].
  destruct (negb (Byte.eqb ch nullchar) && negb (Byte.eqb ch "010"%byte)).
  - pose proof (lexer_advance_moved l) as M.
    destruct (lexer_advance l) as [ch' l1]; simpl in M.
    eapply moved_trans; eauto.
  - inversion H; subst; apply moved_refl.
Qed.

Lemma lexer_lex_ml_comment_skip_moved (fuel : nat) :
  forall ch l ch' l', lexer_lex_ml_comment_skip fuel ch l = Ok (ch', l') -> moved l l'.
Proof.
  induction fuel as [|f IH]; simpl; intros ch l ch' l' H; [discriminate|].
  destruct (negb (Byte.eqb ch nullchar) && negb (Byte.eqb ch "*"%byte)).
  - pose proof (lexer_advance_moved l) as M.
    destruct (lexer_advance l) as [c1 l1]; simpl in M.
    eapply moved_trans; eauto.
  - inversion H; subst; apply moved_refl.
Qed.

Lemma lexer_lex_ml_comment_loop_moved (fuel : nat) :
  forall ch a l l', lexer_lex_ml_comment_loop fuel ch a l = Ok l' -> moved l l'.
Proof.
  induction fuel as [|f IH]; simpl; intros ch a l l' H; [discriminate|].
  destruct (negb (Byte.eqb ch nullchar) && negb (Byte.eqb ch "/"%byte && a)).
  - apply bind_Ok in H. destruct H as ([ch1 l1] & H1 & H2).
    apply lexer_lex_ml_comment_skip_moved in H1.
    pose proof (lexer_advance_moved l1) as M.
    destruct (lexer_advance l1) as [ch2 l2]; simpl in M.
    apply IH in H2.
    eapply moved_trans; [eassumption|]. eapply moved_trans; eassumption.
  - inversion H; subst; apply moved_refl.
Qed.

Lemma lexer_lex_string_loop_moved (fuel : nat) :
  forall ch l ch' l', lexer_lex_string_loop fuel ch l = Ok (ch', l') -> moved l l'.
Proof.
  induction fuel as [|f IH]; simpl; intros ch l ch' l' H; [discriminate|].
  destruct (negb (Byte.eqb ch "034"%byte)).
  - destruct (Byte.eqb ch "\"%byte).
    + eapply IH; eassumption.
    + pose proof (lexer_advance_moved l) as M.
      destruct (lexer_advance l) as [c1 l1]; simpl in M.
      eapply moved_trans; eauto.
  - inversion H; subst; apply moved_refl.
Qed.

Lemma lexer_lex_identifier_loop_moved (fuel : nat) :
  forall ch l l', lexer_lex_identifier_loop fuel ch l = Ok l' -> moved l l'.
Proof.
  induction fuel as [|f IH]; simpl; intros ch l l' H; [discriminate|].
  destruct (isLetter ch || isDigit ch).
  - pose proof (lexer_advance_moved l) as M.
    destruct (lexer_advance l) as [ch' l1]; simpl in M.
    eapply moved_trans; eauto.
  - inversion H; subst; apply moved_refl.
Qed.

Lemma lexer_lex_digit_loop_moved (fuel : nat) :
  forall ch l l', lexer_lex_digit_loop fuel ch l = Ok l' -> moved l l'.
Proof.
  induction fuel as [|f IH]; simpl; intros ch l l' H; [discriminate|].
  destruct (isDigit ch).
  - pose proof (lexer_advance_moved l) as M.
    destruct (lexer_advance l) as [ch' l1]; simpl in M.
    eapply moved_trans; eauto.
  - inversion H; subst; apply moved_refl.
Qed.

Lemma moved_appended (l l' : Lexer) : moved l l' -> appended l l' [].
Proof.
  intros (A1 & A2 & A3 & A5). unfold appended.
  rewrite app_nil_r. repeat split; auto.
Qed.

Lemma appended_after_moved (l l1 l2 : Lexer) (ts : list Token) :
  moved l l1 -> appended l1 l2 ts -> appended l l2 ts.
Proof.
  intros (A1 & A2 & A3 & A5) (B1 & B2 & B3 & B4 & B5).
  unfold appended. repeat split; try congruence; try lia; auto.
Qed.

Lemma lexer_maketoken_appended (l l' : Lexer) (ts : list Token) (k : TokenKind) :
  appended l l' ts -> k <> TOK_EOF ->
  exists t, tok_kind t = k /\ appended l (lexer_maketoken l' k) (ts ++ [t]).
Proof.
  intros (B1 & B2 & B3 & B4 & B5) Hk.
  exists {| tok_kind := k; tok_offset := offset l'; tok_colno := colno l';
            tok_lineno := lineno l'; tok_value := Canonical k |}.
  split; [reflexivity|]. unfold appended; simpl; repeat split; auto.
  - rewrite B4, app_assoc. reflexivity.
  - apply Forall_app; split; [exact B5|].
    constructor; [|constructor]. unfold at_position; simpl. repeat split; auto.
Qed.

Lemma lexer_lex_identifier_appended (fuel : nat) (l l' : Lexer) :
  lexer_lex_identifier fuel l = Ok l' ->
  exists t, tok_kind t = IDENTIFIER /\ appended l l' [t].
Proof.
  unfold lexer_lex_identifier. intros H.
  pose proof (lexer_advance_moved l) as M.
  destruct (lexer_advance l) as [ch l1]; simpl in M.
  apply bind_Ok in H. destruct H as (l2 & H1 & H).
  apply bind_Ok in H. destruct H as (u & _ & H).
  apply bind_Ok in H. destruct H as (u' & _ & H).
  inversion H; subst; clear H.
  apply lexer_lex_identifier_loop_moved in H1.
  destruct (moved_trans M H1) as (A1 & A2 & A3 & A5).
  eexists; split; cycle 1.
  { unfold appended; simpl. repeat split; auto.
    - rewrite A3; reflexivity.
    - constructor; [|constructor]. unfold at_position; simpl.
      repeat split; auto. discriminate. }
  reflexivity.
Qed.

Lemma lexer_lex_digit_appended (fuel : nat) (l l' : Lexer) :
  lexer_lex_digit fuel l = Ok l' ->
  exists t, tok_kind t = INTEGER /\ appended l l' [t].
Proof.
  unfold lexer_lex_digit. intros H.
  apply bind_Ok in H. destruct H as (l1 & H1 & H).
  inversion H; subst; clear H.
  apply lexer_lex_digit_loop_moved in H1.
  destruct (lexer_maketoken_appended (k := INTEGER) (moved_appended H1))
    as (t & Ht & Ha); [discriminate|].
  exists t; split; assumption.
Qed.

Lemma lexer_lex_string_appended (fuel : nat) (l l' : Lexer) :
  lexer_lex_string fuel l = Ok l' ->
  exists t, tok_kind t = STRING /\ appended l l' [t].
Proof.
  unfold lexer_lex_string. intros H.
  apply bind_Ok in H. destruct H as (u0 & _ & H).
  pose proof (lexer_advance_moved l) as M.
  destruct (lexer_advance l) as [ch l1]; simpl in M.
  apply bind_Ok in H. destruct H as ([ch' l2] & H1 & H).
  apply bind_Ok in H. destruct H as (u1 & _ & H).
  apply bind_Ok in H. destruct H as (u2 & _ & H).
  inversion H; subst; clear H.
  apply lexer_lex_string_loop_moved in H1.
  destruct (moved_trans M H1) as (A1 & A2 & A3 & A5).
  eexists; split; cycle 1.
  { unfold appended; simpl. repeat split; auto.
    - rewrite A3; reflexivity.
    - constructor; [|constructor]. unfold at_position; simpl.
      repeat split; auto. discriminate. }
  reflexivity.
Qed.

Lemma lexer_lex_sl_comment_moved (fuel : nat) (l l' : Lexer) :
  lexer_lex_sl_comment fuel l = Ok l' -> moved l l'.
Proof.
  unfold lexer_lex_sl_comment. intros H.
  pose proof (lexer_advance_moved l) as M.
  destruct (lexer_advance l) as [ch l1]; simpl in M.
  apply lexer_lex_sl_comment_loop_moved in H. eapply moved_trans; eassumption.
Qed.

Lemma lexer_lex_ml_comment_moved (fuel : nat) (l l' : Lexer) :
  lexer_lex_ml_comment fuel l = Ok l' -> moved l l'.
Proof.
  unfold lexer_lex_ml_comment. intros H.
  pose proof (lexer_advance_moved l) as M.
  destruct (lexer_advance l) as [ch l1]; simpl in M.
  apply bind_Ok in H. destruct H as (l2 & H1 & H).
  inversion H; subst; clear H.
  apply lexer_lex_ml_comment_loop_moved in H1.
  eapply moved_trans; [eassumption|].
  eapply moved_trans; [eassumption|]. apply lexer_advance_moved.
Qed.

(** *** One case of the switch, one pass of the loop *)

Ltac solve_appended :=
  unfold appended, at_position; simpl; repeat split;
  first [ lia | reflexivity | symmetry; apply app_nil_r
        | repeat constructor; simpl; (reflexivity || discriminate) ].

Ltac switch_leaf H :=
  inversion H; subst; clear H;
  eexists; split; [ solve_appended | intros k E; inversion E; discriminate ].

Ltac switch_scan H lem :=
  apply bind_Ok in H;
  let l1 := fresh "l" in
  let H1 := fresh "H" in
  destruct H as (l1 & H1 & H);
  inversion H; subst; clear H;
  apply lem in H1;
  first [ destruct H1 as (? & _ & H1); eexists; split; [ exact H1 | discriminate ]
        | exists []; split; [ apply moved_appended; exact H1 | discriminate ] ].

Lemma lexer_lex_switch_appended (fuel : nat) (curr next : byte) (l l' : Lexer)
    (fl : flow) :
  lexer_lex_switch fuel curr next l = Ok (l', fl) ->
  exists ts, appended l l' ts /\
             (forall k, fl = SwitchBreak (Some k) -> k <> TOK_EOF).
Proof.
  intros H. unfold lexer_lex_switch in H.
  destruct curr;
    repeat match type of H with
           | (if ?b then _ else _) = _ => destruct b
           | _ => progress cbv zeta in H
           end;
    first [ switch_leaf H
          | switch_scan H lexer_lex_identifier_appended
          | switch_scan H lexer_lex_digit_appended
          | switch_scan H lexer_lex_string_appended
          | switch_scan H lexer_lex_sl_comment_moved
          | switch_scan H lexer_lex_ml_comment_moved ].
Qed.

(** A pass that ends at [lex_eof] appends nothing. *)
Lemma lexer_lex_step_eof (fuel : nat) (l l' : Lexer) :
  lexer_lex_step fuel l = Ok (l', true) -> tokenList l' = tokenList l.
Proof.
  unfold lexer_lex_step. intros H.
  pose proof (lexer_advance_moved l) as M.
  destruct (lexer_advance l) as [curr l1]; simpl in M.
  apply bind_Ok in H. destruct H as ([l2 fl] & H1 & H).
  destruct fl as [|[k|]]; inversion H; subst; clear H.
  unfold lexer_lex_switch in H1.
  destruct M as (_ & _ & M & _).
  destruct curr;
    repeat match type of H1 with
           | (if ?b then _ else _) = _ => destruct b
           | _ => progress cbv zeta in H1
           end;
    first [ inversion H1; subst; exact M
          | apply bind_Ok in H1; destruct H1 as (? & _ & H1); discriminate ].
Qed.

(** A pass that goes round the loop again has consumed at least one
    character, and every token it appends records the position reached at
    the end of the pass. *)
Lemma lexer_lex_step_appended (fuel : nat) (l l' : Lexer) :
  lexer_lex_step fuel l = Ok (l', false) ->
  exists ts, appended l l' ts /\ offset l < offset l'.
Proof.
  unfold lexer_lex_step. intros H.
  pose proof (lexer_advance_moved l) as M.
  pose proof (lexer_advance_consumes l) as C.
  destruct (lexer_advance l) as [curr l1]; simpl in M, C.
  apply bind_Ok in H. destruct H as ([l2 fl] & H1 & H).
  assert (Hcurr : curr <> nullchar).
  { intros ->. simpl in H1. inversion H1; subst. discriminate. }
  specialize (C Hcurr).
  apply lexer_lex_switch_appended in H1. destruct H1 as (ts & A & K).
  pose proof (appended_after_moved M A) as A'.
  assert (Hlt : offset l < offset l2).
  { destruct A as (_ & _ & A & _). lia. }
  destruct fl as [|[k|]]; inversion H; subst; clear H.
  - destruct (lexer_maketoken_appended (k := k) A') as (t & _ & At).
    + apply K; reflexivity.
    + exists (ts ++ [t]); split; [exact At | exact Hlt].
  - exists ts; split; assumption.
Qed.

Lemma lexer_lex_loop_appended (fuel : nat) :
  forall l l', lexer_lex_loop fuel l = Ok l' ->
  exists ts, tokenList l' = tokenList l ++ ts /\
             Forall (fun t => tok_kind t <> TOK_EOF) ts.
Proof.
  induction fuel as [|f IH]; simpl; intros l l' H; [discriminate|].
  apply bind_Ok in H. destruct H as ([l1 at_eof] & H1 & H).
  destruct at_eof.
  - inversion H; subst; clear H. apply lexer_lex_step_eof in H1.
    exists []; split; [rewrite app_nil_r; exact H1 | constructor].
  - apply lexer_lex_step_appended in H1.
    destruct H1 as (ts1 & (_ & _ & _ & T1 & F1) & _).
    apply IH in H. destruct H as (ts2 & T2 & F2).
    exists (ts1 ++ ts2); split.
    + rewrite T2, T1, app_assoc. reflexivity.
    + apply Forall_app; split; [|exact F2].
      eapply Forall_impl; [|exact F1]. intros t (_ & Ht); exact Ht.
Qed.

Lemma lexer_advancen_tokenList (l : Lexer) (n : Z) :
  tokenList (snd (lexer_advancen l n)) = tokenList l.
Proof.
  unfold lexer_advancen. destruct (offset l + n >=? buffer_capacity l); reflexivity.
Qed.

(** *** Enough fuel for the identifier scanner *)

Lemma lexer_lex_identifier_loop_returns (fuel : nat) :
  forall ch l, (remaining l + 2 <= fuel)%nat ->
  exists l', lexer_lex_identifier_loop fuel ch l = Ok l'.
Proof.
  induction fuel as [|f IH]; intros ch l Hf; [lia|]. simpl.
  destruct (isLetter ch || isDigit ch); [|eauto].
  destruct (Z_lt_le_dec (offset l) (buffer_capacity l)) as [Hlt|Hge].
  - pose proof (lexer_advance_remaining l Hlt) as R.
    destruct (lexer_advance l) as [ch' l1]; simpl in R.
    apply IH. lia.
  - rewrite (lexer_advance_at_end l Hge).
    destruct f as [|f']; [lia|]. simpl. eauto.
Qed.

Lemma lexer_advance_remaining_le (l : Lexer) :
  (remaining (snd (lexer_advance l)) <= remaining l)%nat.
Proof.
  unfold lexer_advance, remaining.
  destruct (offset l >=? buffer_capacity l); simpl; lia.
Qed.


(** *** The string scanner stays in its loop *)

Lemma lexer_lex_string_loop_backslash (fuel : nat) :
  forall l, lexer_lex_string_loop fuel "\"%byte l = Err OutOfFuel.
Proof.
  induction fuel as [|f IH]; intros l; simpl; [reflexivity|]. apply IH.
Qed.

Lemma lexer_lex_string_loop_at_end (fuel : nat) :
  forall l, buffer_capacity l <= offset l ->
  lexer_lex_string_loop fuel nullchar l = Err OutOfFuel.
Proof.
  induction fuel as [|f IH]; intros l H; simpl; [reflexivity|].
  rewrite (lexer_advance_at_end l H). apply IH; exact H.
Qed.

End LexerFacts.

(** ** The claims about the lexer *)

(** C1 (amended).  When [lex] returns, the token list ends with one token
    of kind [TOK_EOF] and no token before it has that kind: exactly one
    end-of-file token, and nothing after it.  Tokens of kind [TOK_ILLEGAL]
    are not excluded: the [default:] case appends one for every character
    without a case label. *)
Theorem C1_lex_ends_with_single_EOF (fuel : nat) (buf : list byte)
    (toks : list Token) :
  lex fuel buf = Ok toks ->
  exists pre eof,
    toks = pre ++ [eof] /\ tok_kind eof = TOK_EOF /\
    Forall (fun t => tok_kind t <> TOK_EOF) pre.
Proof.
  unfold lex, lexer_lex. intros H.
  apply bind_Ok in H. destruct H as (l & H & E). inversion E; subst; clear E.
  apply bind_Ok in H. destruct H as (l' & H & E). inversion E; subst; clear E.
  apply lexer_lex_loop_appended in H. destruct H as (ts & T & F).
  assert (T0 : tokenList l' = ts).
  { rewrite T. destruct (_ && _); [rewrite lexer_advancen_tokenList|]; reflexivity. }
  simpl. rewrite T0.
  eexists; eexists; split; [reflexivity|]. split; [reflexivity | exact F].
Qed.

(** C1, on the text [;]. *)
Lemma C1_lex_ends_with_single_EOF_witness :
  exists pre eof,
    tokens_semicolon = pre ++ [eof] /\ tok_kind eof = TOK_EOF /\
    Forall (fun t => tok_kind t <> TOK_EOF) pre.
Proof.
  apply (@C1_lex_ends_with_single_EOF 10 (list_byte_of_string ";") tokens_semicolon).
  vm_compute. reflexivity.
Defined.

(** C1 as stated fails: [lex] returns on the one-character text [$], and the
    list it returns holds a token of kind [TOK_ILLEGAL]. *)
Lemma C1_illegal_token_in_returned_list :
  exists toks,
    lex 10 (list_byte_of_string "$") = Ok toks /\
    kinds toks = [TOK_ILLEGAL; TOK_EOF].
Proof. eexists. split; vm_compute; reflexivity. Qed.

(** C2 (amended).  When the character read by a pass of the main loop has
    no case label, the pass writes the message with the line and column the
    lexer stands at, appends a token of kind [TOK_ILLEGAL] at that
    position, and goes round the loop again: the character does not stop
    the lexer, and lexing continues with the rest of the text.  Whenever
    the loop then returns, the token list it returns holds the tokens made
    before, then the [TOK_ILLEGAL] token, then the tokens made after.
    (Whether it returns depends on the rest of the text: a string that is
    never closed keeps the lexer in [lexer_lex_string].) *)
Theorem C2_invalid_character_reported_and_lexing_goes_on (fuel : nat) (l : Lexer) :
  has_case_label (fst (lexer_advance l)) = false ->
  lexer_lex_step fuel l =
    Ok (lexer_maketoken
          (lexer_report_invalid (snd (lexer_advance l)) (fst (lexer_advance l)))
          TOK_ILLEGAL, false) /\
  lexer_lex_loop (S fuel) l =
    lexer_lex_loop fuel
      (lexer_maketoken
         (lexer_report_invalid (snd (lexer_advance l)) (fst (lexer_advance l)))
         TOK_ILLEGAL) /\
  (forall l', lexer_lex_loop (S fuel) l = Ok l' ->
     exists ts,
       tokenList l' =
         tokenList l
         ++ [ mkToken TOK_ILLEGAL (offset (snd (lexer_advance l)))
                (colno (snd (lexer_advance l))) (lineno (snd (lexer_advance l)))
                (Canonical TOK_ILLEGAL) ]
         ++ ts).
Proof.
  intros H.
  assert (E : lexer_lex_step fuel l =
    Ok (lexer_maketoken
          (lexer_report_invalid (snd (lexer_advance l)) (fst (lexer_advance l)))
          TOK_ILLEGAL, false)).
  { unfold lexer_lex_step.
    destruct (lexer_advance l) as [curr l1]; simpl in *.
    destruct curr; try discriminate H; reflexivity. }
  assert (L : lexer_lex_loop (S fuel) l =
    lexer_lex_loop fuel
      (lexer_maketoken
         (lexer_report_invalid (snd (lexer_advance l)) (fst (lexer_advance l)))
         TOK_ILLEGAL)).
  { simpl. rewrite E. reflexivity. }
  split; [exact E|]. split; [exact L|].
  intros l' R. rewrite L in R.
  apply lexer_lex_loop_appended in R. destruct R as (ts & T & _).
  exists ts. rewrite T. simpl.
  destruct (lexer_advance_moved l) as (_ & _ & M & _). rewrite M.
  rewrite <- app_assoc. reflexivity.
Qed.

(** C2 as stated fails: after the unknown character [$] the lexer goes on,
    makes the token of the semicolon that follows, and returns the whole
    list to its caller. *)
Lemma C2_tokens_after_invalid_character :
  exists toks,
    lex 10 (list_byte_of_string "$;") = Ok toks /\
    kinds toks = [TOK_ILLEGAL; SEMICOLON; TOK_EOF].
Proof. eexists. split; vm_compute; reflexivity. Qed.

(** The digit zero and the single quote are among the characters without a
    case label ([DIGIT_NON_ZERO] leaves the zero out, and no case scans a
    character literal). *)
Example zero_and_single_quote_have_no_case :
  has_case_label "0"%byte = false /\ has_case_label "'"%byte = false /\
  kinds_of_lex (lex 10 (list_byte_of_string "0'")) =
    Some [TOK_ILLEGAL; TOK_ILLEGAL; TOK_EOF].
Proof. repeat split; vm_compute; reflexivity. Qed.

(** C2, on the first pass over the text [$;]. *)
Lemma C2_invalid_character_witness :
  lexer_lex_step 5 (lexer_init (list_byte_of_string "$;")) =
    Ok (lexer_maketoken
          (lexer_report_invalid
             (snd (lexer_advance (lexer_init (list_byte_of_string "$;"))))
             (fst (lexer_advance (lexer_init (list_byte_of_string "$;")))))
          TOK_ILLEGAL, false) /\
  lexer_lex_loop 6 (lexer_init (list_byte_of_string "$;")) =
    lexer_lex_loop 5
      (lexer_maketoken
         (lexer_report_invalid
            (snd (lexer_advance (lexer_init (list_byte_of_string "$;"))))
            (fst (lexer_advance (lexer_init (list_byte_of_string "$;")))))
         TOK_ILLEGAL) /\
  (forall l', lexer_lex_loop 6 (lexer_init (list_byte_of_string "$;")) = Ok l' ->
     exists ts,
       tokenList l' =
         tokenList (lexer_init (list_byte_of_string "$;"))
         ++ [ mkToken TOK_ILLEGAL
                (offset (snd (lexer_advance (lexer_init (list_byte_of_string "$;")))))
                (colno (snd (lexer_advance (lexer_init (list_byte_of_string "$;")))))
                (lineno (snd (lexer_advance (lexer_init (list_byte_of_string "$;")))))
                (Canonical TOK_ILLEGAL) ]
         ++ ts).
Proof.
  apply (@C2_invalid_character_reported_and_lexing_goes_on 5
           (lexer_init (list_byte_of_string "$;"))).
  vm_compute. reflexivity.
Defined.




(** C5 (amended).  Every token appended by a pass of the main loop records
    the offset, line and column at which the lexer stands when the pass
    ends, after the characters of the token are consumed; its offset is
    strictly greater than the offset at which the pass, and with it the
    lexeme, started. *)
Theorem C5_token_records_position_after_lexeme (fuel : nat) (l l' : Lexer) :
  lexer_lex_step fuel l = Ok (l', false) ->
  exists ts,
    tokenList l' = tokenList l ++ ts /\
    Forall (fun t => at_position l' t /\ offset l < tok_offset t) ts.
Proof.
  intros H. apply lexer_lex_step_appended in H.
  destruct H as (ts & (_ & _ & _ & T & F) & Hlt).
  exists ts; split; [exact T|].
  eapply Forall_impl; [|exact F].
  intros t ((O & L & C) & _). split; [repeat split; assumption | lia].
Qed.

(** C5, on the first pass over the text [;]. *)
Lemma C5_token_records_position_witness :
  exists ts,
    tokenList (lexer_maketoken (snd (lexer_advance (lexer_init (list_byte_of_string ";"))))
                 SEMICOLON)
      = tokenList (lexer_init (list_byte_of_string ";")) ++ ts /\
    Forall (fun t =>
              at_position
                (lexer_maketoken
                   (snd (lexer_advance (lexer_init (list_byte_of_string ";"))))
                   SEMICOLON) t /\
              offset (lexer_init (list_byte_of_string ";")) < tok_offset t) ts.
Proof.
  apply (@C5_token_records_position_after_lexeme 5
           (lexer_init (list_byte_of_string ";"))).
  vm_compute. reflexivity.
Defined.

(** C5 as stated fails: the semicolon of the text [;] is the character at
    offset 0, line 1, column 1 (where [lexer_init] starts), and its token
    records offset 1 and column 2. *)
Lemma C5_semicolon_token_records_offset_1 :
  lex 10 (list_byte_of_string ";") = Ok tokens_semicolon /\
  offset (lexer_init (list_byte_of_string ";")) = 0 /\
  colno (lexer_init (list_byte_of_string ";")) = 1 /\
  map tok_offset tokens_semicolon = [1; 1] /\
  map tok_colno tokens_semicolon = [2; 2].
Proof. repeat split; vm_compute; reflexivity. Qed.

(** The string scanner entered just after the opening quote of the text
    made of a quote and [abc]: the loop reads [a], [b], [c] and then the end
    of the text, again and again. *)
Lemma lexer_lex_string_unterminated (fuel : nat) (toks : list Token)
    (line col : Z) (errs : list Diagnostic) :
  lexer_lex_string fuel
    {| buffer := ("034" :: list_byte_of_string "abc")%byte; buffer_capacity := 4;
       offset := 1; tokenList := toks; lineno := line; colno := col;
       errors := errs |} = Err OutOfFuel.
Proof.
  unfold lexer_lex_string; simpl.
  do 3 (destruct fuel as [|fuel]; [reflexivity|]; simpl).
  rewrite lexer_lex_string_loop_at_end by (simpl; lia).
  reflexivity.
Qed.

(** The same on the text made of a quote, [a], a backslash, [q] and a
    quote: the loop reads [a], then the backslash, and stays on it. *)
Lemma lexer_lex_string_backslash (fuel : nat) (toks : list Token)
    (line col : Z) (errs : list Diagnostic) :
  lexer_lex_string fuel
    {| buffer := ["034"; "a"; "\"; "q"; "034"]%byte; buffer_capacity := 5;
       offset := 1; tokenList := toks; lineno := line; colno := col;
       errors := errs |} = Err OutOfFuel.
Proof.
  unfold lexer_lex_string; simpl.
  destruct fuel as [|fuel]; [reflexivity|]; simpl.
  rewrite lexer_lex_string_loop_backslash.
  reflexivity.
Qed.

(** C6 (the code does not do what the claim says).  On a string literal
    that the text ends before closing, and on a string literal that holds a
    backslash, [lex] has not returned however much fuel it is given: the
    loop of [lexer_lex_string] neither tests for the end of the text nor
    moves past a backslash, so it runs for ever and no diagnostic is made.
    The two texts are the quote followed by [abc], and the quote followed by
    [a], a backslash, [q] and a closing quote. *)
Theorem C6_string_scanner_never_returns (fuel : nat) :
  lex fuel ("034" :: list_byte_of_string "abc")%byte = Err OutOfFuel /\
  lex fuel ["034"; "a"; "\"; "q"; "034"]%byte = Err OutOfFuel.
Proof.
  split.
  - destruct fuel as [|f]; [reflexivity|].
    unfold lex, lexer_lex, lexer_init; simpl.
    unfold lexer_lex_step; simpl.
    unfold set_position, LEXER_INCREMENT_COLNO; simpl.
    rewrite lexer_lex_string_unterminated. reflexivity.
  - destruct fuel as [|f]; [reflexivity|].
    unfold lex, lexer_lex, lexer_init; simpl.
    unfold lexer_lex_step; simpl.
    unfold set_position, LEXER_INCREMENT_COLNO; simpl.
    rewrite lexer_lex_string_backslash. reflexivity.
Qed.

(** ** A byte-order mark in front of the text *)

Section ByteOrderMark.

Lemma res_rel_bind {A B : Type} (RA : A -> A -> Prop) (RB : B -> B -> Prop)
    (m m' : res A) (k k' : A -> res B) :
  res_rel RA m m' ->
  (forall a a', RA a a' -> res_rel RB (k a) (k' a')) ->
  res_rel RB (bind m k) (bind m' k').
Proof.
  destruct m as [a|e], m' as [a'|e']; simpl; intros H K; try contradiction.
  - apply K; exact H.
  - exact H.
Qed.

Lemma buf_at_shift (b : list byte) (i : Z) :
  0 <= i -> buf_at (xef :: xbb :: xbf :: b) (i + 3) = buf_at b i.
Proof.
  intros H. unfold buf_at.
  destruct (i + 3 <? 0) eqn:E1; [lia|].
  destruct (i <? 0) eqn:E2; [lia|].
  replace (Z.to_nat (i + 3)) with (S (S (S (Z.to_nat i)))) by lia.
  reflexivity.
Qed.

Lemma substr_shift (b : list byte) (m n : Z) :
  0 <= m -> substr (xef :: xbb :: xbf :: b) (m + 3) n = substr b m n.
Proof.
  intros H. unfold substr. apply map_ext. intros i.
  replace (m + 3 + Z.of_nat i) with (m + Z.of_nat i + 3) by lia.
  apply buf_at_shift. lia.
Qed.

Lemma col_shift_next_line (line : Z) : 1 <= line -> col_shift (line + 1) = 0.
Proof. intros H. unfold col_shift. destruct (line + 1 =? 1) eqn:E; [lia | reflexivity]. Qed.

Ltac bom_split :=
  unfold bom_rel in *; simpl in *;
  repeat match goal with H : _ /\ _ |- _ => destruct H end.

Lemma lexer_peek_bom (l l' : Lexer) : bom_rel l l' -> lexer_peek l' = lexer_peek l.
Proof.
  intros H. unfold lexer_peek. bom_split.
  repeat match goal with H : _ = _ |- _ => rewrite H end.
  apply buf_at_shift; assumption.
Qed.

Lemma lexer_advance_bom (l l' : Lexer) :
  bom_rel l l' -> bom_rel_char (lexer_advance l) (lexer_advance l').
Proof.
  intros H. pose proof (lexer_peek_bom H) as P. unfold lexer_peek in P.
  unfold lexer_advance, bom_rel_char.
  assert (E : (offset l' >=? buffer_capacity l') = (offset l >=? buffer_capacity l)).
  { bom_split. destruct (offset l >=? buffer_capacity l) eqn:E1;
      destruct (offset l' >=? buffer_capacity l') eqn:E2; (reflexivity || lia). }
  rewrite E. destruct (offset l >=? buffer_capacity l); simpl.
  - split; [reflexivity | exact H].
  - split; [symmetry; exact P|]. bom_split. repeat split; auto; lia.
Qed.

Lemma LEXER_INCREMENT_OFFSET_bom (l l' : Lexer) :
  bom_rel l l' -> bom_rel (LEXER_INCREMENT_OFFSET l) (LEXER_INCREMENT_OFFSET l').
Proof. intros H. bom_split. repeat split; auto; lia. Qed.

Lemma newline_bom (l l' : Lexer) :
  bom_rel l l' ->
  bom_rel (LEXER_RESET_COLNO (LEXER_INCREMENT_LINENO l))
          (LEXER_RESET_COLNO (LEXER_INCREMENT_LINENO l')).
Proof.
  intros H. bom_split. repeat split; auto; try lia.
  rewrite col_shift_next_line by assumption. lia.
Qed.

Lemma lexer_report_invalid_bom (l l' : Lexer) (c : byte) :
  bom_rel l l' -> bom_rel (lexer_report_invalid l c) (lexer_report_invalid l' c).
Proof. intros H. bom_split. repeat split; auto. Qed.

Lemma lexer_tokenlist_append_bom (l l' : Lexer) (t t' : Token) :
  bom_rel l l' -> shifted t t' ->
  bom_rel (lexer_tokenlist_append l t) (lexer_tokenlist_append l' t').
Proof.
  intros H S. bom_split. repeat split; auto.
  apply Forall2_app; [assumption|]. constructor; [exact S | constructor].
Qed.

Lemma lexer_maketoken_bom (l l' : Lexer) (k : TokenKind) :
  bom_rel l l' -> bom_rel (lexer_maketoken l k) (lexer_maketoken l' k).
Proof.
  intros H. apply lexer_tokenlist_append_bom; [exact H|].
  unfold shifted; simpl. bom_split. repeat split; auto.
Qed.

Lemma lexer_makestrtoken_bom (l l' : Lexer) (v : list byte) :
  bom_rel l l' -> bom_rel (lexer_makestrtoken l v) (lexer_makestrtoken l' v).
Proof.
  intros H. apply lexer_tokenlist_append_bom; [exact H|].
  unfold shifted; simpl. bom_split. repeat split; auto.
Qed.

Lemma lexer_makeidenttoken_bom (l l' : Lexer) (v : list byte) :
  bom_rel l l' -> bom_rel (lexer_makeidenttoken l v) (lexer_makeidenttoken l' v).
Proof.
  intros H. apply lexer_tokenlist_append_bom; [exact H|].
  unfold shifted; simpl. bom_split. repeat split; auto.
Qed.

(** *** The loops run alike on both texts *)

Ltac advance_both H :=
  let A := fresh "A" in
  let M := fresh "M" in
  let c := fresh "c" in let l1 := fresh "l" in
  let c' := fresh "c" in let l1' := fresh "l" in
  match type of H with
  | bom_rel ?l0 ?l0' =>
      pose proof (lexer_advance_bom H) as A;
      unfold bom_rel_char in A;
      pose proof (lexer_advance_moved l0) as M;
      destruct (lexer_advance l0) as [c l1] in *;
      destruct (lexer_advance l0') as [c' l1'] in *;
      simpl in A, M; destruct A as [? A]; subst c'
  end.

Lemma lexer_lex_sl_comment_loop_bom (fuel : nat) :
  forall ch l l', bom_rel l l' ->
  res_rel bom_rel (lexer_lex_sl_comment_loop fuel ch l)
                  (lexer_lex_sl_comment_loop fuel ch l').
Proof.
  induction fuel as [|f IH]; intros ch l l' H; simpl; [reflexivity|].
  destruct (negb (Byte.eqb ch nullchar) && negb (Byte.eqb ch "010"%byte));
    [|exact H].
  advance_both H. apply IH; exact A.
Qed.

Lemma lexer_lex_ml_comment_skip_bom (fuel : nat) :
  forall ch l l', bom_rel l l' ->
  res_rel bom_rel_char (lexer_lex_ml_comment_skip fuel ch l)
                       (lexer_lex_ml_comment_skip fuel ch l').
Proof.
  induction fuel as [|f IH]; intros ch l l' H; simpl; [reflexivity|].
  destruct (negb (Byte.eqb ch nullchar) && negb (Byte.eqb ch "*"%byte));
    [|split; [reflexivity | exact H]].
  advance_both H. apply IH; exact A.
Qed.

Lemma lexer_lex_ml_comment_loop_bom (fuel : nat) :
  forall ch a l l', bom_rel l l' ->
  res_rel bom_rel (lexer_lex_ml_comment_loop fuel ch a l)
                  (lexer_lex_ml_comment_loop fuel ch a l').
Proof.
  induction fuel as [|f IH]; intros ch a l l' H; simpl; [reflexivity|].
  destruct (negb (Byte.eqb ch nullchar) && negb (Byte.eqb ch "/"%byte && a));
    [|exact H].
  eapply res_rel_bind; [apply lexer_lex_ml_comment_skip_bom; exact H|].
  intros [ch1 l1] [ch1' l1'] [E R]; simpl in E, R; subst ch1'.
  advance_both R. apply IH; exact A.
Qed.

Lemma lexer_lex_string_loop_bom (fuel : nat) :
  forall ch l l', bom_rel l l' ->
  res_rel bom_rel_char (lexer_lex_string_loop fuel ch l)
                       (lexer_lex_string_loop fuel ch l').
Proof.
  induction fuel as [|f IH]; intros ch l l' H; simpl; [reflexivity|].
  destruct (negb (Byte.eqb ch "034"%byte)); [|split; [reflexivity | exact H]].
  destruct (Byte.eqb ch "\"%byte).
  - apply IH; exact H.
  - advance_both H. apply IH; exact A.
Qed.

Lemma lexer_lex_identifier_loop_bom (fuel : nat) :
  forall ch l l', bom_rel l l' ->
  res_rel bom_rel (lexer_lex_identifier_loop fuel ch l)
                  (lexer_lex_identifier_loop fuel ch l').
Proof.
  induction fuel as [|f IH]; intros ch l l' H; simpl; [reflexivity|].
  destruct (isLetter ch || isDigit ch); [|exact H].
  advance_both H. apply IH; exact A.
Qed.

Lemma lexer_lex_digit_loop_bom (fuel : nat) :
  forall ch l l', bom_rel l l' ->
  res_rel bom_rel (lexer_lex_digit_loop fuel ch l)
                  (lexer_lex_digit_loop fuel ch l').
Proof.
  induction fuel as [|f IH]; intros ch l l' H; simpl; [reflexivity|].
  destruct (isDigit ch); [|exact H].
  advance_both H. apply IH; exact A.
Qed.

(** *** The scanners run alike on both texts *)

Lemma lexer_lex_sl_comment_bom (fuel : nat) (l l' : Lexer) :
  bom_rel l l' ->
  res_rel bom_rel (lexer_lex_sl_comment fuel l) (lexer_lex_sl_comment fuel l').
Proof.
  intros H. unfold lexer_lex_sl_comment. advance_both H.
  apply lexer_lex_sl_comment_loop_bom; exact A.
Qed.

Lemma lexer_lex_ml_comment_bom (fuel : nat) (l l' : Lexer) :
  bom_rel l l' ->
  res_rel bom_rel (lexer_lex_ml_comment fuel l) (lexer_lex_ml_comment fuel l').
Proof.
  intros H. unfold lexer_lex_ml_comment. advance_both H.
  eapply res_rel_bind; [apply lexer_lex_ml_comment_loop_bom; exact A|].
  intros l2 l2' R. simpl. apply (lexer_advance_bom R).
Qed.

Lemma lexer_lex_digit_bom (fuel : nat) (l l' : Lexer) :
  bom_rel l l' ->
  res_rel bom_rel (lexer_lex_digit fuel l) (lexer_lex_digit fuel l').
Proof.
  intros H. unfold lexer_lex_digit, LEXER_CURR_CHAR.
  pose proof (lexer_peek_bom H) as P. unfold lexer_peek in P. rewrite P.
  eapply res_rel_bind; [apply lexer_lex_digit_loop_bom; exact H|].
  intros l1 l1' R. simpl. apply lexer_maketoken_bom; exact R.
Qed.

(** The slice of a string starts at the first character after the quote;
    with one character consumed before the scanner is entered, that is
    inside the text. *)
Lemma lexer_lex_string_bom (fuel : nat) (l l' : Lexer) :
  bom_rel l l' -> 1 <= offset l ->
  res_rel bom_rel (lexer_lex_string fuel l) (lexer_lex_string fuel l').
Proof.
  intros H O. unfold lexer_lex_string, LEXER_CURR_CHAR.
  pose proof (lexer_peek_bom H) as P. unfold lexer_peek in P. rewrite P.
  destruct (check _); simpl; [|reflexivity].
  advance_both H. destruct M as (_ & _ & _ & M).
  eapply res_rel_bind; [apply lexer_lex_string_loop_bom; exact A|].
  intros [ch2 l2] [ch2' l2'] [E R]; simpl in E, R; subst ch2'.
  destruct (check (Byte.eqb ch2 "034"%byte)); simpl; [|reflexivity].
  assert (O1 : offset l1 = offset l0 + 3) by (bom_split; assumption).
  assert (O2 : offset l2' = offset l2 + 3) by (bom_split; assumption).
  assert (B2 : buffer l2' = BOM ++ buffer l2) by (bom_split; assumption).
  rewrite O1, O2, B2.
  replace (offset l2 + 3 - (offset l0 + 3 - 1)) with (offset l2 - (offset l0 - 1)) by lia.
  destruct (check _); simpl; [|reflexivity].
  replace (offset l0 + 3 - 1) with (offset l0 - 1 + 3) by lia.
  rewrite substr_shift by lia.
  apply lexer_makestrtoken_bom; exact R.
Qed.

(** The slice of an identifier starts one byte before the place the first
    [lexer_advance] of the scanner leaves; with one character consumed
    before the scanner is entered and a text of two bytes or more, that is
    inside the text. *)
Lemma lexer_lex_identifier_bom (fuel : nat) (l l' : Lexer) :
  bom_rel l l' -> 1 <= offset l ->
  res_rel bom_rel (lexer_lex_identifier fuel l) (lexer_lex_identifier fuel l').
Proof.
  intros H O. unfold lexer_lex_identifier.
  assert (O0 : 2 <= offset (snd (lexer_advance l))).
  { unfold lexer_advance. destruct (offset l >=? buffer_capacity l) eqn:E; simpl.
    - bom_split. lia.
    - lia. }
  advance_both H. simpl in O0.
  eapply res_rel_bind; [apply lexer_lex_identifier_loop_bom; exact A|].
  intros l2 l2' R.
  assert (O1 : offset l1 = offset l0 + 3) by (bom_split; assumption).
  assert (O2 : offset l2' = offset l2 + 3) by (bom_split; assumption).
  assert (B2 : buffer l2' = BOM ++ buffer l2) by (bom_split; assumption).
  rewrite O1, O2, B2.
  replace (offset l2 + 3 - (offset l0 + 3 - 1)) with (offset l2 - (offset l0 - 1)) by lia.
  destruct (check _); simpl; [|reflexivity].
  unfold inside_buffer.
  destruct (offset l0 - 1 - 1 <? 0) eqn:N1; [apply Z.ltb_lt in N1; lia|].
  destruct (offset l0 + 3 - 1 - 1 <? 0) eqn:N2; [apply Z.ltb_lt in N2; lia|].
  simpl.
  replace (offset l0 + 3 - 1 - 1) with (offset l0 - 1 - 1 + 3) by lia.
  rewrite substr_shift by lia.
  apply lexer_makeidenttoken_bom; exact R.
Qed.

(** *** The main loop runs alike on both texts *)

Lemma lexer_lex_switch_bom (fuel : nat) (curr next : byte) (l l' : Lexer) :
  bom_rel l l' -> (curr <> nullchar -> 1 <= offset l) ->
  res_rel bom_rel_flow (lexer_lex_switch fuel curr next l)
                       (lexer_lex_switch fuel curr next l').
Proof.
  intros H O.
  pose proof (LEXER_INCREMENT_OFFSET_bom H) as H1.
  pose proof (LEXER_INCREMENT_OFFSET_bom H1) as H2.
  pose proof (lexer_peek_bom H1) as P.
  pose proof (newline_bom H) as HN.
  pose proof (lexer_report_invalid_bom curr H) as HR.
  pose proof (lexer_makestrtoken_bom ["034"; "034"]%byte H1) as HS.
  unfold lexer_lex_switch.
  destruct curr; cbv zeta; rewrite ?P;
    repeat match goal with
           | |- context [if ?b then _ else _] => destruct b
           end;
    first
      [ solve [ simpl; split; [assumption | reflexivity] ]
      | eapply res_rel_bind;
        [ first [ apply lexer_lex_identifier_bom; [exact H | apply O; discriminate]
                | apply lexer_lex_string_bom; [exact H | apply O; discriminate]
                | apply lexer_lex_digit_bom; exact H
                | apply lexer_lex_sl_comment_bom; exact H
                | apply lexer_lex_ml_comment_bom; exact H ]
        | intros a a' R; simpl; split; [exact R | reflexivity] ] ].
Qed.

Lemma lexer_lex_step_bom (fuel : nat) (l l' : Lexer) :
  bom_rel l l' ->
  res_rel bom_rel_step (lexer_lex_step fuel l) (lexer_lex_step fuel l').
Proof.
  intros H. unfold lexer_lex_step.
  pose proof (lexer_advance_consumes l) as C.
  assert (O : 0 <= offset l) by (bom_split; assumption).
  advance_both H.
  rewrite (lexer_peek_bom A).
  eapply res_rel_bind.
  - apply lexer_lex_switch_bom; [exact A|]. intros N. simpl in C. specialize (C N). lia.
  - intros [l2 fl] [l2' fl'] [R E]; simpl in R, E; subst fl'.
    destruct fl as [|[k|]]; simpl; split; auto.
    apply lexer_maketoken_bom; exact R.
Qed.

Lemma lexer_lex_loop_bom (fuel : nat) :
  forall l l', bom_rel l l' ->
  res_rel bom_rel (lexer_lex_loop fuel l) (lexer_lex_loop fuel l').
Proof.
  induction fuel as [|f IH]; intros l l' H; simpl; [reflexivity|].
  eapply res_rel_bind; [apply lexer_lex_step_bom; exact H|].
  intros [l1 e] [l1' e'] [R E]; simpl in R, E; subst e'.
  destruct e; [exact R | apply IH; exact R].
Qed.

Lemma strlen_BOM (s : list byte) : strlen (BOM ++ s) = strlen s + 3.
Proof. change (strlen (BOM ++ s)) with (1 + (1 + (1 + strlen s))). lia. Qed.

(** Where the two runs start: [lexer_init] on the text, and three bytes
    further on the text with the mark. *)
Lemma bom_rel_init (s : list byte) :
  2 <= strlen s ->
  bom_rel (lexer_init s)
          (set_position (lexer_init (BOM ++ s)) (0 + 3) 1 (1 + 3)).
Proof.
  intros L. unfold bom_rel, set_position, lexer_init.
  cbn [buffer buffer_capacity offset lineno colno tokenList].
  rewrite strlen_BOM.
  repeat split; try reflexivity; try lia. constructor.
Qed.

End ByteOrderMark.

(** C7 (amended).  Let the text [s] have two bytes or more and not begin
    with a byte-order mark of its own.  Then lexing [s] with the mark in
    front gives the same outcome as lexing [s]: the same error, or token
    lists of the same length whose tokens agree one by one in kind, value
    and line, while every offset is larger by 3 and every column on the
    first line is larger by 3.  The mark is consumed without a token, and it
    stays counted in the positions. *)
Theorem C7_bom_prefix_shifts_positions (fuel : nat) (s : list byte) :
  2 <= strlen s -> starts_with_bom s = false ->
  res_rel (Forall2 shifted) (lex fuel s) (lex fuel (BOM ++ s)).
Proof.
  intros L B. unfold lex.
  eapply res_rel_bind with (RA := bom_rel);
    [|intros l l' R; simpl; unfold bom_rel in R; tauto].
  unfold lexer_lex.
  change (buffer (lexer_init s)) with s.
  fold (starts_with_bom s). rewrite B.
  change (buffer (lexer_init (BOM ++ s))) with (BOM ++ s).
  change (Byte.eqb (buf_at (BOM ++ s) 0) xef && Byte.eqb (buf_at (BOM ++ s) 1) xbb
          && Byte.eqb (buf_at (BOM ++ s) 2) xbf) with true.
  unfold lexer_advancen.
  change (buffer_capacity (lexer_init (BOM ++ s))) with (strlen (BOM ++ s)).
  rewrite strlen_BOM.
  change (offset (lexer_init (BOM ++ s))) with 0.
  destruct (0 + 3 >=? strlen s + 3) eqn:E; [lia|].
  cbn [snd offset lineno colno lexer_init].
  eapply res_rel_bind.
  - apply lexer_lex_loop_bom. apply bom_rel_init. exact L.
  - intros l l' R. apply lexer_maketoken_bom; exact R.
Qed.

(** C7, on a text of two lines: an assignment, a newline, and a name. *)
Lemma C7_bom_prefix_witness :
  res_rel (Forall2 shifted)
    (lex 20 (list_byte_of_string "x=1;" ++ ["010"%byte] ++ list_byte_of_string "y "))
    (lex 20 (BOM ++ list_byte_of_string "x=1;" ++ ["010"%byte]
                 ++ list_byte_of_string "y ")).
Proof.
  apply (@C7_bom_prefix_shifts_positions 20
           (list_byte_of_string "x=1;" ++ ["010"%byte] ++ list_byte_of_string "y ")).
  - vm_compute. discriminate.
  - vm_compute. reflexivity.
Defined.

(** C7 as stated fails.  With the mark in front of the text [;] the tokens
    have the same kinds and other positions: offset 4 and column 5 where
    the text alone gives offset 1 and column 2.  The mark alone is not
    consumed at all ([lexer_advancen] refuses to move onto the end of the
    text): it comes out as three tokens of kind [TOK_ILLEGAL], where the
    empty text gives [TOK_EOF] alone.  A text that begins with a mark of its
    own loses it, and with a second mark in front the first one is lexed as
    three unknown characters.  And on the one-letter text [a] the value of
    the identifier is the byte before the letter, here the last byte of the
    mark. *)
Lemma C7_bom_prefix_changes_tokens :
  lex 10 (list_byte_of_string ";") = Ok tokens_semicolon /\
  lex 10 (BOM ++ list_byte_of_string ";") =
    Ok [ mkToken SEMICOLON 4 5 1 (Canonical SEMICOLON);
         mkToken TOK_EOF 4 5 1 (Canonical TOK_EOF) ] /\
  kinds_of_lex (lex 10 []) = Some [TOK_EOF] /\
  kinds_of_lex (lex 10 (BOM ++ [])) =
    Some [TOK_ILLEGAL; TOK_ILLEGAL; TOK_ILLEGAL; TOK_EOF] /\
  kinds_of_lex (lex 10 (BOM ++ list_byte_of_string ";")) = Some [SEMICOLON; TOK_EOF] /\
  kinds_of_lex (lex 10 (BOM ++ BOM ++ list_byte_of_string ";")) =
    Some [TOK_ILLEGAL; TOK_ILLEGAL; TOK_ILLEGAL; SEMICOLON; TOK_EOF] /\
  lex 10 (BOM ++ list_byte_of_string "a") =
    Ok [ mkToken IDENTIFIER 4 5 1 (Text [xbf]);
         mkToken TOK_EOF 4 5 1 (Canonical TOK_EOF) ].
Proof. repeat split; vm_compute; reflexivity. Qed.

(** ** Facts about the parser *)

Section GrammarFacts.

(** The parsing functions that are not in parser.c, as in [Grammar]. *)
Variable ast_parse_expr : Parser -> parsed.
Variable ast_parse_type_expr : Parser -> parsed.
Variable ast_parse_if_expr : Parser -> parsed.
Variable ast_parse_match_expr : Parser -> parsed.
Variable ast_parse_assignment_expr : Parser -> parsed.
Variable ast_parse_loop_c_statement : Parser -> parsed.
Variable ast_parse_loop_while_statement : Parser -> parsed.
Variable ast_parse_loop_in_statement : Parser -> parsed.
Variable ast_parse_comparison_op : Parser -> parsed.
Variable ast_parse_bitwise_op : Parser -> parsed.
Variable ast_parse_bitshift_op : Parser -> parsed.
Variable ast_parse_addition_op : Parser -> parsed.
Variable ast_parse_multiplication_op : Parser -> parsed.

Local Abbreviation ast_parse_bitwise_expr :=
  (ast_parse_bitwise_expr ast_parse_bitwise_op ast_parse_bitshift_op
     ast_parse_addition_op ast_parse_multiplication_op).
Local Abbreviation ast_parse_bitshift_expr :=
  (ast_parse_bitshift_expr ast_parse_bitwise_op ast_parse_bitshift_op
     ast_parse_addition_op ast_parse_multiplication_op).
Local Abbreviation ast_parse_addition_expr :=
  (ast_parse_addition_expr ast_parse_bitwise_op ast_parse_bitshift_op
     ast_parse_addition_op ast_parse_multiplication_op).
Local Abbreviation ast_parse_multiplication_expr :=
  (ast_parse_multiplication_expr ast_parse_bitwise_op ast_parse_bitshift_op
     ast_parse_addition_op ast_parse_multiplication_op).
Local Abbreviation ast_parse_comparison_expr :=
  (ast_parse_comparison_expr ast_parse_comparison_op ast_parse_bitwise_op
     ast_parse_bitshift_op ast_parse_addition_op ast_parse_multiplication_op).
Local Abbreviation ast_parse_bool_or_expr :=
  (ast_parse_bool_or_expr ast_parse_comparison_op ast_parse_bitwise_op
     ast_parse_bitshift_op ast_parse_addition_op ast_parse_multiplication_op).
Local Abbreviation ast_parse_bool_and_expr :=
  (ast_parse_bool_and_expr ast_parse_comparison_op ast_parse_bitwise_op
     ast_parse_bitshift_op ast_parse_addition_op ast_parse_multiplication_op).
Local Abbreviation ast_parse_var_decl :=
  (ast_parse_var_decl ast_parse_expr ast_parse_type_expr).
Local Abbreviation ast_parse_statement :=
  (ast_parse_statement ast_parse_expr ast_parse_type_expr ast_parse_match_expr
     ast_parse_assignment_expr ast_parse_loop_c_statement
     ast_parse_loop_while_statement ast_parse_loop_in_statement).
Local Abbreviation ast_parse_labeled_statements :=
  (ast_parse_labeled_statements ast_parse_expr ast_parse_type_expr
     ast_parse_match_expr ast_parse_assignment_expr ast_parse_loop_c_statement
     ast_parse_loop_while_statement ast_parse_loop_in_statement).
Local Abbreviation ast_parse_block :=
  (ast_parse_block ast_parse_expr ast_parse_type_expr ast_parse_match_expr
     ast_parse_assignment_expr ast_parse_loop_c_statement
     ast_parse_loop_while_statement ast_parse_loop_in_statement).
Local Abbreviation ast_parse_block_statements :=
  (ast_parse_block_statements ast_parse_expr ast_parse_type_expr
     ast_parse_match_expr ast_parse_assignment_expr ast_parse_loop_c_statement
     ast_parse_loop_while_statement ast_parse_loop_in_statement).
Local Abbreviation ast_parse_primary_expr :=
  (ast_parse_primary_expr ast_parse_expr ast_parse_type_expr ast_parse_if_expr
     ast_parse_match_expr ast_parse_assignment_expr ast_parse_loop_c_statement
     ast_parse_loop_while_statement ast_parse_loop_in_statement).


Lemma TokenKind_beq_eq (a b : TokenKind) : TokenKind_beq a b = true <-> a = b.
Proof.
  split; [apply internal_TokenKind_dec_bl | apply internal_TokenKind_dec_lb].
Qed.

Lemma TokenKind_beq_neq (a b : TokenKind) : a <> b -> TokenKind_beq a b = false.
Proof.
  intros H. destruct (TokenKind_beq a b) eqn:E; [|reflexivity].
  apply TokenKind_beq_eq in E. contradiction.
Qed.

Lemma parser_chomp_if_hit (p : Parser) (k : TokenKind) (tok : Token) :
  parser_peek_token p = Ok tok -> tok_kind tok = k ->
  parser_chomp_if p k = Ok (Some tok, parser_next p).
Proof.
  intros H K. unfold parser_chomp_if, parser_chomp. rewrite H; simpl.
  apply TokenKind_beq_eq in K. rewrite K. reflexivity.
Qed.

Lemma parser_chomp_if_miss (p : Parser) (k : TokenKind) (tok : Token) :
  parser_peek_token p = Ok tok -> tok_kind tok <> k ->
  parser_chomp_if p k = Ok (None, p).
Proof.
  intros H K. unfold parser_chomp_if. rewrite H; simpl.
  rewrite (TokenKind_beq_neq K). reflexivity.
Qed.

(** [parser_chomp_if] either fails, or declines and leaves the parser as it
    is, or takes the current token. *)
Lemma parser_chomp_if_cases (p : Parser) (k : TokenKind) :
  (exists e, parser_chomp_if p k = Err e) \/
  parser_chomp_if p k = Ok (None, p) \/
  (exists tok, parser_peek_token p = Ok tok /\ tok_kind tok = k /\
               parser_chomp_if p k = Ok (Some tok, parser_next p)).
Proof.
  unfold parser_chomp_if, parser_chomp.
  destruct (parser_peek_token p) as [tok|e] eqn:E; simpl; [|eauto].
  destruct (TokenKind_beq (tok_kind tok) k) eqn:K; [|auto].
  right; right. exists tok. apply TokenKind_beq_eq in K. auto.
Qed.

Lemma parser_peek_nth (p : Parser) (tok : Token) :
  nth_error (toklist p) (curr_tok p) = Some tok -> parser_peek_token p = Ok tok.
Proof. unfold parser_peek_token. intros ->. reflexivity. Qed.

(** *** The tiers of binary expressions never return *)

Lemma ast_parse_binary_op_expr_child_err (fuel : nat) (chain : BinaryOpChain)
    (op child : Parser -> parsed) (p : Parser) (e : error) :
  child p = Err e -> ast_parse_binary_op_expr fuel chain op child p = Err e.
Proof. unfold ast_parse_binary_op_expr. intros ->. reflexivity. Qed.

(** The four tiers from [BitwiseExpr] down call one another in a circle
    before any of them reads a token: bitwise, bitshift, addition,
    multiplication, and bitwise again. *)
Lemma binary_tiers_out_of_fuel (fuel : nat) :
  forall p,
    ast_parse_bitwise_expr fuel p = Err OutOfFuel /\
    ast_parse_bitshift_expr fuel p = Err OutOfFuel /\
    ast_parse_addition_expr fuel p = Err OutOfFuel /\
    ast_parse_multiplication_expr fuel p = Err OutOfFuel.
Proof.
  induction fuel as [|f IH]; intros p; simpl; [auto|].
  repeat split; apply ast_parse_binary_op_expr_child_err; apply IH.
Qed.

Lemma upper_tiers_out_of_fuel (fuel : nat) (p : Parser) :
  ast_parse_comparison_expr fuel p = Err OutOfFuel /\
  ast_parse_bool_or_expr fuel p = Err OutOfFuel /\
  ast_parse_bool_and_expr fuel p = Err OutOfFuel.
Proof.
  assert (C : forall q, ast_parse_comparison_expr fuel q = Err OutOfFuel).
  { intros q. apply ast_parse_binary_op_expr_child_err.
    apply binary_tiers_out_of_fuel. }
  assert (O : forall q, ast_parse_bool_or_expr fuel q = Err OutOfFuel).
  { intros q. apply ast_parse_binary_op_expr_child_err. apply C. }
  repeat split; auto.
  apply ast_parse_binary_op_expr_child_err. apply O.
Qed.

(** *** Variable declarations, statements and blocks *)

(** Every path through [ast_parse_var_decl] ends in an error: the one
    [return] comes after the write of [name] through the payload of the
    node that [ast_create_node] has just made. *)
Lemma ast_parse_var_decl_err (p : Parser) :
  exists e, ast_parse_var_decl p = Err e.
Proof.
  unfold ast_parse_var_decl.
  destruct (parser_chomp_if p EXPORT) as [[export_kwd p1]|e]; simpl; [|eauto].
  destruct (parser_chomp_if p1 MUTABLE) as [[mutable_kwd p2]|e]; simpl; [|eauto].
  destruct (parser_chomp_if p2 CONST) as [[const_kwd p3]|e]; simpl; [|eauto].
  destruct (is_some mutable_kwd && is_some const_kwd);
    [unfold ast_error, panic; eauto|].
  destruct (ast_parse_type_expr p3) as [[type_expr p4]|e]; simpl; [|eauto].
  destruct (parser_expect_token p4 IDENTIFIER) as [[identifier p5]|e]; simpl;
    [|eauto].
  destruct (parser_chomp_if p5 EQUALS) as [[equals p6]|e]; simpl; [|eauto].
  destruct equals as [eq_tok|].
  - destruct (ast_parse_expr p6) as [[expr p7]|e]; simpl; [|eauto].
    destruct (parser_expect_token p7 SEMICOLON) as [[semi p8]|e]; simpl; eauto.
  - simpl.
    destruct (parser_expect_token p6 SEMICOLON) as [[semi p8]|e]; simpl; eauto.
Qed.

(** [ast_parse_var_decl] has one [return], after [ast_create_node]: it never
    returns [null]. *)
Lemma ast_parse_var_decl_not_null (p : Parser) :
  (exists e, ast_parse_var_decl p = Err e) \/
  (exists n p', ast_parse_var_decl p = Ok (Some n, p')).
Proof. left. apply ast_parse_var_decl_err. Qed.

Lemma ast_parse_statement_not_null (fuel : nat) (p : Parser) :
  (exists e, ast_parse_statement fuel p = Err e) \/
  (exists n p', ast_parse_statement fuel p = Ok (Some n, p')).
Proof.
  destruct fuel as [|f]; simpl; [left; eauto|].
  destruct (ast_parse_var_decl_not_null p) as [(e & ->)|(n & p' & ->)]; simpl.
  - left; eauto.
  - destruct (check _); simpl; [right|left]; eauto.
Qed.

(** The statement loop of a block is left only when [ast_parse_statement]
    returns [null], which it never does. *)
Lemma ast_parse_block_statements_err (fuel : nat) :
  forall p statements, exists e, ast_parse_block_statements fuel p statements = Err e.
Proof.
  induction fuel as [|f IH]; intros p statements; simpl; [eauto|].
  destruct (ast_parse_statement_not_null f p) as [(e & ->)|(n & p' & ->)]; simpl.
  - eauto.
  - apply IH.
Qed.

(** [ast_parse_block] never returns a block: it declines when the current
    token is not a left brace, and ends in an error when it is. *)
Lemma ast_parse_block_no_block (fuel : nat) (p : Parser) :
  (exists e, ast_parse_block fuel p = Err e) \/
  ast_parse_block fuel p = Ok (None, p).
Proof.
  destruct fuel as [|f]; simpl; [left; eauto|].
  destruct (parser_chomp_if_cases p LBRACE) as [(e & ->)| [-> | (tok & _ & _ & ->)]];
    simpl; [left; eauto | right; reflexivity |].
  destruct (ast_parse_block_statements_err f (parser_next p) []) as (e & E).
  left. exists e. rewrite E. reflexivity.
Qed.

Lemma ast_parse_block_at_lbrace (fuel : nat) (p : Parser) (tok : Token) :
  parser_peek_token p = Ok tok -> tok_kind tok = LBRACE ->
  exists e, ast_parse_block fuel p = Err e.
Proof.
  intros H K. destruct fuel as [|f]; simpl; [eauto|].
  rewrite (parser_chomp_if_hit p H K); simpl.
  destruct (ast_parse_block_statements_err f (parser_next p) []) as (e & E).
  exists e. rewrite E. reflexivity.
Qed.

(** *** The claims about the parser *)

(** C4 (the code does not do what the claim says).  Parsing the tokens of
    1 + 2 * 3 does not terminate: whatever the operator parsers do and
    however much fuel is given, the addition tier, the multiplication tier
    and the tiers above them are still descending into their first operand.
    [ast_parse_multiplication_expr] names [ast_parse_bitwise_expr] as the
    parser of its operands, and that one comes back to the addition tier
    without reading a token, so no tree is ever built. *)
Theorem C4_precedence_parse_never_returns (fuel : nat) :
  ast_parse_addition_expr fuel (parser_init tokens_1_plus_2_times_3) = Err OutOfFuel /\
  ast_parse_multiplication_expr fuel (parser_init tokens_1_plus_2_times_3) = Err OutOfFuel /\
  ast_parse_bool_and_expr fuel (parser_init tokens_1_plus_2_times_3) = Err OutOfFuel.
Proof.
  repeat split.
  - apply binary_tiers_out_of_fuel.
  - apply binary_tiers_out_of_fuel.
  - apply upper_tiers_out_of_fuel.
Qed.

(** C8 (amended).  Whenever the declaration starts, after an optional
    [export], with a [mutable] keyword token directly followed by a [const]
    keyword token, [ast_parse_var_decl] stops with the parse error "Cannot
    decorate a variable as both `mutable` and `const`"; it is raised once
    both keywords are consumed and before the rest of the declaration is
    read, and carries no token or location. *)
Theorem C8_conflicting_qualifiers_rejected (p p1 : Parser)
    (export_kwd : option Token) (m c : Token) :
  parser_chomp_if p EXPORT = Ok (export_kwd, p1) ->
  parser_peek_token p1 = Ok m -> tok_kind m = MUTABLE ->
  parser_peek_token (parser_next p1) = Ok c -> tok_kind c = CONST ->
  ast_parse_var_decl p =
    Err (Panic ErrorParseError
           "Cannot decorate a variable as both `mutable` and `const`" []).
Proof.
  intros He Hm Km Hc Kc. unfold ast_parse_var_decl.
  rewrite He; simpl.
  rewrite (parser_chomp_if_hit p1 Hm Km); simpl.
  rewrite (parser_chomp_if_hit (parser_next p1) Hc Kc); simpl.
  reflexivity.
Qed.

(** C9 (amended).  When the current token is a left brace, so that the block
    has no label, [ast_parse_labeled_statements] ends with the very error
    with which [ast_parse_block] ends; the assignment from [label->value]
    is not reached.  The reason is the second part: [ast_parse_block] never
    returns a block at all, because its statement loop is left only when
    [ast_parse_statement] returns [null], and [ast_parse_statement] returns
    what [ast_parse_var_decl] returns, which is never [null]. *)
Theorem C9_unlabeled_block_ends_in_block_error (fuel : nat) (p : Parser)
    (tok : Token) :
  parser_peek_token p = Ok tok -> tok_kind tok = LBRACE ->
  (exists e, ast_parse_block fuel p = Err e /\
             ast_parse_labeled_statements (S fuel) p = Err e) /\
  (forall f q, (exists e, ast_parse_block f q = Err e) \/
               ast_parse_block f q = Ok (None, q)).
Proof.
  intros H K. split; [|intros f q; apply ast_parse_block_no_block].
  destruct (ast_parse_block_at_lbrace fuel p H K) as (e & E).
  exists e; split; [exact E|].
  simpl. unfold ast_parse_block_label.
  assert (N : tok_kind tok <> IDENTIFIER) by (rewrite K; discriminate).
  rewrite (parser_chomp_if_miss p H N); simpl.
  rewrite E. reflexivity.
Qed.


End GrammarFacts.

(** *** The parser on concrete token lists *)

(** The lexer turns the text of the expression into the token list used
    above. *)
Example lex_1_plus_2_times_3 :
  lex 20 (list_byte_of_string "1 + 2 * 3") = Ok tokens_1_plus_2_times_3.
Proof. vm_compute. reflexivity. Qed.

Example lex_empty_block :
  lex 20 (list_byte_of_string "{ }") = Ok tokens_empty_block.
Proof. vm_compute. reflexivity. Qed.

(** C8, on the token list of [mutable const Int32 x;] with both keywords
    recognised: the declaration is rejected. *)
Lemma C8_conflicting_qualifiers_witness :
  ast_parse_var_decl no_match no_match (parser_init tokens_mutable_const) =
    Err (Panic ErrorParseError
           "Cannot decorate a variable as both `mutable` and `const`" []).
Proof.
  apply (@C8_conflicting_qualifiers_rejected no_match no_match
           (parser_init tokens_mutable_const) (parser_init tokens_mutable_const)
           None (token_of MUTABLE) (token_of CONST));
    reflexivity.
Defined.

(** C8 as stated fails on the text itself: [lex] succeeds on
    [mutable const Int32 x;] and returns four [IDENTIFIER] tokens and
    [TOK_EOF] (the semicolon is swallowed by the identifier scanner), so the
    parser finds no [mutable] keyword, the qualifier check passes, and the
    declaration is refused for another reason, an unexpected token. *)
Lemma C8_lexed_text_has_no_qualifier_tokens :
  exists toks,
    lex 64 (list_byte_of_string "mutable const Int32 x;") = Ok toks /\
    kinds toks = [IDENTIFIER; IDENTIFIER; IDENTIFIER; IDENTIFIER; TOK_EOF] /\
    parser_chomp_if (parser_init toks) MUTABLE = Ok (None, parser_init toks) /\
    ast_parse_var_decl no_match no_match (parser_init toks) =
      Err (Panic ErrorUnexpectedToken "Expected `%s`; got `%s`"
             [Canonical SEMICOLON; Canonical IDENTIFIER]).
Proof.
  eexists. split; [vm_compute; reflexivity|].
  repeat split; vm_compute; reflexivity.
Qed.

(** C9, on the tokens of an empty block. *)
Lemma C9_unlabeled_block_witness :
  (exists e,
     ast_parse_block no_match no_match no_match no_match no_match no_match
       no_match 5 (parser_init tokens_empty_block) = Err e /\
     ast_parse_labeled_statements no_match no_match no_match no_match no_match
       no_match no_match 6 (parser_init tokens_empty_block) = Err e) /\
  (forall f q,
     (exists e, ast_parse_block no_match no_match no_match no_match no_match
                  no_match no_match f q = Err e) \/
     ast_parse_block no_match no_match no_match no_match no_match no_match
       no_match f q = Ok (None, q)).
Proof.
  apply (@C9_unlabeled_block_ends_in_block_error no_match no_match no_match
           no_match no_match no_match no_match 5
           (parser_init tokens_empty_block) (mkToken LBRACE 1 2 1 (Canonical LBRACE)));
    reflexivity.
Defined.

(** C9 as stated fails on an empty block without a label: the outcome of
    [ast_parse_labeled_statements] is not the null dereference but the
    panic of [parser_expect_token], raised inside the block when the
    statement loop meets the right brace where a declaration must start. *)
Lemma C9_empty_block_panics_before_label :
  ast_parse_labeled_statements no_match no_match no_match no_match no_match
    no_match no_match 6 (parser_init tokens_empty_block) =
  Err (Panic ErrorUnexpectedToken "Expected `%s`; got `%s`"
         [Canonical IDENTIFIER; Canonical RBRACE]).
Proof. vm_compute. reflexivity. Qed.

(** * Further facts about the lexer *)

Section MoreLexerFacts.

Lemma advanced_refl (l : Lexer) : advanced l l.
Proof. unfold advanced; repeat split; lia. Qed.

Lemma advanced_trans (l1 l2 l3 : Lexer) :
  advanced l1 l2 -> advanced l2 l3 -> advanced l1 l3.
Proof.
  unfold advanced; intros (A1 & A2 & A3 & A4 & A5 & A6) (B1 & B2 & B3 & B4 & B5 & B6).
  repeat split; try congruence; lia.
Qed.

Lemma lexer_advance_advanced (l : Lexer) : advanced l (snd (lexer_advance l)).
Proof.
  unfold lexer_advance. destruct (offset l >=? buffer_capacity l); simpl.
  - apply advanced_refl.
  - unfold advanced; simpl; repeat split; lia.
Qed.

Ltac step_advance l :=
  let M := fresh "M" in
  pose proof (lexer_advance_advanced l) as M;
  let c := fresh "c" in let l1 := fresh "l" in
  destruct (lexer_advance l) as [c l1] in *; simpl in M.

Lemma lexer_lex_sl_comment_loop_advanced (fuel : nat) :
  forall ch l l', lexer_lex_sl_comment_loop fuel ch l = Ok l' -> advanced l l'.
Proof.
  induction fuel as [|f IH]; simpl; intros ch l l' H; [discriminate|].
  destruct (negb (Byte.eqb ch nullchar) && negb (Byte.eqb ch "010"%byte)).
  - step_advance l. eapply advanced_trans; eauto.
  - inversion H; subst; apply advanced_refl.
Qed.

Lemma lexer_lex_ml_comment_skip_advanced (fuel : nat) :
  forall ch l ch' l', lexer_lex_ml_comment_skip fuel ch l = Ok (ch', l') -> advanced l l'.
Proof.
  induction fuel as [|f IH]; simpl; intros ch l ch' l' H; [discriminate|].
  destruct (negb (Byte.eqb ch nullchar) && negb (Byte.eqb ch "*"%byte)).
  - step_advance l. eapply advanced_trans; eauto.
  - inversion H; subst; apply advanced_refl.
Qed.

Lemma lexer_lex_ml_comment_loop_advanced (fuel : nat) :
  forall ch a l l', lexer_lex_ml_comment_loop fuel ch a l = Ok l' -> advanced l l'.
Proof.
  induction fuel as [|f IH]; simpl; intros ch a l l' H; [discriminate|].
  destruct (negb (Byte.eqb ch nullchar) && negb (Byte.eqb ch "/"%byte && a)).
  - apply bind_Ok in H. destruct H as ([ch1 l1] & H1 & H).
    apply lexer_lex_ml_comment_skip_advanced in H1.
    step_advance l1. apply IH in H.
    eapply advanced_trans; [eassumption|]. eapply advanced_trans; eassumption.
  - inversion H; subst; apply advanced_refl.
Qed.

Lemma lexer_lex_string_loop_advanced (fuel : nat) :
  forall ch l ch' l', lexer_lex_string_loop fuel ch l = Ok (ch', l') -> advanced l l'.
Proof.
  induction fuel as [|f IH]; simpl; intros ch l ch' l' H; [discriminate|].
  destruct (negb (Byte.eqb ch "034"%byte)).
  - destruct (Byte.eqb ch "\"%byte).
    + eapply IH; eassumption.
    + step_advance l. eapply advanced_trans; eauto.
  - inversion H; subst; apply advanced_refl.
Qed.

Lemma lexer_lex_identifier_loop_advanced (fuel : nat) :
  forall ch l l', lexer_lex_identifier_loop fuel ch l = Ok l' -> advanced l l'.
Proof.
  induction fuel as [|f IH]; simpl; intros ch l l' H; [discriminate|].
  destruct (isLetter ch || isDigit ch).
  - step_advance l. eapply advanced_trans; eauto.
  - inversion H; subst; apply advanced_refl.
Qed.

Lemma lexer_lex_digit_loop_advanced (fuel : nat) :
  forall ch l l', lexer_lex_digit_loop fuel ch l = Ok l' -> advanced l l'.
Proof.
  induction fuel as [|f IH]; simpl; intros ch l l' H; [discriminate|].
  destruct (isDigit ch).
  - step_advance l. eapply advanced_trans; eauto.
  - inversion H; subst; apply advanced_refl.
Qed.

Lemma advanced_grown (l l' : Lexer) : advanced l l' -> grown l l' [].
Proof.
  intros (A1 & A2 & A3 & A4 & A5 & A6). unfold grown.
  rewrite app_nil_r. repeat split; auto.
Qed.

Lemma lexer_lex_identifier_grown (fuel : nat) (l l' : Lexer) :
  lexer_lex_identifier fuel l = Ok l' -> exists ts, grown l l' ts.
Proof.
  unfold lexer_lex_identifier. intros H.
  step_advance l.
  apply bind_Ok in H. destruct H as (l2 & H1 & H).
  apply bind_Ok in H. destruct H as (u & _ & H).
  apply bind_Ok in H. destruct H as (u' & _ & H).
  inversion H; subst; clear H.
  apply lexer_lex_identifier_loop_advanced in H1.
  destruct (advanced_trans M H1) as (A1 & A2 & A3 & A4 & A5 & A6).
  eexists. unfold grown; simpl.
  split; [assumption|]. split; [assumption|].
  split; [rewrite A3; reflexivity | repeat constructor].
Qed.

Lemma lexer_lex_digit_grown (fuel : nat) (l l' : Lexer) :
  lexer_lex_digit fuel l = Ok l' -> exists ts, grown l l' ts.
Proof.
  unfold lexer_lex_digit. intros H.
  apply bind_Ok in H. destruct H as (l1 & H1 & H).
  inversion H; subst; clear H.
  apply lexer_lex_digit_loop_advanced in H1.
  destruct H1 as (A1 & A2 & A3 & A4 & A5 & A6).
  eexists. unfold grown; simpl.
  split; [assumption|]. split; [assumption|].
  split; [rewrite A3; reflexivity | repeat constructor].
Qed.

Lemma lexer_lex_string_grown (fuel : nat) (l l' : Lexer) :
  lexer_lex_string fuel l = Ok l' -> exists ts, grown l l' ts.
Proof.
  unfold lexer_lex_string. intros H.
  apply bind_Ok in H. destruct H as (u0 & _ & H).
  step_advance l.
  apply bind_Ok in H. destruct H as ([ch' l2] & H1 & H).
  apply bind_Ok in H. destruct H as (u1 & _ & H).
  apply bind_Ok in H. destruct H as (u2 & _ & H).
  inversion H; subst; clear H.
  apply lexer_lex_string_loop_advanced in H1.
  destruct (advanced_trans M H1) as (A1 & A2 & A3 & A4 & A5 & A6).
  eexists. unfold grown; simpl.
  split; [assumption|]. split; [assumption|].
  split; [rewrite A3; reflexivity | repeat constructor].
Qed.

Lemma lexer_lex_sl_comment_advanced (fuel : nat) (l l' : Lexer) :
  lexer_lex_sl_comment fuel l = Ok l' -> advanced l l'.
Proof.
  unfold lexer_lex_sl_comment. intros H. step_advance l.
  apply lexer_lex_sl_comment_loop_advanced in H. eapply advanced_trans; eassumption.
Qed.

Lemma lexer_lex_ml_comment_advanced (fuel : nat) (l l' : Lexer) :
  lexer_lex_ml_comment fuel l = Ok l' -> advanced l l'.
Proof.
  unfold lexer_lex_ml_comment. intros H. step_advance l.
  apply bind_Ok in H. destruct H as (l2 & H1 & H).
  inversion H; subst; clear H.
  apply lexer_lex_ml_comment_loop_advanced in H1.
  eapply advanced_trans; [eassumption|].
  eapply advanced_trans; [eassumption|]. apply lexer_advance_advanced.
Qed.

(** *** One case of the switch, one pass of the loop *)

Ltac grown_leaf H :=
  inversion H; subst; clear H;
  eexists; split; [simpl; lia|];
  split; [simpl; first [reflexivity | symmetry; apply app_nil_r]|];
  split; [repeat constructor|];
  split; [intros k E; inversion E; reflexivity | simpl; lia].

Ltac grown_scan H lem :=
  apply bind_Ok in H;
  let l1 := fresh "l" in
  let H1 := fresh "H" in
  let ts := fresh "ts" in
  let G1 := fresh "G" in let G2 := fresh "G" in
  let G3 := fresh "G" in let G4 := fresh "G" in
  destruct H as (l1 & H1 & H);
  inversion H; subst; clear H;
  apply lem in H1;
  destruct H1 as (ts & G1 & G2 & G3 & G4);
  exists ts; split; [exact G2|];
  split; [exact G3|];
  split; [exact G4|];
  split; [discriminate | simpl; lia].

Ltac grown_skip H lem :=
  apply bind_Ok in H;
  let l1 := fresh "l" in
  let H1 := fresh "H" in
  let G1 := fresh "G" in let G2 := fresh "G" in
  let G3 := fresh "G" in let G4 := fresh "G" in
  destruct H as (l1 & H1 & H);
  inversion H; subst; clear H;
  apply lem in H1; apply advanced_grown in H1;
  destruct H1 as (G1 & G2 & G3 & G4);
  exists []; split; [exact G2|];
  split; [exact G3|];
  split; [exact G4|];
  split; [discriminate | simpl; lia].

Lemma lexer_lex_switch_grown (fuel : nat) (curr next : byte) (l l' : Lexer)
    (fl : flow) :
  lexer_lex_switch fuel curr next l = Ok (l', fl) ->
  exists ts,
    offset l <= offset l' /\
    tokenList l' = tokenList l ++ ts /\
    Forall (fun t => parser_only_kind (tok_kind t) = false) ts /\
    (forall k, fl = SwitchBreak (Some k) -> parser_only_kind k = false) /\
    lineno l' = lineno l + (if Byte.eqb curr "010"%byte then 1 else 0).
Proof.
  intros H. unfold lexer_lex_switch in H.
  destruct curr;
    repeat match type of H with
           | (if ?b then _ else _) = _ => destruct b
           | _ => progress cbv zeta in H
           end;
    first [ grown_leaf H
          | grown_scan H lexer_lex_identifier_grown
          | grown_scan H lexer_lex_digit_grown
          | grown_scan H lexer_lex_string_grown
          | grown_skip H lexer_lex_sl_comment_advanced
          | grown_skip H lexer_lex_ml_comment_advanced ].
Qed.

Lemma lexer_lex_step_grown (fuel : nat) (l l' : Lexer) (at_eof : bool) :
  lexer_lex_step fuel l = Ok (l', at_eof) ->
  exists ts,
    offset l <= offset l' /\
    tokenList l' = tokenList l ++ ts /\
    Forall (fun t => parser_only_kind (tok_kind t) = false) ts /\
    lineno l' = lineno l
                + (if Byte.eqb (fst (lexer_advance l)) "010"%byte then 1 else 0).
Proof.
  unfold lexer_lex_step. intros H.
  step_advance l. simpl.
  destruct M as (_ & _ & M3 & _ & M5 & M6).
  apply bind_Ok in H. destruct H as ([l2 fl] & H1 & H).
  apply lexer_lex_switch_grown in H1.
  destruct H1 as (ts & G1 & G2 & G3 & G4 & G5).
  destruct fl as [|[k|]]; inversion H; subst; clear H.
  - exists ts. repeat split; auto; try lia. congruence.
  - exists (ts ++ [ {| tok_kind := k; tok_offset := offset l2; tok_colno := colno l2;
                       tok_lineno := lineno l2; tok_value := Canonical k |} ]).
    simpl. split; [lia|]. split; [rewrite G2, M3, app_assoc; reflexivity|].
    split; [|lia].
    apply Forall_app; split; [exact G3|]. constructor; [|constructor].
    simpl. apply G4; reflexivity.
  - exists ts. repeat split; auto; try lia. congruence.
Qed.

(** *** The whole run: kinds and order of the tokens *)

Lemma lexer_lex_loop_kinds (fuel : nat) :
  forall l l', lexer_lex_loop fuel l = Ok l' ->
  exists ts, tokenList l' = tokenList l ++ ts /\
             Forall (fun t => parser_only_kind (tok_kind t) = false) ts.
Proof.
  induction fuel as [|f IH]; simpl; intros l l' H; [discriminate|].
  apply bind_Ok in H. destruct H as ([l1 at_eof] & H1 & H).
  apply lexer_lex_step_grown in H1. destruct H1 as (ts1 & _ & T1 & F1 & _).
  destruct at_eof.
  - inversion H; subst; clear H. exists ts1; split; assumption.
  - apply IH in H. destruct H as (ts2 & T2 & F2).
    exists (ts1 ++ ts2); split.
    + rewrite T2, T1, app_assoc. reflexivity.
    + apply Forall_app; split; assumption.
Qed.

Lemma StronglySorted_app {A : Type} (R : A -> A -> Prop) (xs ys : list A) :
  StronglySorted R xs -> StronglySorted R ys ->
  Forall (fun x => Forall (R x) ys) xs ->
  StronglySorted R (xs ++ ys).
Proof.
  induction xs as [|x xs IH]; simpl; intros Sx Sy F; [exact Sy|].
  inversion Sx; subst. inversion F; subst.
  constructor; [apply IH; assumption|].
  apply Forall_app; split; assumption.
Qed.

Lemma same_position_sorted (l : Lexer) (ts : list Token) :
  Forall (at_position l) ts -> StronglySorted not_before ts.
Proof.
  induction ts as [|t ts IH]; intros F; [constructor|].
  inversion F as [|? ? Ht Fts]; subst. constructor; [apply IH; exact Fts|].
  eapply Forall_impl; [|exact Fts].
  intros u (O & L & _). destruct Ht as (O' & L' & _).
  unfold not_before. lia.
Qed.

Lemma in_order_append (l l' : Lexer) (ts : list Token) :
  in_order l -> offset l <= offset l' -> lineno l <= lineno l' ->
  tokenList l' = tokenList l ++ ts -> Forall (at_position l') ts ->
  in_order l'.
Proof.
  intros (S & B) O L T P. unfold in_order. rewrite T. split.
  - apply StronglySorted_app; [exact S | eapply same_position_sorted; exact P |].
    eapply Forall_impl; [|exact B]. intros t (Ot & Lt).
    eapply Forall_impl; [|exact P]. intros u (Ou & Lu & _).
    unfold not_before. lia.
  - apply Forall_app; split.
    + eapply Forall_impl; [|exact B]. intros t (Ot & Lt). lia.
    + eapply Forall_impl; [|exact P]. intros u (Ou & Lu & _). lia.
Qed.

Lemma lexer_lex_step_in_order (fuel : nat) (l l' : Lexer) (at_eof : bool) :
  lexer_lex_step fuel l = Ok (l', at_eof) -> in_order l -> in_order l'.
Proof.
  intros H I.
  destruct (lexer_lex_step_grown _ _ H) as (ts & O & T & _ & L).
  assert (L' : lineno l <= lineno l').
  { rewrite L. destruct (Byte.eqb _ _); lia. }
  destruct at_eof.
  - apply lexer_lex_step_eof in H.
    apply (in_order_append (ts := []) I O L'); [rewrite app_nil_r; exact H | constructor].
  - apply lexer_lex_step_appended in H.
    destruct H as (ts' & (_ & _ & _ & T' & F') & _).
    apply (in_order_append (ts := ts') I O L' T').
    eapply Forall_impl; [|exact F']. intros t (Ht & _); exact Ht.
Qed.

Lemma lexer_lex_loop_in_order (fuel : nat) :
  forall l l', lexer_lex_loop fuel l = Ok l' -> in_order l -> in_order l'.
Proof.
  induction fuel as [|f IH]; simpl; intros l l' H I; [discriminate|].
  apply bind_Ok in H. destruct H as ([l1 at_eof] & H1 & H).
  apply lexer_lex_step_in_order in H1; [|exact I].
  destruct at_eof; [inversion H; subst; exact H1 | eapply IH; eassumption].
Qed.

End MoreLexerFacts.

Lemma lex_kinds (fuel : nat) (buf : list byte) (toks : list Token) :
  lex fuel buf = Ok toks ->
  Forall (fun t => parser_only_kind (tok_kind t) = false) toks.
Proof.
  unfold lex, lexer_lex. intros H.
  apply bind_Ok in H. destruct H as (l & H & E). inversion E; subst; clear E.
  apply bind_Ok in H. destruct H as (l' & H & E). inversion E; subst; clear E.
  apply lexer_lex_loop_kinds in H. destruct H as (ts & T & F).
  assert (T0 : tokenList l' = ts).
  { rewrite T. destruct (_ && _); [rewrite lexer_advancen_tokenList|]; reflexivity. }
  simpl. rewrite T0. apply Forall_app; split; [exact F|].
  repeat constructor.
Qed.

(** X1.  Whatever the text, a token list that [lex] returns holds no token
    of a keyword kind and no character or floating-point literal token: the
    kinds that the parser tests for with [FUNC], [IF], [MUTABLE], [CONST],
    [CHAR], [FLOAT_LIT] and the like never come out of the lexer. *)
Theorem lex_never_makes_parser_only_kinds (fuel : nat) (buf : list byte)
    (toks : list Token) :
  lex fuel buf = Ok toks ->
  Forall (fun t => parser_only_kind (tok_kind t) = false) toks.
Proof. apply lex_kinds. Qed.

(** X1, on the text [if x;]. *)
Lemma lex_never_makes_parser_only_kinds_witness :
  Forall (fun t => parser_only_kind (tok_kind t) = false)
    [ mkToken IDENTIFIER 3 4 1 (Text (list_byte_of_string "if"));
      mkToken IDENTIFIER 5 6 1 (Text (list_byte_of_string "x"));
      mkToken TOK_EOF 5 6 1 (Canonical TOK_EOF) ].
Proof.
  apply (@lex_never_makes_parser_only_kinds 20 (list_byte_of_string "if x;")).
  vm_compute. reflexivity.
Defined.

(** X2.  The tokens of a list that [lex] returns stand in the order of the
    text: from one token to any later one neither the recorded offset nor
    the recorded line goes down. *)
Theorem lex_tokens_in_text_order (fuel : nat) (buf : list byte)
    (toks : list Token) :
  lex fuel buf = Ok toks -> StronglySorted not_before toks.
Proof.
  unfold lex, lexer_lex. intros H.
  apply bind_Ok in H. destruct H as (l & H & E). inversion E; subst; clear E.
  apply bind_Ok in H. destruct H as (l' & H & E). inversion E; subst; clear E.
  apply lexer_lex_loop_in_order in H.
  - destruct H as (S & B). simpl.
    apply StronglySorted_app; [exact S | repeat constructor |].
    eapply Forall_impl; [|exact B]. intros t (O & L).
    constructor; [|constructor]. unfold not_before; simpl. lia.
  - unfold in_order.
    destruct (_ && _); [rewrite lexer_advancen_tokenList|]; simpl;
      split; constructor.
Qed.

(** X2, on a text of two lines. *)
Lemma lex_tokens_in_text_order_witness :
  StronglySorted not_before
    [ mkToken IDENTIFIER 2 3 1 (Text (list_byte_of_string "a"));
      mkToken INTEGER 4 2 2 (Canonical INTEGER);
      mkToken TOK_EOF 4 2 2 (Canonical TOK_EOF) ].
Proof.
  apply (@lex_tokens_in_text_order 20
           (list_byte_of_string "a;" ++ ["010"%byte] ++ list_byte_of_string "7")).
  vm_compute. reflexivity.
Defined.

(** X3.  A pass of the main loop changes the line number only when the
    character it reads is a newline, and then by one.  The newline that
    ends a line comment, and any newline inside a block comment or a string
    or swallowed after an identifier, is consumed and not counted. *)
Theorem lexer_line_counted_only_by_newline_case (fuel : nat) (l l' : Lexer)
    (at_eof : bool) :
  lexer_lex_step fuel l = Ok (l', at_eof) ->
  lineno l' = lineno l
              + (if Byte.eqb (fst (lexer_advance l)) "010"%byte then 1 else 0).
Proof.
  intros H. destruct (lexer_lex_step_grown _ _ H) as (ts & _ & _ & _ & L).
  exact L.
Qed.

(** X3, on the pass over a line comment and its newline, with a semicolon
    on the next line: the pass ends after the newline, on line 1. *)
Lemma lexer_line_counted_only_by_newline_case_witness :
  lineno (set_position
            (lexer_init (list_byte_of_string "//c" ++ ["010"; ";"]%byte)) 4 1 5)
  = lineno (lexer_init (list_byte_of_string "//c" ++ ["010"; ";"]%byte))
    + (if Byte.eqb
            (fst (lexer_advance
                    (lexer_init (list_byte_of_string "//c" ++ ["010"; ";"]%byte))))
            "010"%byte
       then 1 else 0).
Proof.
  apply (@lexer_line_counted_only_by_newline_case 10
           (lexer_init (list_byte_of_string "//c" ++ ["010"; ";"]%byte))
           (set_position
              (lexer_init (list_byte_of_string "//c" ++ ["010"; ";"]%byte)) 4 1 5)
           false).
  vm_compute. reflexivity.
Defined.
(** * When the lexer returns *)

Section LexerReturns.

Lemma lexer_lex_digit_loop_returns (fuel : nat) :
  forall ch l, (remaining l + 2 <= fuel)%nat ->
  exists l', lexer_lex_digit_loop fuel ch l = Ok l'.
Proof.
  induction fuel as [|f IH]; intros ch l Hf; [lia|]. simpl.
  destruct (isDigit ch); [|eauto].
  destruct (Z_lt_le_dec (offset l) (buffer_capacity l)) as [Hlt|Hge].
  - pose proof (lexer_advance_remaining l Hlt) as R.
    destruct (lexer_advance l) as [ch' l1]; simpl in R.
    apply IH. lia.
  - rewrite (lexer_advance_at_end l Hge).
    destruct f as [|f']; [lia|]. simpl. eauto.
Qed.

Lemma lexer_lex_sl_comment_loop_returns (fuel : nat) :
  forall ch l, (remaining l + 2 <= fuel)%nat ->
  exists l', lexer_lex_sl_comment_loop fuel ch l = Ok l'.
Proof.
  induction fuel as [|f IH]; intros ch l Hf; [lia|]. simpl.
  destruct (negb (Byte.eqb ch nullchar) && negb (Byte.eqb ch "010"%byte)); [|eauto].
  destruct (Z_lt_le_dec (offset l) (buffer_capacity l)) as [Hlt|Hge].
  - pose proof (lexer_advance_remaining l Hlt) as R.
    destruct (lexer_advance l) as [ch' l1]; simpl in R.
    apply IH. lia.
  - rewrite (lexer_advance_at_end l Hge).
    destruct f as [|f']; [lia|]. simpl. eauto.
Qed.

Lemma lexer_lex_ml_comment_skip_returns (fuel : nat) :
  forall ch l, (remaining l + 2 <= fuel)%nat ->
  exists r, lexer_lex_ml_comment_skip fuel ch l = Ok r.
Proof.
  induction fuel as [|f IH]; intros ch l Hf; [lia|]. simpl.
  destruct (negb (Byte.eqb ch nullchar) && negb (Byte.eqb ch "*"%byte)); [|eauto].
  destruct (Z_lt_le_dec (offset l) (buffer_capacity l)) as [Hlt|Hge].
  - pose proof (lexer_advance_remaining l Hlt) as R.
    destruct (lexer_advance l) as [ch' l1]; simpl in R.
    apply IH. lia.
  - rewrite (lexer_advance_at_end l Hge).
    destruct f as [|f']; [lia|]. simpl. eauto.
Qed.

Lemma moved_remaining (l l' : Lexer) :
  moved l l' -> (remaining l' <= remaining l)%nat.
Proof. intros (_ & C & _ & O). unfold remaining. rewrite C. lia. Qed.

Lemma lexer_lex_ml_comment_loop_returns (fuel : nat) :
  forall ch a l, (remaining l + 3 <= fuel)%nat ->
  exists l', lexer_lex_ml_comment_loop fuel ch a l = Ok l'.
Proof.
  induction fuel as [|f IH]; intros ch a l Hf; [lia|]. simpl.
  destruct (negb (Byte.eqb ch nullchar) && negb (Byte.eqb ch "/"%byte && a));
    [|eauto].
  destruct (lexer_lex_ml_comment_skip_returns ch l (fuel := f)) as ([ch1 l1] & E);
    [lia|].
  rewrite E; simpl.
  apply lexer_lex_ml_comment_skip_moved, moved_remaining in E.
  destruct (Z_lt_le_dec (offset l1) (buffer_capacity l1)) as [Hlt|Hge].
  - pose proof (lexer_advance_remaining l1 Hlt) as R.
    destruct (lexer_advance l1) as [ch2 l2]; simpl in R.
    apply IH. lia.
  - rewrite (lexer_advance_at_end l1 Hge).
    destruct f as [|f']; [lia|]. simpl. eauto.
Qed.

Lemma lexer_lex_sl_comment_returns (fuel : nat) (l : Lexer) :
  (remaining l + 2 <= fuel)%nat -> exists l', lexer_lex_sl_comment fuel l = Ok l'.
Proof.
  intros Hf. unfold lexer_lex_sl_comment.
  pose proof (lexer_advance_remaining_le l) as R.
  destruct (lexer_advance l) as [ch l1]; simpl in R.
  apply lexer_lex_sl_comment_loop_returns. lia.
Qed.

Lemma lexer_lex_ml_comment_returns (fuel : nat) (l : Lexer) :
  (remaining l + 3 <= fuel)%nat -> exists l', lexer_lex_ml_comment fuel l = Ok l'.
Proof.
  intros Hf. unfold lexer_lex_ml_comment.
  pose proof (lexer_advance_remaining_le l) as R.
  destruct (lexer_advance l) as [ch l1]; simpl in R.
  destruct (lexer_lex_ml_comment_loop_returns ch false l1 (fuel := fuel)) as (l2 & ->);
    [lia|].
  simpl; eauto.
Qed.

Lemma lexer_lex_step_at_end (fuel : nat) (l : Lexer) :
  buffer_capacity l <= offset l -> lexer_lex_step fuel l = Ok (l, true).
Proof.
  intros H. unfold lexer_lex_step. rewrite (lexer_advance_at_end l H).
  reflexivity.
Qed.

End LexerReturns.

(** X4.  Every loop of the scanners other than the one of
    [lexer_lex_string] ends, wherever the lexer stands and whatever the
    text is: the two comment scanners return, and so do the loops of
    [lexer_lex_identifier] and [lexer_lex_digit], within three iterations
    more than the text has characters left.  They are left when
    [lexer_advance] returns NUL at the end of the text, which the loop of
    the string scanner does not test for. *)
Theorem lexer_scanner_loops_end (l : Lexer) (ch : byte) (extra : nat) :
  (exists l', lexer_lex_sl_comment (remaining l + 3 + extra) l = Ok l') /\
  (exists l', lexer_lex_ml_comment (remaining l + 3 + extra) l = Ok l') /\
  (exists l', lexer_lex_identifier_loop (remaining l + 3 + extra) ch l = Ok l') /\
  (exists l', lexer_lex_digit_loop (remaining l + 3 + extra) ch l = Ok l').
Proof.
  split; [apply lexer_lex_sl_comment_returns; lia|].
  split; [apply lexer_lex_ml_comment_returns; lia|].
  split; [apply lexer_lex_identifier_loop_returns; lia|].
  apply lexer_lex_digit_loop_returns; lia.
Qed.
(** * The lexer on texts given by their characters *)

Section LexerTexts.

Lemma buf_at_middle (pre rest : list byte) (c : byte) :
  buf_at (pre ++ c :: rest) (Z.of_nat (List.length pre)) = c.
Proof.
  unfold buf_at. destruct (Z.of_nat (List.length pre) <? 0) eqn:E; [apply Z.ltb_lt in E; lia|].
  rewrite Nat2Z.id. apply nth_middle.
Qed.

(** [lexer_advance] inside the text: the character is read and the lexer
    stands one further. *)
Lemma lexer_advance_reads (l : Lexer) (pre rest : list byte) (c : byte) :
  buffer l = pre ++ c :: rest -> offset l = Z.of_nat (List.length pre) ->
  offset l < buffer_capacity l ->
  lexer_advance l = (c, set_position l (offset l + 1) (lineno l) (colno l + 1)).
Proof.
  intros B O C. unfold lexer_advance.
  destruct (offset l >=? buffer_capacity l) eqn:E; [apply Z.geb_le in E; lia|].
  simpl. rewrite B, O, buf_at_middle. reflexivity.
Qed.

Lemma substr_middle (xs : list byte) :
  forall pre rest,
    substr (pre ++ xs ++ rest) (Z.of_nat (List.length pre)) (Z.of_nat (List.length xs)) = xs.
Proof.
  unfold substr. induction xs as [|x xs IH]; intros pre rest; [reflexivity|].
  rewrite Nat2Z.id. simpl List.length. simpl seq. simpl map.
  f_equal.
  - rewrite Z.add_0_r. apply buf_at_middle.
  - rewrite <- seq_shift, map_map.
    specialize (IH (pre ++ [x]) rest).
    rewrite Nat2Z.id in IH. rewrite <- app_assoc in IH. simpl in IH.
    rewrite <- IH at 2. apply map_ext. intros i.
    f_equal. rewrite length_app. simpl. lia.
Qed.

Lemma inside_buffer_of_nat (n : nat) : inside_buffer (Z.of_nat n) = Ok tt.
Proof.
  unfold inside_buffer.
  destruct (Z.of_nat n <? 0) eqn:E; [apply Z.ltb_lt in E; lia | reflexivity].
Qed.

Lemma set_position_same (l : Lexer) (o c : Z) :
  o = offset l -> c = colno l -> set_position l o (lineno l) c = l.
Proof. intros -> ->. destruct l; reflexivity. Qed.



Lemma lexer_lex_switch_letter (fuel : nat) (curr next : byte) (l : Lexer) :
  isLetter curr = true ->
  lexer_lex_switch fuel curr next l =
    (l' <- lexer_lex_identifier fuel l ;; Ok (l', SwitchBreak None)).
Proof. intros H. destruct curr; try discriminate H; reflexivity. Qed.

End LexerTexts.





(** X7.  A one-letter identifier that ends the text.  When the letter [x]
    is the last character of the text and [b] is the character before it,
    the pass appends an [IDENTIFIER] token whose value is [b], not [x]:
    the slice starts at [prev_offset - 1] and is one character long. *)
Theorem lexer_last_letter_gets_value_of_character_before (fuel : nat)
    (l : Lexer) (pre rest : list byte) (b x : byte) :
  buffer l = pre ++ b :: x :: rest ->
  offset l = Z.of_nat (List.length pre) + 1 ->
  buffer_capacity l = Z.of_nat (List.length pre) + 2 ->
  isLetter x = true ->
  (1 <= fuel)%nat ->
  lexer_lex_step fuel l =
    Ok (lexer_makeidenttoken
          (set_position l (buffer_capacity l) (lineno l) (colno l + 1))
          [b],
        false).
Proof.
  intros B O C Hx Hf. unfold lexer_lex_step.
  assert (B0 : buffer l = (pre ++ [b]) ++ x :: rest).
  { rewrite <- app_assoc. exact B. }
  assert (O0 : offset l = Z.of_nat (List.length (pre ++ [b]))).
  { rewrite length_app. simpl. lia. }
  rewrite (@lexer_advance_reads l (pre ++ [b]) rest x B0 O0); [|lia].
  rewrite lexer_lex_switch_letter; [|exact Hx].
  set (l1 := set_position l (offset l + 1) (lineno l) (colno l + 1)).
  unfold lexer_lex_identifier.
  rewrite (lexer_advance_at_end l1); [|simpl; lia].
  destruct fuel as [|f]; [lia|].
  simpl.
  replace (offset l + 1 - (offset l + 1 - 1) =? 0)
    with false by (symmetry; apply Z.eqb_neq; lia).
  simpl. unfold lexer_makeidenttoken, set_position; simpl.
  assert (V : substr (buffer l) (offset l + 1 - 1 - 1)
                (offset l + 1 - (offset l + 1 - 1)) = [b]).
  { replace (offset l + 1 - 1 - 1) with (Z.of_nat (List.length pre)) by lia.
    replace (offset l + 1 - (offset l + 1 - 1))
      with (Z.of_nat (List.length [b])) by (simpl; lia).
    rewrite B. change (b :: x :: rest) with ([b] ++ x :: rest).
    apply substr_middle. }
  rewrite V.
  replace (offset l + 1 - 1 - 1) with (Z.of_nat (List.length pre)) by lia.
  rewrite inside_buffer_of_nat. simpl.
  subst l1. unfold set_position.
  repeat (f_equal; try lia).
Qed.

(** X7, on the last pass over the text [1+x]: the token of [x] carries the
    plus sign. *)
Lemma lexer_last_letter_gets_value_of_character_before_witness :
  lexer_lex_step 5
    (set_position (lexer_init (list_byte_of_string "1+x")) 2 1 3) =
    Ok (lexer_makeidenttoken
          (set_position
             (set_position (lexer_init (list_byte_of_string "1+x")) 2 1 3)
             3 1 (3 + 1))
          ["+"%byte],
        false).
Proof.
  apply (@lexer_last_letter_gets_value_of_character_before 5
           (set_position (lexer_init (list_byte_of_string "1+x")) 2 1 3)
           ["1"%byte] [] "+"%byte "x"%byte);
    try reflexivity; simpl; lia.
Defined.

Section BlankTexts.

Lemma newlines_cons (c : byte) (b : list byte) :
  newlines (c :: b) = (if Byte.eqb c "010"%byte then 1 else 0) + newlines b.
Proof.
  unfold newlines. simpl. destruct (Byte.eqb c "010"%byte); simpl List.length; lia.
Qed.

Lemma lexer_lex_step_blank (fuel : nat) (l : Lexer) (pre rest : list byte)
    (c : byte) :
  buffer l = pre ++ c :: rest -> offset l = Z.of_nat (List.length pre) ->
  offset l < buffer_capacity l -> is_blank c = true ->
  lexer_lex_step fuel l =
    Ok (set_position l (offset l + 1)
          (lineno l + (if Byte.eqb c "010"%byte then 1 else 0))
          (if Byte.eqb c "010"%byte then 1 else colno l + 1),
        false).
Proof.
  intros B O C H. unfold lexer_lex_step.
  rewrite (@lexer_advance_reads l pre rest c B O C).
  destruct c; try discriminate H; simpl;
    unfold LEXER_RESET_COLNO, LEXER_INCREMENT_LINENO, set_position; simpl;
    repeat (f_equal; try lia).
Qed.

Lemma lexer_lex_loop_blank (ys : list byte) :
  forall pre l fuel,
    buffer l = pre ++ ys -> offset l = Z.of_nat (List.length pre) ->
    buffer_capacity l = Z.of_nat (List.length pre + List.length ys) ->
    Forall (fun c => is_blank c = true) ys ->
    (List.length ys + 1 <= fuel)%nat ->
    exists col,
      lexer_lex_loop fuel l =
        Ok (set_position l (buffer_capacity l) (lineno l + newlines ys) col).
Proof.
  induction ys as [|c ys IH]; intros pre l fuel B O C F Hf;
    (destruct fuel as [|f]; [simpl in Hf; lia|]); simpl lexer_lex_loop.
  - rewrite lexer_lex_step_at_end; [|simpl in C; lia]. simpl.
    exists (colno l). f_equal. destruct l; unfold set_position, newlines; simpl in *.
    f_equal; lia.
  - inversion F as [|? ? Hc F']; subst. simpl in C, Hf.
    rewrite (@lexer_lex_step_blank f l pre ys c B O); [|lia|exact Hc].
    simpl.
    destruct (IH (pre ++ [c])
                (set_position l (offset l + 1)
                   (lineno l + (if Byte.eqb c "010"%byte then 1 else 0))
                   (if Byte.eqb c "010"%byte then 1 else colno l + 1)) f)
      as (col & ->); try assumption.
    + simpl. rewrite <- app_assoc. exact B.
    + simpl. rewrite length_app. simpl. lia.
    + simpl. rewrite length_app. simpl. lia.
    + lia.
    + exists col. f_equal. rewrite newlines_cons.
      unfold set_position; simpl. f_equal. lia.
Qed.

Lemma strlen_blank (b : list byte) :
  Forall (fun c => is_blank c = true) b -> strlen b = Z.of_nat (List.length b).
Proof.
  induction 1 as [|c b Hc F IH]; [reflexivity|].
  assert (E : Byte.eqb c nullchar = false)
    by (destruct c; try discriminate Hc; reflexivity).
  change (strlen (c :: b))
    with (if Byte.eqb c nullchar then 0 else 1 + strlen b).
  rewrite E, IH.
  change (List.length (c :: b)) with (S (List.length b)). lia.
Qed.

Lemma buf_at_0_blank (b : list byte) :
  Forall (fun c => is_blank c = true) b -> Byte.eqb (buf_at b 0) xef = false.
Proof.
  intros F. destruct F as [|c b Hc F]; [reflexivity|].
  unfold buf_at; simpl. destruct c; try discriminate Hc; reflexivity.
Qed.

End BlankTexts.

(** X8.  A text made of spaces, tabs, carriage returns and newlines only
    is lexed to the single token [TOK_EOF]; the token records the length of
    the text as its offset and one more than the number of newlines as its
    line.  Fuel of one more than the length of the text is enough. *)
Theorem lex_blank_text_gives_only_EOF (buf : list byte) (extra : nat) :
  Forall (fun c => is_blank c = true) buf ->
  exists col,
    lex (List.length buf + 1 + extra) buf =
      Ok [ mkToken TOK_EOF (Z.of_nat (List.length buf)) col (1 + newlines buf)
             (Canonical TOK_EOF) ].
Proof.
  intros F. unfold lex, lexer_lex.
  change (buffer (lexer_init buf)) with buf.
  rewrite (buf_at_0_blank F). cbn [andb].
  destruct (@lexer_lex_loop_blank buf [] (lexer_init buf)
              (List.length buf + 1 + extra)) as (col & ->);
    try reflexivity; try assumption.
  - simpl. apply strlen_blank; exact F.
  - lia.
  - exists col. simpl. rewrite (strlen_blank F). reflexivity.
Qed.

(** X8, on a text of two lines of blanks. *)
Lemma lex_blank_text_gives_only_EOF_witness :
  exists col,
    lex (List.length [" "; "009"; "010"; " "]%byte + 1 + 0)
        [" "; "009"; "010"; " "]%byte =
      Ok [ mkToken TOK_EOF (Z.of_nat (List.length [" "; "009"; "010"; " "]%byte))
             col (1 + newlines [" "; "009"; "010"; " "]%byte)
             (Canonical TOK_EOF) ].
Proof.
  apply (@lex_blank_text_gives_only_EOF [" "; "009"; "010"; " "]%byte 0).
  repeat constructor.
Defined.

Section EndOfText.

Lemma strlen_nonneg (b : list byte) : 0 <= strlen b.
Proof.
  induction b as [|c b IH]; [simpl; lia|].
  change (strlen (c :: b))
    with (if Byte.eqb c nullchar then 0 else 1 + strlen b).
  destruct (Byte.eqb c nullchar); lia.
Qed.

(** The characters before the end of the C string are not NUL. *)
Lemma buf_at_before_strlen (b : list byte) :
  forall i, 0 <= i < strlen b -> buf_at b i <> nullchar.
Proof.
  induction b as [|c b IH]; intros i H; [simpl in H; lia|].
  change (strlen (c :: b))
    with (if Byte.eqb c nullchar then 0 else 1 + strlen b) in H.
  destruct (Byte.eqb c nullchar) eqn:E; [lia|].
  unfold buf_at. destruct (i <? 0) eqn:N; [apply Z.ltb_lt in N; lia|].
  destruct (Z.to_nat i) as [|k] eqn:K; simpl.
  - intros ->. discriminate E.
  - specialize (IH (i - 1)). unfold buf_at in IH.
    destruct (i - 1 <? 0) eqn:N'; [apply Z.ltb_lt in N'; lia|].
    replace (Z.to_nat (i - 1)) with k in IH by lia.
    apply IH. lia.
Qed.

(** The loop is left at [lex_eof] only when the character read is NUL. *)
Lemma lexer_lex_step_eof_nul (fuel : nat) (l l' : Lexer) :
  lexer_lex_step fuel l = Ok (l', true) -> fst (lexer_advance l) = nullchar.
Proof.
  unfold lexer_lex_step. intros H.
  destruct (lexer_advance l) as [curr l1]; simpl.
  apply bind_Ok in H. destruct H as ([l2 fl] & H1 & H).
  destruct fl as [|[k|]]; inversion H; subst; clear H.
  unfold lexer_lex_switch in H1.
  destruct curr; try reflexivity;
    repeat match type of H1 with
           | (if ?b then _ else _) = _ => destruct b
           | _ => progress cbv zeta in H1
           end;
    first [ discriminate H1
          | apply bind_Ok in H1; destruct H1 as (? & _ & H1); discriminate ].
Qed.

Lemma lexer_lex_loop_reaches_end (fuel : nat) :
  forall l l', lexer_lex_loop fuel l = Ok l' ->
  buffer_capacity l = strlen (buffer l) -> 0 <= offset l ->
  buffer_capacity l <= offset l'.
Proof.
  induction fuel as [|f IH]; simpl; intros l l' H C O; [discriminate|].
  apply bind_Ok in H. destruct H as ([l1 at_eof] & H1 & H).
  destruct at_eof.
  - inversion H; subst; clear H.
    pose proof (lexer_lex_step_eof_nul _ _ H1) as N.
    destruct (lexer_lex_step_grown _ _ H1) as (_ & G & _).
    destruct (Z_lt_le_dec (offset l) (buffer_capacity l)) as [Hlt|Hge]; [|lia].
    exfalso. revert N. unfold lexer_advance.
    destruct (offset l >=? buffer_capacity l) eqn:E; [apply Z.geb_le in E; lia|].
    simpl. apply buf_at_before_strlen. lia.
  - apply lexer_lex_step_appended in H1.
    destruct H1 as (ts & (B & C1 & _) & Hlt).
    rewrite <- C1. apply IH; [exact H | rewrite C1, B; exact C | lia].
Qed.

End EndOfText.

(** X9.  The lexer stops only at the end of the text: in a token list that
    [lex] returns, the last token is the [TOK_EOF] token and the offset it
    records is not before the end of the text (the first NUL byte, or the
    end of the buffer). *)
Theorem lex_EOF_token_at_end_of_text (fuel : nat) (buf : list byte)
    (toks : list Token) :
  lex fuel buf = Ok toks ->
  exists pre eof,
    toks = pre ++ [eof] /\ tok_kind eof = TOK_EOF /\
    strlen buf <= tok_offset eof.
Proof.
  unfold lex, lexer_lex. intros H.
  apply bind_Ok in H. destruct H as (l & H & E). inversion E; subst; clear E.
  apply bind_Ok in H. destruct H as (l' & H & E). inversion E; subst; clear E.
  apply lexer_lex_loop_reaches_end in H.
  - eexists; eexists. split; [reflexivity|]. split; [reflexivity|].
    simpl. revert H.
    destruct (_ && _); [unfold lexer_advancen;
                        destruct (_ >=? _)|]; simpl; intros H; exact H.
  - destruct (_ && _); [unfold lexer_advancen; destruct (_ >=? _)|]; reflexivity.
  - pose proof (strlen_nonneg buf).
    destruct (_ && _); [unfold lexer_advancen; destruct (_ >=? _)|]; simpl; lia.
Qed.

(** X9, on a text in which a NUL byte ends the C string early. *)
Lemma lex_EOF_token_at_end_of_text_witness :
  exists pre eof,
    [ mkToken SEMICOLON 1 2 1 (Canonical SEMICOLON);
      mkToken TOK_EOF 1 2 1 (Canonical TOK_EOF) ] = pre ++ [eof] /\
    tok_kind eof = TOK_EOF /\
    strlen [";"; "000"; "+"]%byte <= tok_offset eof.
Proof.
  apply (@lex_EOF_token_at_end_of_text 5 [";"; "000"; "+"]%byte).
  vm_compute. reflexivity.
Defined.

Section SmallFunctions.

Lemma lexer_advance_times_inside (n : nat) :
  forall l, offset l + Z.of_nat n <= buffer_capacity l ->
  lexer_advance_times n l =
    set_position l (offset l + Z.of_nat n) (lineno l) (colno l + Z.of_nat n).
Proof.
  unfold lexer_advance_times.
  induction n as [|n IH]; intros l H.
  - simpl. destruct l; unfold set_position; simpl. f_equal; lia.
  - simpl Nat.iter. rewrite IH; [|lia].
    unfold lexer_advance. simpl offset. simpl buffer_capacity.
    destruct (offset l + Z.of_nat n >=? buffer_capacity l) eqn:E;
      [apply Z.geb_le in E; lia|].
    unfold LEXER_INCREMENT_COLNO, set_position; simpl. f_equal; lia.
Qed.

End SmallFunctions.

(** X10.  Inside the text, [lexer_advancen] by [n] does what [n] calls of
    [lexer_advance] do to the lexer, and the character it returns is the
    one on which it lands, which [lexer_peekn] shows beforehand. *)
Theorem lexer_advancen_is_repeated_advance (l : Lexer) (n : nat) :
  offset l + Z.of_nat n < buffer_capacity l ->
  lexer_advancen l (Z.of_nat n) =
    (lexer_peekn l (Z.of_nat n), lexer_advance_times n l) /\
  lexer_peek (lexer_advance_times n l) = lexer_peekn l (Z.of_nat n).
Proof.
  intros H. rewrite lexer_advance_times_inside; [|lia].
  unfold lexer_advancen, lexer_peekn, lexer_peek.
  destruct (offset l + Z.of_nat n >=? buffer_capacity l) eqn:E;
    [apply Z.geb_le in E; lia|].
  split; reflexivity.
Qed.

(** X10, two characters into a text of four. *)
Lemma lexer_advancen_is_repeated_advance_witness :
  lexer_advancen (lexer_init (list_byte_of_string "abcd")) (Z.of_nat 2) =
    (lexer_peekn (lexer_init (list_byte_of_string "abcd")) (Z.of_nat 2),
     lexer_advance_times 2 (lexer_init (list_byte_of_string "abcd"))) /\
  lexer_peek (lexer_advance_times 2 (lexer_init (list_byte_of_string "abcd")))
    = lexer_peekn (lexer_init (list_byte_of_string "abcd")) (Z.of_nat 2).
Proof.
  apply (@lexer_advancen_is_repeated_advance
           (lexer_init (list_byte_of_string "abcd")) 2).
  simpl. lia.
Defined.

(** X11.  [lexer_advancen] cannot step onto the end of the text: when [n]
    characters are left, [n] calls of [lexer_advance] consume them and
    reach the end, while [lexer_advancen] by [n] returns NUL and leaves the
    lexer where it is. *)
Theorem lexer_advancen_stops_short_of_the_end (l : Lexer) (n : nat) :
  offset l + Z.of_nat n = buffer_capacity l ->
  lexer_advancen l (Z.of_nat n) = (nullchar, l) /\
  offset (lexer_advance_times n l) = buffer_capacity l.
Proof.
  intros H. rewrite lexer_advance_times_inside; [|lia].
  unfold lexer_advancen.
  destruct (offset l + Z.of_nat n >=? buffer_capacity l) eqn:E.
  - split; [reflexivity | simpl; exact H].
  - rewrite Z.geb_leb in E. apply Z.leb_gt in E. lia.
Qed.

(** X11, on a text that is a byte-order mark and nothing else. *)
Lemma lexer_advancen_stops_short_of_the_end_witness :
  lexer_advancen (lexer_init BOM) (Z.of_nat 3) = (nullchar, lexer_init BOM) /\
  offset (lexer_advance_times 3 (lexer_init BOM)) = buffer_capacity (lexer_init BOM).
Proof.
  apply (@lexer_advancen_stops_short_of_the_end (lexer_init BOM) 3).
  reflexivity.
Defined.

(** X12.  [lexer_prev] returns the character that [lexer_advance] has just
    consumed, whatever its argument [n] is: the argument is not used. *)
Theorem lexer_prev_after_advance (l : Lexer) (n : Z) :
  0 <= offset l < buffer_capacity l ->
  lexer_prev (snd (lexer_advance l)) n = fst (lexer_advance l).
Proof.
  intros H. unfold lexer_prev, lexer_advance.
  destruct (offset l >=? buffer_capacity l) eqn:E; [apply Z.geb_le in E; lia|].
  simpl.
  destruct (offset l + 1 =? 0) eqn:Z0; [apply Z.eqb_eq in Z0; lia|].
  replace (offset l + 1 - 1) with (offset l) by lia. reflexivity.
Qed.

(** X12, at the start of the text [ab] and with 7 for [n]. *)
Lemma lexer_prev_after_advance_witness :
  lexer_prev (snd (lexer_advance (lexer_init (list_byte_of_string "ab")))) 7
  = fst (lexer_advance (lexer_init (list_byte_of_string "ab"))).
Proof.
  apply (@lexer_prev_after_advance (lexer_init (list_byte_of_string "ab")) 7).
  simpl. lia.
Defined.

(** X13.  [lexer_lex_char] moves two characters for the one it reads: when
    the character at the lexer's place is inside the text and not NUL, the
    offset grows by 2, so that from the last character of the text the
    lexer ends beyond the end; and the line grows by one exactly when the
    character read is a newline. *)
Theorem lexer_lex_char_moves_two (l : Lexer) :
  offset l < buffer_capacity l ->
  LEXER_CURR_CHAR l <> nullchar ->
  offset (lexer_lex_char l) = offset l + 2 /\
  lineno (lexer_lex_char l) =
    lineno l + (if Byte.eqb (LEXER_CURR_CHAR l) "010"%byte then 1 else 0).
Proof.
  intros H N. unfold lexer_lex_char, lexer_advance, LEXER_CURR_CHAR in *.
  destruct (offset l >=? buffer_capacity l) eqn:E; [apply Z.geb_le in E; lia|].
  simpl.
  destruct (Byte.eqb (buf_at (buffer l) (offset l)) nullchar) eqn:Z0.
  - exfalso. apply N. apply Byte.byte_dec_bl. exact Z0.
  - simpl. destruct (Byte.eqb (buf_at (buffer l) (offset l)) "010"%byte);
      simpl; split; lia.
Qed.

(** X13, on the one-character text [a]: the offset ends at 2. *)
Lemma lexer_lex_char_moves_two_witness :
  offset (lexer_lex_char (lexer_init (list_byte_of_string "a")))
    = offset (lexer_init (list_byte_of_string "a")) + 2 /\
  lineno (lexer_lex_char (lexer_init (list_byte_of_string "a"))) =
    lineno (lexer_init (list_byte_of_string "a"))
    + (if Byte.eqb (LEXER_CURR_CHAR (lexer_init (list_byte_of_string "a")))
                   "010"%byte then 1 else 0).
Proof.
  apply (@lexer_lex_char_moves_two (lexer_init (list_byte_of_string "a"))).
  - simpl. lia.
  - discriminate.
Defined.

Section TokensAndMessages.

Lemma advanced_well_made (l l' : Lexer) :
  advanced l l' -> well_made l -> well_made l'.
Proof.
  intros (_ & _ & T & E & _) (W1 & W2). unfold well_made.
  rewrite T, E. split; assumption.
Qed.

Lemma lexer_maketoken_well_made (l : Lexer) (k : TokenKind) :
  carries_text k = false -> well_made l -> well_made (lexer_maketoken l k).
Proof.
  intros K (W1 & W2). unfold well_made; simpl. split; [|exact W2].
  apply Forall_app; split; [exact W1|]. constructor; [|constructor].
  unfold value_fits; simpl. rewrite K.
  destruct k; reflexivity.
Qed.

Lemma lexer_lex_identifier_well_made (fuel : nat) (l l' : Lexer) :
  lexer_lex_identifier fuel l = Ok l' -> well_made l -> well_made l'.
Proof.
  unfold lexer_lex_identifier. intros H W.
  pose proof (lexer_advance_advanced l) as M.
  destruct (lexer_advance l) as [ch l1]; simpl in M.
  apply bind_Ok in H. destruct H as (l2 & H1 & H).
  apply bind_Ok in H. destruct H as (u & _ & H).
  apply bind_Ok in H. destruct H as (u' & _ & H).
  inversion H; subst; clear H.
  apply lexer_lex_identifier_loop_advanced in H1.
  destruct (advanced_well_made (advanced_trans M H1) W) as (W1 & W2).
  unfold well_made; simpl. split; [|exact W2].
  apply Forall_app; split; [exact W1 | repeat constructor].
Qed.

Lemma lexer_lex_digit_well_made (fuel : nat) (l l' : Lexer) :
  lexer_lex_digit fuel l = Ok l' -> well_made l -> well_made l'.
Proof.
  unfold lexer_lex_digit. intros H W.
  apply bind_Ok in H. destruct H as (l1 & H1 & H).
  inversion H; subst; clear H.
  apply lexer_lex_digit_loop_advanced in H1.
  apply lexer_maketoken_well_made; [reflexivity|].
  eapply advanced_well_made; eassumption.
Qed.

Lemma lexer_lex_string_well_made (fuel : nat) (l l' : Lexer) :
  lexer_lex_string fuel l = Ok l' -> well_made l -> well_made l'.
Proof.
  unfold lexer_lex_string. intros H W.
  apply bind_Ok in H. destruct H as (u0 & _ & H).
  pose proof (lexer_advance_advanced l) as M.
  destruct (lexer_advance l) as [ch l1]; simpl in M.
  apply bind_Ok in H. destruct H as ([ch' l2] & H1 & H).
  apply bind_Ok in H. destruct H as (u1 & _ & H).
  apply bind_Ok in H. destruct H as (u2 & _ & H).
  inversion H; subst; clear H.
  apply lexer_lex_string_loop_advanced in H1.
  destruct (advanced_well_made (advanced_trans M H1) W) as (W1 & W2).
  unfold well_made; simpl. split; [|exact W2].
  apply Forall_app; split; [exact W1 | repeat constructor].
Qed.

Lemma lexer_lex_sl_comment_well_made (fuel : nat) (l l' : Lexer) :
  lexer_lex_sl_comment fuel l = Ok l' -> well_made l -> well_made l'.
Proof.
  intros H. apply advanced_well_made.
  eapply lexer_lex_sl_comment_advanced; eassumption.
Qed.

Lemma lexer_lex_ml_comment_well_made (fuel : nat) (l l' : Lexer) :
  lexer_lex_ml_comment fuel l = Ok l' -> well_made l -> well_made l'.
Proof.
  intros H. apply advanced_well_made.
  eapply lexer_lex_ml_comment_advanced; eassumption.
Qed.

Ltac made_leaf H W :=
  let W1 := fresh "W" in
  let W2 := fresh "W" in
  inversion H; subst; clear H;
  destruct W as (W1 & W2);
  split;
  [ unfold well_made; simpl; split;
    [ first [ exact W1
            | apply Forall_app; split; [exact W1 | repeat constructor] ]
    | first [ exact W2
            | apply Forall_app; split; [exact W2 | repeat constructor] ] ]
  | intros k E; inversion E; reflexivity ].

Ltac made_scan H W lem :=
  apply bind_Ok in H;
  let l1 := fresh "l" in
  let H1 := fresh "H" in
  destruct H as (l1 & H1 & H);
  inversion H; subst; clear H;
  split; [ eapply lem; eassumption | discriminate ].

Lemma lexer_lex_switch_well_made (fuel : nat) (curr next : byte) (l l' : Lexer)
    (fl : flow) :
  lexer_lex_switch fuel curr next l = Ok (l', fl) -> well_made l ->
  well_made l' /\
  (forall k, fl = SwitchBreak (Some k) -> carries_text k = false).
Proof.
  intros H W. unfold lexer_lex_switch in H.
  destruct curr;
    repeat match type of H with
           | (if ?b then _ else _) = _ => destruct b
           | _ => progress cbv zeta in H
           end;
    first [ made_leaf H W
          | made_scan H W lexer_lex_identifier_well_made
          | made_scan H W lexer_lex_digit_well_made
          | made_scan H W lexer_lex_string_well_made
          | made_scan H W lexer_lex_sl_comment_well_made
          | made_scan H W lexer_lex_ml_comment_well_made ].
Qed.

Lemma lexer_lex_step_well_made (fuel : nat) (l l' : Lexer) (at_eof : bool) :
  lexer_lex_step fuel l = Ok (l', at_eof) -> well_made l -> well_made l'.
Proof.
  unfold lexer_lex_step. intros H W.
  pose proof (lexer_advance_advanced l) as M.
  destruct (lexer_advance l) as [curr l1]; simpl in M.
  apply (advanced_well_made M) in W.
  apply bind_Ok in H. destruct H as ([l2 fl] & H1 & H).
  eapply lexer_lex_switch_well_made in H1; [|exact W].
  destruct H1 as (W' & K).
  destruct fl as [|[k|]]; inversion H; subst; clear H; try exact W'.
  apply lexer_maketoken_well_made; [apply K; reflexivity | exact W'].
Qed.

Lemma lexer_lex_loop_well_made (fuel : nat) :
  forall l l', lexer_lex_loop fuel l = Ok l' -> well_made l -> well_made l'.
Proof.
  induction fuel as [|f IH]; simpl; intros l l' H W; [discriminate|].
  apply bind_Ok in H. destruct H as ([l1 at_eof] & H1 & H).
  apply lexer_lex_step_well_made in H1; [|exact W].
  destruct at_eof; [inversion H; subst; exact H1 | eapply IH; eassumption].
Qed.

Lemma lexer_lex_well_made (fuel : nat) (buf : list byte) (l' : Lexer) :
  lexer_lex fuel (lexer_init buf) = Ok l' -> well_made l'.
Proof.
  unfold lexer_lex. intros H.
  apply bind_Ok in H. destruct H as (l1 & H & E). inversion E; subst; clear E.
  apply lexer_maketoken_well_made; [reflexivity|].
  apply lexer_lex_loop_well_made in H; [exact H|].
  destruct (_ && _);
    [unfold lexer_advancen; destruct (_ >=? _)|]; split; constructor.
Qed.

Lemma lexer_lex_digit_loop_run (ys : list byte) :
  forall zs d ch pre rest fuel l,
    ch :: ys = zs ++ [d] ->
    Forall (fun c => isDigit c = true) zs -> isDigit d = false ->
    buffer l = pre ++ ys ++ rest -> offset l = Z.of_nat (List.length pre) ->
    Z.of_nat (List.length pre + List.length ys) <= buffer_capacity l ->
    (List.length ys + 1 <= fuel)%nat ->
    lexer_lex_digit_loop fuel ch l =
      Ok (set_position l (offset l + Z.of_nat (List.length ys)) (lineno l)
            (colno l + Z.of_nat (List.length ys))).
Proof.
  induction ys as [|y ys IH]; intros zs d ch pre rest fuel l E Fz Hd B O C Hf.
  - destruct zs as [|z zs]; [|destruct zs; discriminate].
    inversion E; subst. destruct fuel as [|f]; [simpl in Hf; lia|].
    simpl. rewrite Hd.
    rewrite set_position_same; [reflexivity | lia | lia].
  - destruct zs as [|z zs]; [discriminate|].
    simpl in E. inversion E as [[Ez E']]; subst z.
    inversion Fz as [|? ? Hch Fz']; subst.
    destruct fuel as [|f]; [simpl in Hf; lia|].
    simpl lexer_lex_digit_loop. rewrite Hch.
    simpl in B, C, Hf.
    rewrite (@lexer_advance_reads l pre (ys ++ rest) y B O); [|lia].
    rewrite (IH zs d y (pre ++ [y]) rest f
               (set_position l (offset l + 1) (lineno l) (colno l + 1)));
      try assumption.
    + f_equal. unfold set_position; simpl. f_equal; lia.
    + simpl. rewrite <- app_assoc. exact B.
    + simpl. rewrite length_app. simpl. lia.
    + simpl. rewrite length_app. simpl. lia.
    + lia.
Qed.

Lemma lexer_lex_switch_digit (fuel : nat) (curr next : byte) (l : Lexer) :
  isDigit curr = true -> curr <> "0"%byte ->
  lexer_lex_switch fuel curr next l =
    (l' <- lexer_lex_digit fuel l ;; Ok (l', SwitchBreak None)).
Proof.
  intros H N. destruct curr; try discriminate H; try reflexivity.
  exfalso; apply N; reflexivity.
Qed.

End TokensAndMessages.

(** X14.  In a token list that [lex] returns, a token carries a piece of
    the text exactly when it is an [IDENTIFIER] or a [STRING]; the value
    of every other token is the name of its kind, as [lexer_maketoken]
    sets it.  In particular an [INTEGER] token does not keep the digits of
    the number. *)
Theorem lex_only_identifiers_and_strings_carry_text (fuel : nat)
    (buf : list byte) (toks : list Token) :
  lex fuel buf = Ok toks -> Forall (fun t => value_fits t = true) toks.
Proof.
  unfold lex. intros H.
  apply bind_Ok in H. destruct H as (l & H & E). inversion E; subst; clear E.
  apply lexer_lex_well_made in H. destruct H as (W & _). exact W.
Qed.

(** X14, on the text [x = 42 ;]. *)
Lemma lex_only_identifiers_and_strings_carry_text_witness :
  Forall (fun t => value_fits t = true)
    [ mkToken IDENTIFIER 2 3 1 (Text (list_byte_of_string "x"));
      mkToken EQUALS 3 4 1 (Canonical EQUALS);
      mkToken INTEGER 7 8 1 (Canonical INTEGER);
      mkToken SEMICOLON 8 9 1 (Canonical SEMICOLON);
      mkToken TOK_EOF 8 9 1 (Canonical TOK_EOF) ].
Proof.
  apply (@lex_only_identifiers_and_strings_carry_text 20
           (list_byte_of_string "x = 42 ;")).
  vm_compute. reflexivity.
Defined.

(** X15.  The only message the lexer writes to [stderr] is the one about
    an invalid character: when [lexer_lex] returns, every message written
    is about a character that has no case label in the switch.  Nothing
    else is reported: a block comment that is never closed, for one, gets
    no message. *)
Theorem lexer_lex_reports_only_invalid_characters (fuel : nat)
    (buf : list byte) (l' : Lexer) :
  lexer_lex fuel (lexer_init buf) = Ok l' ->
  Forall (fun d => has_case_label (diag_char d) = false) (errors l').
Proof.
  intros H. apply lexer_lex_well_made in H. destruct H as (_ & W). exact W.
Qed.

(** X15, on a text with an invalid character and an open block comment:
    one message, about the dollar sign. *)
Lemma lexer_lex_reports_only_invalid_characters_witness :
  Forall (fun d => has_case_label (diag_char d) = false)
    (errors
       (mkLexer (list_byte_of_string "$ /* c") 6 6
          [ mkToken TOK_ILLEGAL 1 2 1 (Canonical TOK_ILLEGAL);
            mkToken TOK_EOF 6 7 1 (Canonical TOK_EOF) ]
          1 7 [ mkDiagnostic "$"%byte 1 2 ])).
Proof.
  apply (@lexer_lex_reports_only_invalid_characters 20
           (list_byte_of_string "$ /* c")).
  vm_compute. reflexivity.
Defined.

(** X16.  A number inside the text.  When the lexer stands before a digit
    [x] other than 0, followed by the digits [xs] and then, still inside
    the text, by a character [d] that is no digit, one pass of the main
    loop appends one [INTEGER] token, which carries no digits.  When [xs]
    is empty the pass ends after [x]; otherwise it consumes [d] as well,
    and no token is made for [d]. *)
Theorem lexer_number_token_and_delimiter (fuel : nat) (l : Lexer)
    (pre xs rest : list byte) (x d : byte) :
  buffer l = pre ++ x :: xs ++ d :: rest ->
  offset l = Z.of_nat (List.length pre) ->
  Z.of_nat (List.length pre + List.length xs) + 1 < buffer_capacity l ->
  isDigit x = true -> x <> "0"%byte ->
  Forall (fun c => isDigit c = true) xs -> isDigit d = false ->
  (List.length xs + 2 <= fuel)%nat ->
  lexer_lex_step fuel l =
    Ok (lexer_maketoken
          (set_position l (offset l + 1 + digits_consumed xs) (lineno l)
             (colno l + 1 + digits_consumed xs))
          INTEGER,
        false).
Proof.
  intros B O C Hx Nx Fx Hd Hf. unfold lexer_lex_step.
  rewrite (@lexer_advance_reads l pre (xs ++ d :: rest) x B O); [|lia].
  rewrite lexer_lex_switch_digit; [|exact Hx|exact Nx].
  set (l1 := set_position l (offset l + 1) (lineno l) (colno l + 1)).
  assert (B1 : buffer l1 = (pre ++ [x]) ++ xs ++ d :: rest).
  { simpl. rewrite <- app_assoc. exact B. }
  assert (O1 : offset l1 = Z.of_nat (List.length (pre ++ [x]))).
  { simpl. rewrite length_app. simpl. lia. }
  unfold lexer_lex_digit, LEXER_CURR_CHAR.
  rewrite B1, O1.
  destruct xs as [|y ys].
  - simpl app. rewrite buf_at_middle.
    destruct fuel as [|f]; [simpl in Hf; lia|].
    simpl. rewrite Hd. simpl. subst l1.
    unfold lexer_maketoken, set_position; simpl.
    repeat (f_equal; try lia).
  - simpl app. rewrite buf_at_middle.
    inversion Fx as [|? ? Hy Fy]; subst.
    rewrite (@lexer_lex_digit_loop_run (y :: ys ++ [d]) (y :: y :: ys) d y
               (pre ++ [x]) rest fuel l1); try assumption.
    + simpl. subst l1. unfold lexer_maketoken, set_position; simpl.
      rewrite length_app. simpl List.length.
      repeat (f_equal; try lia).
    + reflexivity.
    + constructor; [exact Hy|]. constructor; assumption.
    + rewrite B1. f_equal. simpl. f_equal. rewrite <- app_assoc. reflexivity.
    + simpl. rewrite !length_app. simpl in *. lia.
    + simpl. rewrite !length_app. simpl in *. lia.
Qed.

(** X16, on the first pass over the text [42;7]: the pass ends at offset
    3, after the semicolon. *)
Lemma lexer_number_token_and_delimiter_witness :
  lexer_lex_step 5 (lexer_init (list_byte_of_string "42;7")) =
    Ok (lexer_maketoken
          (set_position (lexer_init (list_byte_of_string "42;7"))
             (0 + 1 + digits_consumed ["2"%byte]) 1
             (1 + 1 + digits_consumed ["2"%byte]))
          INTEGER,
        false).
Proof.
  apply (@lexer_number_token_and_delimiter 5
           (lexer_init (list_byte_of_string "42;7"))
           [] ["2"%byte] ["7"%byte] "4"%byte ";"%byte);
    try reflexivity; try (simpl; lia); try discriminate.
  repeat constructor.
Defined.

(** X17.  The empty string literal.  When the lexer stands before two
    double quotes, one pass of the main loop appends two tokens: a
    [STRING] token whose value is the two quotes, and, because
    [tokenkind] is left at [TOK_ILLEGAL], a [TOK_ILLEGAL] token; no
    message is written. *)
Theorem lexer_empty_string_gives_two_tokens (fuel : nat) (l : Lexer)
    (pre rest : list byte) :
  buffer l = pre ++ "034"%byte :: "034"%byte :: rest ->
  offset l = Z.of_nat (List.length pre) ->
  offset l < buffer_capacity l ->
  lexer_lex_step fuel l =
    Ok (lexer_maketoken
          (lexer_makestrtoken
             (set_position l (offset l + 2) (lineno l) (colno l + 2))
             ["034"%byte; "034"%byte])
          TOK_ILLEGAL,
        false).
Proof.
  intros B O C. unfold lexer_lex_step.
  rewrite (@lexer_advance_reads l pre ("034"%byte :: rest) "034"%byte B O C).
  assert (N : lexer_peek (set_position l (offset l + 1) (lineno l) (colno l + 1))
              = "034"%byte).
  { unfold lexer_peek; simpl. rewrite B.
    replace (offset l + 1) with (Z.of_nat (List.length (pre ++ ["034"%byte])))
      by (rewrite length_app; simpl; lia).
    change (pre ++ "034"%byte :: "034"%byte :: rest)
      with (pre ++ ["034"%byte] ++ "034"%byte :: rest).
    rewrite app_assoc. apply buf_at_middle. }
  rewrite N. simpl.
  unfold lexer_maketoken, lexer_makestrtoken, lexer_tokenlist_append,
    LEXER_INCREMENT_OFFSET, set_position; simpl.
  repeat (f_equal; try lia).
Qed.

(** X17, on the text made of two double quotes and a semicolon. *)
Lemma lexer_empty_string_gives_two_tokens_witness :
  lexer_lex_step 5 (lexer_init ["034"; "034"; ";"]%byte) =
    Ok (lexer_maketoken
          (lexer_makestrtoken
             (set_position (lexer_init ["034"; "034"; ";"]%byte) (0 + 2) 1 (1 + 2))
             ["034"%byte; "034"%byte])
          TOK_ILLEGAL,
        false).
Proof.
  apply (@lexer_empty_string_gives_two_tokens 5
           (lexer_init ["034"; "034"; ";"]%byte) [] [";"%byte]);
    reflexivity.
Defined.
(** * Further facts about the parser *)

Section MoreGrammarFacts.

Variable ast_parse_expr : Parser -> parsed.
Variable ast_parse_type_expr : Parser -> parsed.
Variable ast_parse_if_expr : Parser -> parsed.
Variable ast_parse_match_expr : Parser -> parsed.
Variable ast_parse_assignment_expr : Parser -> parsed.
Variable ast_parse_loop_c_statement : Parser -> parsed.
Variable ast_parse_loop_while_statement : Parser -> parsed.
Variable ast_parse_loop_in_statement : Parser -> parsed.

Local Abbreviation ast_parse_var_decl :=
  (ast_parse_var_decl ast_parse_expr ast_parse_type_expr).
Local Abbreviation ast_parse_if_prefix := (ast_parse_if_prefix ast_parse_expr).
Local Abbreviation ast_parse_loop_statement :=
  (ast_parse_loop_statement ast_parse_loop_c_statement
     ast_parse_loop_while_statement ast_parse_loop_in_statement).
Local Abbreviation ast_parse_statement :=
  (ast_parse_statement ast_parse_expr ast_parse_type_expr ast_parse_match_expr
     ast_parse_assignment_expr ast_parse_loop_c_statement
     ast_parse_loop_while_statement ast_parse_loop_in_statement).
Local Abbreviation ast_parse_if_statement :=
  (ast_parse_if_statement ast_parse_expr ast_parse_type_expr ast_parse_match_expr
     ast_parse_assignment_expr ast_parse_loop_c_statement
     ast_parse_loop_while_statement ast_parse_loop_in_statement).
Local Abbreviation ast_parse_labeled_statements :=
  (ast_parse_labeled_statements ast_parse_expr ast_parse_type_expr
     ast_parse_match_expr ast_parse_assignment_expr ast_parse_loop_c_statement
     ast_parse_loop_while_statement ast_parse_loop_in_statement).
Local Abbreviation ast_parse_block_expr :=
  (ast_parse_block_expr ast_parse_expr ast_parse_type_expr ast_parse_match_expr
     ast_parse_assignment_expr ast_parse_loop_c_statement
     ast_parse_loop_while_statement ast_parse_loop_in_statement).
Local Abbreviation ast_parse_block :=
  (ast_parse_block ast_parse_expr ast_parse_type_expr ast_parse_match_expr
     ast_parse_assignment_expr ast_parse_loop_c_statement
     ast_parse_loop_while_statement ast_parse_loop_in_statement).
Local Abbreviation ast_parse_block_expr_statement :=
  (ast_parse_block_expr_statement ast_parse_expr ast_parse_type_expr
     ast_parse_match_expr ast_parse_assignment_expr ast_parse_loop_c_statement
     ast_parse_loop_while_statement ast_parse_loop_in_statement).
Local Abbreviation ast_parse_primary_expr :=
  (ast_parse_primary_expr ast_parse_expr ast_parse_type_expr ast_parse_if_expr
     ast_parse_match_expr ast_parse_assignment_expr ast_parse_loop_c_statement
     ast_parse_loop_while_statement ast_parse_loop_in_statement).
Local Abbreviation block_no_block :=
  (ast_parse_block_no_block ast_parse_expr ast_parse_type_expr
     ast_parse_match_expr ast_parse_assignment_expr ast_parse_loop_c_statement
     ast_parse_loop_while_statement ast_parse_loop_in_statement).


Lemma ast_parse_statement_var_decl (fuel : nat) (p : Parser) :
  ast_parse_statement (S fuel) p = ast_parse_var_decl p.
Proof.
  simpl.
  destruct (ast_parse_var_decl_err ast_parse_expr ast_parse_type_expr p)
    as (e & ->).
  reflexivity.
Qed.

(** X18.  [ast_parse_statement] is [ast_parse_var_decl]: it returns what
    the declaration parser returns and fails as it fails.  The alternatives
    written after it ([defer], [if], labelled statements, [match],
    assignments) are reached only when the declaration parser returns
    [null], which it never does. *)
Theorem ast_parse_statement_is_var_decl (fuel : nat) (p : Parser) :
  ast_parse_statement (S fuel) p = ast_parse_var_decl p.
Proof. apply ast_parse_statement_var_decl. Qed.

(** X19.  [ast_parse_var_decl] never returns, neither a declaration nor
    [null]: whatever the tokens are and whatever the parsers of the type
    and of the initial value return, the call ends in an error.  A
    declaration that is read up to its semicolon ends in the write of
    [name] through the payload of the node that [ast_create_node] has just
    made, which is a null pointer. *)
Theorem ast_parse_var_decl_never_returns (p : Parser) :
  exists e, ast_parse_var_decl p = Err e.
Proof. apply ast_parse_var_decl_err. Qed.

(** [ast_parse_block_label] returns no label: it declines at a token that
    is no identifier, and after an identifier it frees a token of the
    token vector, the identifier or the colon. *)
Lemma ast_parse_block_label_cases (p : Parser) :
  (exists e, ast_parse_block_label p = Err e) \/
  ast_parse_block_label p = Ok (None, p).
Proof.
  unfold ast_parse_block_label.
  destruct (parser_chomp_if_cases p IDENTIFIER)
    as [(e & ->)| [-> | (id & P & K & ->)]]; simpl; [eauto | auto |].
  left.
  destruct (parser_chomp_if (parser_next p) COLON) as [[[c|] p2]|e]; simpl; eauto.
Qed.


Lemma ast_parse_block_expr_no_node (fuel : nat) (p : Parser) :
  (exists e, ast_parse_block_expr fuel p = Err e) \/
  ast_parse_block_expr fuel p = Ok (None, p).
Proof.
  destruct fuel as [|f]; simpl; [left; eauto|].
  destruct (ast_parse_block_label_cases p) as [(e & ->)| ->]; simpl;
    [left; eauto|].
  apply block_no_block.
Qed.

(** X20.  [ast_parse_block_expr] never returns a node: with or without a
    label it ends in an error or returns [null]. *)
Theorem ast_parse_block_expr_returns_no_node (fuel : nat) (p : Parser) :
  (exists e, ast_parse_block_expr fuel p = Err e) \/
  (exists p', ast_parse_block_expr fuel p = Ok (None, p')).
Proof.
  destruct (ast_parse_block_expr_no_node fuel p) as [H|H]; [left|right]; eauto.
Qed.


(** [set_is_inline] keeps the kind it has checked. *)
Lemma set_is_inline_kind (kind : AstNodeKind) (b : bool) (n n' : AstNode) :
  set_is_inline kind b n = Ok n' -> ast_kind n' = kind.
Proof.
  unfold set_is_inline.
  destruct (AstNodeKind_beq (ast_kind n) kind) eqn:K; [|discriminate].
  apply internal_AstNodeKind_dec_bl in K.
  destruct n; simpl; intros H; inversion H; subst; reflexivity.
Qed.

(** X22.  A loop that [ast_parse_loop_statement] returns is of kind
    [AstNodeKindLoopCExpr] or [AstNodeKindLoopWhileExpr], never of kind
    [AstNodeKindLoopInExpr]: the node of an [in] loop is checked against
    the kind of a [while] loop. *)
Theorem ast_parse_loop_statement_kinds (p p' : Parser) (n : AstNode) :
  ast_parse_loop_statement p = Ok (Some n, p') ->
  ast_kind n = AstNodeKindLoopCExpr \/ ast_kind n = AstNodeKindLoopWhileExpr.
Proof.
  unfold ast_parse_loop_statement.
  destruct (parser_chomp_if p INLINE) as [[inline_token p1]|e]; simpl; [|discriminate].
  destruct (ast_parse_loop_c_statement p1) as [[[n1|] p2]|e]; simpl; [| |discriminate].
  { destruct (set_is_inline _ _ n1) as [n1'|e] eqn:S1; simpl; [|discriminate].
    destruct (free_token inline_token); simpl; [|discriminate].
    intros H; inversion H; subst. left. eapply set_is_inline_kind; eassumption. }
  destruct (ast_parse_loop_while_statement p2) as [[[n2|] p3]|e]; simpl;
    [| |discriminate].
  { destruct (set_is_inline _ _ n2) as [n2'|e] eqn:S2; simpl; [|discriminate].
    destruct (free_token inline_token); simpl; [|discriminate].
    intros H; inversion H; subst. right. eapply set_is_inline_kind; eassumption. }
  destruct (ast_parse_loop_in_statement p3) as [[[n3|] p4]|e]; simpl;
    [| |discriminate].
  { destruct (set_is_inline _ _ n3) as [n3'|e] eqn:S3; simpl; [|discriminate].
    destruct (free_token inline_token); simpl; [|discriminate].
    intros H; inversion H; subst. right. eapply set_is_inline_kind; eassumption. }
  destruct inline_token; [|discriminate].
  destruct (parser_peek_token p4); simpl; discriminate.
Qed.

(** X23.  A loop without a label: when the current token is neither an
    identifier nor a left brace and [ast_parse_loop_statement] returns a
    loop, [ast_parse_labeled_statements] evaluates [label->value] with
    [label == null]; the outcome is the null dereference. *)
Theorem ast_parse_labeled_statements_unlabeled_loop (fuel : nat)
    (p p' : Parser) (tok : Token) (lp : AstNode) :
  parser_peek_token p = Ok tok ->
  tok_kind tok <> IDENTIFIER -> tok_kind tok <> LBRACE ->
  ast_parse_loop_statement p = Ok (Some lp, p') ->
  ast_parse_labeled_statements (S (S fuel)) p = Err NullDeref.
Proof.
  intros P KI KB L.
  change (ast_parse_labeled_statements (S (S fuel)) p) with
    ('(label, p) <- ast_parse_block_label p ;;
     '(block, p) <- ast_parse_block (S fuel) p ;;
     match block with
     | Some b =>
         _ <- check (AstNodeKind_beq (ast_kind b) AstNodeKindBlock) ;;
         value <- deref_value label ;;
         _ <- payload b ;;
         Ok (Some (set_block_name value b), p)
     | None =>
     '(loop, p) <- ast_parse_loop_statement p ;;
     match loop with
     | Some lp =>
         value <- deref_value label ;;
         _ <- payload lp ;;
         Ok (Some (set_loop_label value lp), p)
     | None =>
         match label with
         | Some _ =>
             tok <- parser_peek_token p ;;
             panic ErrorUnexpectedToken "invalid token: `%s`" [tok_value tok]
         | None => Ok (None, p)
         end
     end end).
  unfold ast_parse_block_label.
  rewrite (parser_chomp_if_miss p P KI); simpl.
  rewrite (parser_chomp_if_miss p P KB); simpl.
  rewrite L. reflexivity.
Qed.

(** X24.  The one node that [ast_parse_primary_expr] can return is the
    node of [ast_parse_if_expr].  Behind a [break] or a [return] the token
    just chomped is freed, behind a [continue] the node is written through
    its null payload, and [ast_parse_block] returns no block; so no
    [break], [continue] or [return] node and no block is ever returned. *)
Theorem ast_parse_primary_expr_returns_only_if_expr (fuel : nat)
    (p p' : Parser) (n : AstNode) :
  ast_parse_primary_expr fuel p = Ok (Some n, p') ->
  ast_parse_if_expr p = Ok (Some n, p').
Proof.
  unfold ast_parse_primary_expr.
  destruct (ast_parse_if_expr p) as [[[n0|] p0]|e]; simpl; [| |discriminate].
  { intros H; inversion H; subst. reflexivity. }
  destruct (parser_chomp_if p0 BREAK) as [[[bt|] p1]|e]; simpl;
    [discriminate| |discriminate].
  destruct (parser_chomp_if p1 CONTINUE) as [[[ct|] p2]|e]; simpl;
    [| |discriminate].
  { destruct (ast_parse_break_label p2) as [[[lbl|] p3]|e]; simpl; discriminate. }
  destruct (parser_chomp_if p2 RETURN) as [[[rt|] p3]|e]; simpl;
    [discriminate| |discriminate].
  destruct (block_no_block fuel p3) as [(e & ->)| ->]; simpl; discriminate.
Qed.

Lemma ast_parse_if_prefix_no_node (p : Parser) :
  (exists e, ast_parse_if_prefix p = Err e) \/
  ast_parse_if_prefix p = Ok (None, p).
Proof.
  unfold ast_parse_if_prefix.
  destruct (parser_chomp_if_cases p IF) as [(e & ->)| [-> | (tok & _ & _ & ->)]];
    simpl; [left; eauto | right; reflexivity | left].
  destruct (parser_expect_token (parser_next p) LPAREN) as [[lp p2]|e]; simpl;
    [|eauto].
  destruct (ast_parse_expr p2) as [[condition p3]|e]; simpl; [|eauto].
  destruct (parser_expect_token p3 RPAREN) as [[rp p4]|e]; simpl; eauto.
Qed.

(** X25.  Neither [ast_parse_if_prefix] nor [ast_parse_if_statement] ever
    returns a node: each declines, with no token consumed, when the
    current token is not [if], and ends in an error when it is.  Behind
    the condition and its two parentheses, the left parenthesis, a token
    of the token vector, is freed. *)
Theorem ast_parse_if_statement_returns_no_node (fuel : nat) (p : Parser) :
  ((exists e, ast_parse_if_prefix p = Err e) \/
   ast_parse_if_prefix p = Ok (None, p)) /\
  ((exists e, ast_parse_if_statement fuel p = Err e) \/
   ast_parse_if_statement fuel p = Ok (None, p)).
Proof.
  split; [apply ast_parse_if_prefix_no_node|].
  destruct fuel as [|f]; simpl; [left; eauto|].
  destruct (ast_parse_if_prefix_no_node p) as [(e & ->)| ->]; simpl;
    [left; eauto | right; reflexivity].
Qed.

(** X26.  [ast_parse_block_expr_statement] never returns a node: it
    returns [null] where [ast_parse_assignment_expr] returns [null], and
    ends in an error otherwise.  An assignment that a semicolon follows
    ends in [free(semi)], on a token of the token vector. *)
Theorem ast_parse_block_expr_statement_returns_no_node (fuel : nat)
    (p : Parser) :
  (exists e, ast_parse_block_expr_statement fuel p = Err e) \/
  (exists p', ast_parse_assignment_expr p = Ok (None, p') /\
              ast_parse_block_expr_statement fuel p = Ok (None, p')).
Proof.
  destruct fuel as [|f]; simpl; [left; eauto|].
  destruct (ast_parse_block_expr_no_node f p) as [(e & ->)| ->]; simpl;
    [left; eauto|].
  destruct (ast_parse_assignment_expr p) as [[[a|] p2]|e] eqn:A; simpl;
    [| right; eauto | left; eauto].
  left.
  destruct (parser_expect_token p2 SEMICOLON) as [[semi p3]|e]; simpl; eauto.
Qed.

End MoreGrammarFacts.

(** *** Binary expressions *)

Lemma ast_parse_binary_op_loop_left_nested (fuel : nat)
    (op_parser child_parser : Parser -> parsed) :
  forall out p ops p',
    read_operations fuel op_parser child_parser p = Ok (ops, p') ->
    ast_parse_binary_op_loop fuel BinaryOpChainInfinity op_parser child_parser
      out p = Ok (Some (left_nested out ops), p').
Proof.
  induction fuel as [|f IH]; simpl; intros out p ops p' H; [discriminate|].
  destruct (op_parser p) as [[[op_node|] p1]|e]; simpl in *; [| |discriminate].
  2:{ inversion H; subst. reflexivity. }
  destruct op_node; try discriminate H.
  destruct (child_parser p1) as [[right p2]|e]; simpl in *; [|discriminate].
  destruct (read_operations f op_parser child_parser p2) as [[ops' p3]|e] eqn:R;
    simpl in H; [|discriminate].
  inversion H; subst. simpl.
  apply IH. exact R.
Qed.

(** X27.  Operators of one tier nest to the left.  Let the first operand
    be read, and then, in this order, the operators and right operands
    [ops], until the operator parser declines.  The tree that
    [ast_parse_binary_op_expr] returns for an unbounded chain is the one
    in which every operator has all that was read before it as its left
    operand: for [a op1 b op2 c] it is [((a op1 b) op2 c)]. *)
Theorem ast_parse_binary_op_expr_is_left_nested (fuel : nat)
    (op_parser child_parser : Parser -> parsed) (p p1 p' : Parser)
    (first : AstNode) (ops : list (BinaryOpKind * option AstNode)) :
  child_parser p = Ok (Some first, p1) ->
  read_operations fuel op_parser child_parser p1 = Ok (ops, p') ->
  ast_parse_binary_op_expr fuel BinaryOpChainInfinity op_parser child_parser p
    = Ok (Some (left_nested first ops), p').
Proof.
  intros C R. unfold ast_parse_binary_op_expr. rewrite C; simpl.
  apply ast_parse_binary_op_loop_left_nested. exact R.
Qed.

(** X27, on the tokens of [1 + 2 + 3], the operator being read by
    [plus_operator] and the operands by [integer_operand]. *)
Lemma ast_parse_binary_op_expr_is_left_nested_witness :
  ast_parse_binary_op_expr 5 BinaryOpChainInfinity plus_operator integer_operand
    (parser_init tokens_1_plus_2_plus_3)
  = Ok (Some (AstBinaryOpExpr BinaryOpKindAdd
                (Some (AstBinaryOpExpr BinaryOpKindAdd
                         (Some (AstOther AstNodeKindIntLiteral))
                         (Some (AstOther AstNodeKindIntLiteral))))
                (Some (AstOther AstNodeKindIntLiteral))),
        mkParser tokens_1_plus_2_plus_3 5).
Proof.
  apply (@ast_parse_binary_op_expr_is_left_nested 5 plus_operator
           integer_operand (parser_init tokens_1_plus_2_plus_3)
           (mkParser tokens_1_plus_2_plus_3 1)
           (mkParser tokens_1_plus_2_plus_3 5)
           (AstOther AstNodeKindIntLiteral)
           [ (BinaryOpKindAdd, Some (AstOther AstNodeKindIntLiteral));
             (BinaryOpKindAdd, Some (AstOther AstNodeKindIntLiteral)) ]);
    vm_compute; reflexivity.
Defined.

(** X28.  A missing right operand is not reported.  When the first
    operand is read, then an operator, and the operand parser returns
    [null] after the operator, [ast_parse_binary_op_expr] raises no error:
    for a chain of one operator it returns the operator node with the
    first operand on the left and [null] on the right, and for an
    unbounded chain it returns the same node once the operator parser
    declines. *)
Theorem ast_parse_binary_op_expr_missing_operand (fuel : nat)
    (op_parser child_parser : Parser -> parsed) (p p1 p2 p3 : Parser)
    (first : AstNode) (op : BinaryOpKind) (a b : option AstNode) :
  child_parser p = Ok (Some first, p1) ->
  op_parser p1 = Ok (Some (AstBinaryOpExpr op a b), p2) ->
  child_parser p2 = Ok (None, p3) ->
  ast_parse_binary_op_expr (S fuel) BinaryOpChainOnce op_parser child_parser p
    = Ok (Some (AstBinaryOpExpr op (Some first) None), p3) /\
  (forall p4,
     op_parser p3 = Ok (None, p4) ->
     ast_parse_binary_op_expr (S (S fuel)) BinaryOpChainInfinity op_parser
       child_parser p
     = Ok (Some (AstBinaryOpExpr op (Some first) None), p4)).
Proof.
  intros C O N. unfold ast_parse_binary_op_expr. rewrite C; simpl.
  rewrite O; simpl. rewrite N; simpl. split; [reflexivity|].
  intros p4 D. rewrite D. reflexivity.
Qed.

(** X28, on the tokens of [1 +] and the end of the text. *)
Lemma ast_parse_binary_op_expr_missing_operand_witness :
  ast_parse_binary_op_expr 1 BinaryOpChainOnce plus_operator integer_operand
    (parser_init tokens_1_plus)
  = Ok (Some (AstBinaryOpExpr BinaryOpKindAdd
                (Some (AstOther AstNodeKindIntLiteral)) None),
        mkParser tokens_1_plus 2) /\
  ast_parse_binary_op_expr 2 BinaryOpChainInfinity plus_operator integer_operand
    (parser_init tokens_1_plus)
  = Ok (Some (AstBinaryOpExpr BinaryOpKindAdd
                (Some (AstOther AstNodeKindIntLiteral)) None),
        mkParser tokens_1_plus 2).
Proof.
  destruct (@ast_parse_binary_op_expr_missing_operand 0 plus_operator
              integer_operand (parser_init tokens_1_plus)
              (mkParser tokens_1_plus 1) (mkParser tokens_1_plus 2)
              (mkParser tokens_1_plus 2) (AstOther AstNodeKindIntLiteral)
              BinaryOpKindAdd None None eq_refl eq_refl eq_refl) as [A B].
  split; [exact A | apply B; reflexivity].
Defined.

(** *** The parser on more token lists *)

(** A declaration without qualifiers, [x ;], read up to the semicolon:
    the outcome is the null dereference. *)
Example ast_parse_var_decl_x_semicolon :
  ast_parse_var_decl no_match no_match
    (mkParser [ ident_token "x"; token_of SEMICOLON; token_of TOK_EOF ] 0)
  = Err NullDeref.
Proof. vm_compute. reflexivity. Qed.


(** X22, with a parser of C-style loops that returns a loop node. *)
Lemma ast_parse_loop_statement_kinds_witness :
  ast_kind (AstLoop AstNodeKindLoopCExpr None false) = AstNodeKindLoopCExpr \/
  ast_kind (AstLoop AstNodeKindLoopCExpr None false) = AstNodeKindLoopWhileExpr.
Proof.
  apply (@ast_parse_loop_statement_kinds some_c_loop no_match no_match
           (parser_init tokens_continue) (parser_init tokens_continue)).
  vm_compute. reflexivity.
Defined.

(** X23, with the same loop parser, on tokens that start with neither an
    identifier nor a left brace. *)
Lemma ast_parse_labeled_statements_unlabeled_loop_witness :
  ast_parse_labeled_statements no_match no_match no_match no_match some_c_loop
    no_match no_match 2 (parser_init tokens_continue) = Err NullDeref.
Proof.
  apply (@ast_parse_labeled_statements_unlabeled_loop no_match no_match no_match
           no_match some_c_loop no_match no_match 0
           (parser_init tokens_continue) (parser_init tokens_continue)
           (token_of CONTINUE) (AstLoop AstNodeKindLoopCExpr None false));
    try reflexivity; discriminate.
Defined.

(** X24, with a parser of [if] expressions that returns a node. *)
Lemma ast_parse_primary_expr_returns_only_if_expr_witness :
  some_if_expr (parser_init tokens_continue) =
    Ok (Some (AstIfExpr None None false None), parser_init tokens_continue).
Proof.
  apply (@ast_parse_primary_expr_returns_only_if_expr no_match no_match
           some_if_expr no_match no_match no_match no_match no_match 3
           (parser_init tokens_continue) (parser_init tokens_continue)).
  vm_compute. reflexivity.
Defined.

(** *** The parser on the tokens of a lexed text *)

Section LexedTokens.

Variable ast_parse_expr : Parser -> parsed.
Variable ast_parse_type_expr : Parser -> parsed.
Variable ast_parse_if_expr : Parser -> parsed.
Variable ast_parse_match_expr : Parser -> parsed.
Variable ast_parse_assignment_expr : Parser -> parsed.
Variable ast_parse_loop_c_statement : Parser -> parsed.
Variable ast_parse_loop_while_statement : Parser -> parsed.
Variable ast_parse_loop_in_statement : Parser -> parsed.

Local Abbreviation ast_parse_var_decl :=
  (ast_parse_var_decl ast_parse_expr ast_parse_type_expr).
Local Abbreviation ast_parse_primary_expr :=
  (ast_parse_primary_expr ast_parse_expr ast_parse_type_expr ast_parse_if_expr
     ast_parse_match_expr ast_parse_assignment_expr ast_parse_loop_c_statement
     ast_parse_loop_while_statement ast_parse_loop_in_statement).

(** No keyword is chomped from tokens that hold no keyword. *)
Lemma parser_chomp_if_no_keyword (p p' : Parser) (k : TokenKind)
    (r : option Token) :
  Forall (fun t => parser_only_kind (tok_kind t) = false) (toklist p) ->
  parser_only_kind k = true ->
  parser_chomp_if p k = Ok (r, p') -> r = None /\ p' = p.
Proof.
  intros F K. unfold parser_chomp_if, parser_peek_token.
  destruct (nth_error (toklist p) (curr_tok p)) as [t|] eqn:E; simpl;
    [|discriminate].
  apply nth_error_In in E. rewrite Forall_forall in F. specialize (F t E).
  destruct (TokenKind_beq (tok_kind t) k) eqn:B.
  - apply TokenKind_beq_eq in B. rewrite B in F. congruence.
  - intros H; inversion H; auto.
Qed.


(** X30.  Lexer and primary-expression parser together: on the tokens
    that [lex] returns for a text, once [ast_parse_if_expr] has declined
    (returning [null] and a place in the same tokens),
    [ast_parse_primary_expr] recognises nothing: no [break], [continue] or
    [return] is ever seen and no block is returned, so the outcome is an
    error or [null] with no token consumed. *)
Theorem ast_parse_primary_expr_of_lexed_text (fuel f : nat)
    (buf : list byte) (toks : list Token) (k k' : nat) :
  lex fuel buf = Ok toks ->
  ast_parse_if_expr (mkParser toks k) = Ok (None, mkParser toks k') ->
  (exists e, ast_parse_primary_expr f (mkParser toks k) = Err e) \/
  ast_parse_primary_expr f (mkParser toks k) = Ok (None, mkParser toks k').
Proof.
  intros L I. apply lex_kinds in L. unfold ast_parse_primary_expr.
  rewrite I; simpl.
  destruct (parser_chomp_if (mkParser toks k') BREAK) as [[bt p1]|e] eqn:E1;
    simpl; [|left; eauto].
  apply parser_chomp_if_no_keyword in E1; [|exact L|reflexivity].
  destruct E1 as (-> & ->).
  destruct (parser_chomp_if (mkParser toks k') CONTINUE) as [[ct p2]|e] eqn:E2;
    simpl; [|left; eauto].
  apply parser_chomp_if_no_keyword in E2; [|exact L|reflexivity].
  destruct E2 as (-> & ->). simpl.
  destruct (parser_chomp_if (mkParser toks k') RETURN) as [[rt p3]|e] eqn:E3;
    simpl; [|left; eauto].
  apply parser_chomp_if_no_keyword in E3; [|exact L|reflexivity].
  destruct E3 as (-> & ->).
  destruct (ast_parse_block_no_block ast_parse_expr ast_parse_type_expr
              ast_parse_match_expr ast_parse_assignment_expr
              ast_parse_loop_c_statement ast_parse_loop_while_statement
              ast_parse_loop_in_statement f (mkParser toks k')) as [(e & ->)| ->];
    simpl; [left; eauto | right; reflexivity].
Qed.

End LexedTokens.


(** X30, on the tokens of the text [return ;]: nothing is recognised. *)
Lemma ast_parse_primary_expr_of_lexed_text_witness :
  (exists e,
     ast_parse_primary_expr no_match no_match no_match no_match no_match
       no_match no_match no_match 3
       (mkParser
          [ mkToken IDENTIFIER 7 8 1 (Text (list_byte_of_string "return"));
            mkToken SEMICOLON 8 9 1 (Canonical SEMICOLON);
            mkToken TOK_EOF 8 9 1 (Canonical TOK_EOF) ] 0) = Err e) \/
  ast_parse_primary_expr no_match no_match no_match no_match no_match
    no_match no_match no_match 3
    (mkParser
       [ mkToken IDENTIFIER 7 8 1 (Text (list_byte_of_string "return"));
         mkToken SEMICOLON 8 9 1 (Canonical SEMICOLON);
         mkToken TOK_EOF 8 9 1 (Canonical TOK_EOF) ] 0)
  = Ok (None,
        mkParser
          [ mkToken IDENTIFIER 7 8 1 (Text (list_byte_of_string "return"));
            mkToken SEMICOLON 8 9 1 (Canonical SEMICOLON);
            mkToken TOK_EOF 8 9 1 (Canonical TOK_EOF) ] 0).
Proof.
  apply (@ast_parse_primary_expr_of_lexed_text no_match no_match no_match
           no_match no_match no_match no_match no_match
           20 3 (list_byte_of_string "return ;")
           [ mkToken IDENTIFIER 7 8 1 (Text (list_byte_of_string "return"));
             mkToken SEMICOLON 8 9 1 (Canonical SEMICOLON);
             mkToken TOK_EOF 8 9 1 (Canonical TOK_EOF) ] 0 0).
  - vm_compute. reflexivity.
  - reflexivity.
Defined.
